(** * toas2dat: TOA list to binned time series

    A shallow embedding of [src/toas2dat.c] (PRESTO, U. Chile fork).

    The program reads a list of times of arrival (TOAs), sorts them,
    converts them to seconds from an origin, and sweeps them once over a
    sequence of [WORKLEN]-bin buffers that are written to the output file
    one after the other.

    Modelling choices
    - a C [double] is a primitive binary64 [float]: the arithmetic below
      is the IEEE arithmetic of the machine, rounding included;
    - a C [long] or [int] is a [Z]; [/] and [%] are [Z.quot] and [Z.rem];
      the counters stay below the number of TOAs and of blocks, far from
      the bounds of their types, and no wrap-around is written out;
    - the [float] buffer [fdata] only ever holds values reached from [0.0]
      by [+= 1.0]; those are integers, kept as [Z] (see [float_incr]);
    - every load through the cursor and every store in the buffer is
      recorded in the state, so that memory-safety statements are
      statements about the recorded accesses; a load outside the TOA
      array returns what the memory [stray] holds there;
    - the store of line 294 is made without a test on its index: a run
      with a store outside the buffer, or at an index that the cast
      [(int)] leaves undefined, has no defined result and ends as
      [Overrun];
    - a stdio call on a NULL stream ends the run as [Undefined].

    Not modelled: the command-line parser, whose result is the [Cmdline]
    record, and what the program prints apart from the two counts of
    TOAs.  [main] starts at line 196; the option [-inf] and [readinf]
    are modelled in front of it by [main_inf], with the scanning of
    libc and the calls of libm as parameters. *)

From Stdlib Require Import Ascii String.
From Stdlib Require Import ZArith List Bool Floats Lia.
From Stdlib Require Import Sorting Permutation.
Import ListNotations.

Local Open Scope Z_scope.

(** ** C scalars *)

Definition double := float.
Bind Scope float_scope with double.

Definition WORKLEN : Z := 65536.
Definition SECPERDAY : Z := 86400.

(** Conversion of a [long] to [double], as in [ii * blockt]. *)
Definition double_of_long (n : Z) : double :=
  if 0 <=? n then of_uint63 (Uint63.of_Z n)
  else PrimFloat.opp (of_uint63 (Uint63.of_Z (- n))).

(** [a >= b], [a > b], [a < b] on doubles: false when an operand is NaN. *)
Definition dge (a b : double) : bool := PrimFloat.leb b a.
Definition dgt (a b : double) : bool := PrimFloat.ltb b a.
Definition dlt (a b : double) : bool := PrimFloat.ltb a b.

(** The exact value of a finite double as [m * 2^e]. *)
Definition exact_parts (x : double) : option (Z * Z) :=
  match Prim2SF x with
  | S754_zero _ => Some (0, 0)
  | S754_finite s m e => Some (if s then Z.neg m else Z.pos m, e)
  | S754_infinity _ | S754_nan => None
  end.

(** The cast [(int) x]: truncation toward zero; the C standard leaves it
    undefined when the truncated value does not fit an [int] (also for
    infinities and NaN), which is [None] here. *)
Definition int_of_double (x : double) : option Z :=
  match exact_parts x with
  | Some (m, e) =>
      let v := if 0 <=? e then m * 2 ^ e else Z.quot m (2 ^ (- e)) in
      if (- 2 ^ 31 <=? v) && (v <? 2 ^ 31) then Some v else None
  | None => None
  end.

(** [fdata[i] += 1.0] on a [float] that holds the integer [c]: exact below
    [2^24]; at [2^24] the sum is not representable and rounds back to
    [2^24] (ties to even). *)
Definition float_incr (c : Z) : Z := if c <? 2 ^ 24 then c + 1 else c.

(** ** Arrays *)

(** [*(ddata + i)]: inside the array its element, outside whatever the
    memory holds there. *)
Definition load (ddata : list double) (stray : nat -> double) (i : nat) : double :=
  match nth_error ddata i with
  | Some v => v
  | None => stray i
  end.

Fixpoint update {A} (l : list A) (i : nat) (f : A -> A) : list A :=
  match l, i with
  | [], _ => []
  | x :: l', O => f x :: l'
  | x :: l', S i' => x :: update l' i' f
  end.

(** ** The binning sweep (main, lines 262-304) *)

Record sweep := mkSweep {
  cursor : nat;                  (* toaptr - ddata *)
  toa : double;                  (* the prefetched *toaptr *)
  fdata : list Z;                (* the work buffer *)
  numplaced : Z;
  derefs : list nat;             (* every index at which *toaptr was read *)
  stores : list (option Z)       (* every index at which fdata was written *)
}.

Section Engine.

Variable C : Z.                 (* WORKLEN *)
Variable ddata : list double.   (* the sorted, normalised TOAs *)
Variable stray : nat -> double. (* memory past the end of ddata *)
Variable dt : double.           (* cmd->dt *)
Variable numout : Z.            (* cmd->numout *)

Definition ntoas : nat := length ddata.

Definition numwrites : Z :=
  if negb (Z.rem numout C =? 0) then Z.quot numout C + 1 else Z.quot numout C.

Definition dtfract : double := PrimFloat.div 1 dt.
Definition blockt : double := PrimFloat.mul (double_of_long C) dt.

Definition lotime (ii : Z) : double := PrimFloat.mul (double_of_long ii) blockt.
Definition hitime (ii : Z) : double := PrimFloat.mul (double_of_long (ii + 1)) blockt.

Definition numtowrite (ii : Z) : Z :=
  if negb (Z.rem numout C =? 0) && (ii =? numwrites - 1) then Z.rem numout C else C.

(** [(int) ((toa - lotime) * dtfract)] *)
Definition bin_index (t lo : double) : option Z :=
  int_of_double (PrimFloat.mul (PrimFloat.sub t lo) dtfract).

(** The index of a store falls inside the buffer, [0 <= i < C]. *)
Definition in_buffer (i : option Z) : bool :=
  match i with
  | Some k => (0 <=? k) && (k <? C)
  | None => false
  end.

(** [fdata[i] += 1.0].  The source makes the store whatever the index
    is.  What a store outside the buffer overwrites is not defined:
    the buffer is left as it is here, the index is recorded by [place],
    and a sweep that has recorded such an index is not [stores_ok], so
    that nothing is said of its buffers. *)
Definition bump (i : option Z) (buf : list Z) : list Z :=
  match i with
  | Some k => if (0 <=? k) && (k <? C) then update buf (Z.to_nat k) float_incr else buf
  | None => buf
  end.

(** [fdata[...] += 1.0; numplaced++] *)
Definition place (lo : double) (s : sweep) : sweep :=
  let i := bin_index (toa s) lo in
  mkSweep (cursor s) (toa s) (bump i (fdata s)) (numplaced s + 1) (derefs s)
          (stores s ++ [i]).

(** [toaptr++; toa = *toaptr] *)
Definition advance (s : sweep) : sweep :=
  let p := S (cursor s) in
  mkSweep p (load ddata stray p) (fdata s) (numplaced s) (derefs s ++ [p]) (stores s).

(** The [while] loop of lines 290-299.  Every iteration moves the cursor,
    so [ntoas - cursor] iterations always suffice; [place_toas] is called
    with that much fuel, see [place_block]. *)
Fixpoint place_toas (fuel : nat) (lo hi : double) (s : sweep) : sweep :=
  match fuel with
  | O => s
  | S fuel' =>
      if (cursor s <? ntoas)%nat then
        if dge (toa s) hi then s
        else
          let s' := if dge (toa s) lo then place lo s else s in
          place_toas fuel' lo hi (advance s')
      else s
  end.

(** The zeroing loop of lines 285-286. *)
Definition clear (s : sweep) : sweep :=
  mkSweep (cursor s) (toa s) (repeat 0 (Z.to_nat C)) (numplaced s) (derefs s) (stores s).

Definition place_block (ii : Z) (s : sweep) : sweep :=
  place_toas (ntoas - cursor s) (lotime ii) (hitime ii) (clear s).

(** [fwrite(fdata, sizeof(float), numtowrite, outfile)] *)
Definition fwrite (s : sweep) (ii : Z) : list Z :=
  firstn (Z.to_nat (numtowrite ii)) (fdata s).

(** The [for] loop of lines 274-304, [n] iterations from block [ii] on;
    the blocks written are returned in order. *)
Fixpoint write_blocks (n : nat) (ii : Z) (s : sweep) : sweep * list (list Z) :=
  match n with
  | O => (s, [])
  | S n' =>
      let s1 := place_block ii s in
      let blk := fwrite s1 ii in
      let (s2, rest) := write_blocks n' (ii + 1) s1 in
      (s2, blk :: rest)
  end.

(** Lines 262-263: [toaptr = ddata; toa = *toaptr]. *)
Definition sweep_init : sweep :=
  mkSweep 0 (load ddata stray 0) [] 0 [0%nat] [].

Definition binning : sweep * list (list Z) :=
  write_blocks (Z.to_nat numwrites) 0 sweep_init.

(** Every store that the sweep has made was inside the buffer. *)
Definition stores_ok (s : sweep) : bool := forallb in_buffer (stores s).

End Engine.

(** ** Invariants of the sweep *)

(** The cursor never passes the end by more than one element, and no
    read goes further. *)
Definition cursor_ok (ddata : list double) (s : sweep) : Prop :=
  (cursor s <= ntoas ddata)%nat /\ Forall (fun i => (i <= ntoas ddata)%nat) (derefs s).

(** Two sweeps that differ in the prefetched TOA only where the cursor is
    past the end. *)
Definition same_sweep (ddata : list double) (s1 s2 : sweep) : Prop :=
  cursor s1 = cursor s2 /\ fdata s1 = fdata s2 /\ numplaced s1 = numplaced s2
  /\ derefs s1 = derefs s2 /\ stores s1 = stores s2
  /\ ((cursor s1 < ntoas ddata)%nat -> toa s1 = toa s2).

(** ** Sorting and normalisation (main, lines 246-261) *)

(** [compare_doubles], lines 41-48: [(a > b) - (a < b)]. *)
Definition compare_doubles (a b : double) : Z :=
  Z.b2z (dgt a b) - Z.b2z (dlt a b).

(** libc's [qsort] is not part of the program.  It is modelled by a
    comparison sort that only looks at the sign of the comparator:
    an element goes in front of the first one it does not compare
    greater than. *)
Fixpoint qsort_insert {A} (cmp : A -> A -> Z) (x : A) (l : list A) : list A :=
  match l with
  | [] => [x]
  | y :: l' => if cmp x y <=? 0 then x :: l else y :: qsort_insert cmp x l'
  end.

Definition qsort {A} (cmp : A -> A -> Z) (l : list A) : list A :=
  fold_right (qsort_insert cmp) [] l.

(** The command line, as far as [main] reads it after [parseCmdline]
    (and after the [.inf] file, when given, has set [dt], [numout] and
    [t0]). *)
Record Cmdline := mkCmdline {
  textP : bool;
  floatP : bool;
  secP : bool;
  t0P : bool;
  t0 : double;
  dt : double;
  numout : Z;
  argv0 : string;     (* cmd->argv[0], the TOA file *)
  outfile : string
}.

(** Lines 252-255: the origin. *)
Definition origin (cmd : Cmdline) (stray : nat -> double) (sorted : list double) : double :=
  if t0P cmd then t0 cmd else load sorted stray 0.

(** Lines 256-261: one TOA to seconds from the origin. *)
Definition to_offset (cmd : Cmdline) (To x : double) : double :=
  if secP cmd then PrimFloat.sub x To
  else PrimFloat.mul (PrimFloat.sub x To) (double_of_long SECPERDAY).

Definition normalise (cmd : Cmdline) (stray : nat -> double) (raw : list double) : list double :=
  let sorted := qsort compare_doubles raw in
  map (to_offset cmd (origin cmd stray sorted)) sorted.

(** ** Streams *)

Definition newline : ascii := ascii_of_nat 10.
Definition hash : ascii := ascii_of_nat 35.

(** A stdio input stream: what the file holds, what is still unread, and
    the end-of-file indicator. *)
Record FILE := mkFILE {
  contents : list ascii;
  unread : list ascii;
  at_eof : bool
}.

Definition rewind (f : FILE) : FILE := mkFILE (contents f) (contents f) false.

(** The characters [fgets] stores when the buffer has room for [n] of
    them: it stops after a newline or when the room is used up, and it
    sets the end-of-file indicator only when it runs into the end of the
    file while it still has room. *)
Fixpoint fgets_chars (n : nat) (l : list ascii) : list ascii * list ascii * bool :=
  match n with
  | O => ([], l, false)
  | S n' =>
      match l with
      | [] => ([], [], true)
      | c :: l' =>
          if Ascii.eqb c newline then ([c], l', false)
          else let '(line, rest, e) := fgets_chars n' l' in (c :: line, rest, e)
      end
  end.

(** [fgets(line, size, f)]: [None] is the NULL it returns when no
    character could be read. *)
Definition fgets (size : nat) (f : FILE) : option (list ascii) * FILE :=
  let '(line, rest, e) := fgets_chars (size - 1) (unread f) in
  let f' := mkFILE (contents f) rest (at_eof f || e) in
  match line with
  | [] => (None, f')
  | _ :: _ => (Some line, f')
  end.

Definition first_is (c : ascii) (line : list ascii) : bool :=
  match line with
  | c' :: _ => Ascii.eqb c' c
  | [] => false
  end.

(** ** The text loader, [read_toas] (lines 50-84) *)

Section Loader.

(** [sscanf(line, "%lf", &x) == 1] with the value stored, or [None]. *)
Variable sscanf_lf : list ascii -> option double.

(** The test of lines 63 and 77. *)
Definition toa_of_line (line : list ascii) : option double :=
  if negb (first_is hash line) then sscanf_lf line else None.

(** One [while (1)] loop of [read_toas]; both loops read the same
    lines with the same tests, the first one counts and the second
    one stores.  An iteration that does not leave the loop consumes
    at least one character. *)
Fixpoint read_lines (fuel : nat) (f : FILE) : list double :=
  match fuel with
  | O => []
  | S fuel' =>
      let (sptr, f') := fgets 80 f in
      match sptr with
      | Some line =>
          if negb (at_eof f') && negb (first_is newline line) then
            match toa_of_line line with
            | Some x => x :: read_lines fuel' f'
            | None => read_lines fuel' f'
            end
          else []
      | None => []
      end
  end.

Definition read_pass (f : FILE) : list double :=
  read_lines (S (length (unread f))) f.

(** [read_toas]: the count of the first pass and the array filled by
    the second. *)
Definition read_toas (infile : FILE) : Z * list double :=
  let numtoa := Z.of_nat (length (read_pass infile)) in
  (numtoa, read_pass (rewind infile)).

End Loader.

(** ** The binary loaders (main, lines 211-236) *)

(** A little-endian group of bytes as a number. *)
Definition le_bits (bs : list ascii) : Z :=
  fold_right (fun b acc => Z.of_N (N_of_ascii b) + 256 * acc) 0 bs.

(** The IEEE value of a bit pattern with [mw] fraction bits and [ew]
    exponent bits. *)
Definition decode_ieee (mw ew : Z) (bits : Z) : spec_float :=
  let frac := bits mod 2 ^ mw in
  let ex := (bits / 2 ^ mw) mod 2 ^ ew in
  let sg := Z.odd (bits / 2 ^ (mw + ew)) in
  if ex =? 0 then
    match frac with
    | Z.pos m => S754_finite sg m (2 - 2 ^ (ew - 1) - mw)
    | _ => S754_zero sg
    end
  else if ex =? 2 ^ ew - 1 then
    if frac =? 0 then S754_infinity sg else S754_nan
  else
    match frac + 2 ^ mw with
    | Z.pos m => S754_finite sg m (ex - (2 ^ (ew - 1) - 1) - mw)
    | _ => S754_nan
    end.

(** A [double] in the file, and a [float] in the file widened by
    [(double) fdata[jj]] (every binary32 value is a binary64 value). *)
Definition double_of_bytes (bs : list ascii) : double :=
  SF2Prim (decode_ieee 52 11 (le_bits bs)).
Definition double_of_float_bytes (bs : list ascii) : double :=
  SF2Prim (decode_ieee 23 8 (le_bits bs)).

(** [getfilelen], lines 26-39, on an open regular file. *)
Definition getfilelen (f : FILE) (size : Z) : Z :=
  Z.quot (Z.of_nat (length (contents f))) size.

(** [fread(ptr, size, n, f)]: the complete items it could read. *)
Fixpoint fread (size n : nat) (bytes : list ascii) : list (list ascii) :=
  match n with
  | O => []
  | S n' =>
      if (size <=? length bytes)%nat
      then firstn size bytes :: fread size n' (skipn size bytes)
      else []
  end.

(** ** The whole run (main, lines 204-312) *)

(** What the run can see of the file system: the files that open for
    reading, with their bytes, and the names that open for writing. *)
Record world := mkWorld {
  files : string -> option (list ascii);
  can_create : string -> bool
}.

Definition fopen (w : world) (name : string) : option FILE :=
  match files w name with
  | Some bytes => Some (mkFILE bytes bytes false)
  | None => None
  end.

Record report := mkReport {
  found : Z;                        (* "Found %ld TOAs." *)
  placed : Z;                       (* "Placed %ld TOAs." *)
  blocks : list (list Z);           (* the fwrite calls, in order *)
  toa_loads : list nat;             (* indices read through toaptr *)
  bin_stores : list (option Z)      (* indices written in fdata *)
}.

(** The output file is the blocks one after the other. *)
Definition series (r : report) : list Z := concat (blocks r).

Inductive outcome :=
| Done (r : report)       (* exit(0), line 312 *)
| Failed (status : Z)     (* exit(-1) after a diagnostic *)
| Undefined               (* a stdio call on a NULL stream *)
| Overrun.                (* a store outside fdata, line 294 *)

Definition exit_status (o : outcome) : option Z :=
  match o with
  | Done _ => Some 0
  | Failed s => Some s
  | Undefined => None
  | Overrun => None
  end.

Section Main.

Variable sscanf_lf : list ascii -> option double.
Variable stray : nat -> double.

(** Lines 207-236, on a stream that did open: the TOA count and the
    raw TOAs, or the exit status of a short read. *)
Definition load_toas (cmd : Cmdline) (infile : FILE) : Z * list double + Z :=
  if textP cmd then inl (read_toas sscanf_lf infile)
  else
    let size := if floatP cmd then 4 else 8 in
    let conv := if floatP cmd then double_of_float_bytes else double_of_bytes in
    let ntoas := getfilelen infile size in
    let items := fread (Z.to_nat size) (Z.to_nat ntoas) (unread infile) in
    if Z.of_nat (length items) =? ntoas
    then inl (ntoas, map conv items)
    else inr (-1).

(** Neither [fopen] is checked: with a NULL [infile] the first call
    made is [fgets] (text) or [fileno] (binary), with a NULL [outfile]
    it is [fwrite], or [fclose] when nothing is written.  The run has a
    result only when every store of the sweep was inside [fdata]. *)
Definition main (cmd : Cmdline) (w : world) : outcome :=
  match fopen w (argv0 cmd) with
  | None => Undefined
  | Some infile =>
      match load_toas cmd infile with
      | inr status => Failed status
      | inl (ntoas, raw) =>
          if can_create w (outfile cmd) then
            let ddata := normalise cmd stray raw in
            let (s, blks) := binning WORKLEN ddata stray (dt cmd) (numout cmd) in
            if stores_ok WORKLEN s
            then Done (mkReport ntoas (numplaced s) blks (derefs s) (stores s))
            else Overrun
          else Undefined
      end
  end.

End Main.

(** ** A scanner for plain decimal numbers

    [sscanf] belongs to libc and stays a parameter of the loader.  For
    examples, [scan_decimal] reads what ["%lf"] reads from a line of the
    form [spaces, sign, digits, '.', digits]: with at most 15 digits both
    the digit string and the power of ten are exact doubles, and their
    correctly rounded quotient is the value libc returns. *)

Definition is_space (c : ascii) : bool :=
  let n := nat_of_ascii c in
  (n =? 32)%nat || ((9 <=? n)%nat && (n <=? 13)%nat).

Definition digit_of (c : ascii) : option Z :=
  let n := Z.of_nat (nat_of_ascii c) in
  if (48 <=? n) && (n <=? 57) then Some (n - 48) else None.

Fixpoint skip_space (l : list ascii) : list ascii :=
  match l with
  | c :: l' => if is_space c then skip_space l' else l
  | [] => []
  end.

Fixpoint take_digits (l : list ascii) (acc : Z) (n : nat) : Z * nat * list ascii :=
  match l with
  | c :: l' =>
      match digit_of c with
      | Some d => take_digits l' (10 * acc + d) (S n)
      | None => (acc, n, l)
      end
  | [] => (acc, n, [])
  end.

Definition scan_decimal (line : list ascii) : option double :=
  let l := skip_space line in
  let '(neg, l1) :=
    match l with
    | c :: r => if Ascii.eqb c "-" then (true, r)
                else if Ascii.eqb c "+" then (false, r) else (false, l)
    | [] => (false, l)
    end in
  let '(ip, ni, l2) := take_digits l1 0 0 in
  let '(m, nf) :=
    match l2 with
    | c :: r => if Ascii.eqb c "." then let '(m, k, _) := take_digits r ip 0 in (m, k)
                else (ip, O)
    | [] => (ip, O)
    end in
  if (ni + nf =? 0)%nat then None
  else
    let v := PrimFloat.div (of_uint63 (Uint63.of_Z m))
                           (of_uint63 (Uint63.of_Z (10 ^ Z.of_nat nf))) in
    Some (if neg then PrimFloat.opp v else v).

(** A text file from its lines, each ended by a newline. *)
Definition text_of_lines (ls : list string) : list ascii :=
  concat (map (fun l => list_ascii_of_string l ++ [newline]) ls).

(** ** What the description of the program says

    The definitions of this part follow the prose description of the
    program, not its code; the properties below compare them with the
    code. *)

(** The bin of the uniform grid [[0, dt), [dt, 2 dt), ...] that holds
    the time [t], computed exactly on the values of the two doubles. *)
Definition grid_bin (dt t : double) : option Z :=
  match exact_parts t, exact_parts dt with
  | Some (mt, et), Some (md, ed) =>
      if 0 <? md then
        let e := Z.min et ed in
        Some ((mt * 2 ^ (et - e)) / (md * 2 ^ (ed - e)))
      else None
  | _, _ => None
  end.

Definition in_bin (dt : double) (k : Z) (t : double) : bool :=
  match grid_bin dt t with
  | Some b => b =? k
  | None => false
  end.

(** The histogram of the TOAs over a grid of [numout] bins of width
    [dt] that starts at the origin. *)
Definition grid_histogram (dt : double) (numout : Z) (toas : list double) : list Z :=
  map (fun k => Z.of_nat (length (filter (in_bin dt (Z.of_nat k)) toas)))
      (seq 0 (Z.to_nat numout)).

(** A TOA outside [[0, numout * dt)]. *)
Definition out_of_series (dt : double) (numout : Z) (t : double) : bool :=
  match grid_bin dt t with
  | Some b => negb ((0 <=? b) && (b <? numout))
  | None => true
  end.

Definition dropped (dt : double) (numout : Z) (toas : list double) : Z :=
  Z.of_nat (length (filter (out_of_series dt numout) toas)).

(** The lines of a text file that the description loads: those that do
    not start with [#], are not empty, and on which the scan succeeds. *)
Definition line_toa (sscanf_lf : list ascii -> option double) (l : string) : option double :=
  let line := list_ascii_of_string l in
  if first_is hash line then None
  else match line with
       | [] => None
       | _ :: _ => sscanf_lf (line ++ [newline])
       end.

Fixpoint toas_of_lines (sscanf_lf : list ascii -> option double) (ls : list string)
  : list double :=
  match ls with
  | [] => []
  | l :: ls' =>
      match line_toa sscanf_lf l with
      | Some x => x :: toas_of_lines sscanf_lf ls'
      | None => toas_of_lines sscanf_lf ls'
      end
  end.

(** The lines in front of the first empty one. *)
Fixpoint before_blank (ls : list string) : list string :=
  match ls with
  | [] => []
  | l :: ls' => if String.eqb l EmptyString then [] else l :: before_blank ls'
  end.

(** A line that fits the 80-byte buffer of [read_toas] together with its
    newline, and holds no newline itself. *)
Definition fits_buffer (l : string) : Prop :=
  (String.length l <= 78)%nat /\ ~ In newline (list_ascii_of_string l).

Definition no_nan (l : list double) : Prop :=
  Forall (fun x => PrimFloat.is_nan x = false) l.

Definition le_double (a b : double) : Prop := PrimFloat.leb a b = true.

(** Non-decreasing, with the comparison of the doubles. *)
Definition ascending (l : list double) : Prop :=
  forall i a b, nth_error l i = Some a -> nth_error l (S i) = Some b ->
                PrimFloat.leb a b = true.

(** ** Inputs of the examples *)

(** A file system with the one text file [toas.txt]; every name opens
    for writing. *)
Definition text_world (ls : list string) : world :=
  mkWorld (fun name => if String.eqb name "toas.txt" then Some (text_of_lines ls) else None)
          (fun _ => true).

(** [toas2dat -text -sec -t0 epoch -dt dt -n numout -o series.dat toas.txt] *)
Definition text_seconds (epoch dt : double) (numout : Z) : Cmdline :=
  mkCmdline true false true true epoch dt numout "toas.txt" "series.dat".

(** The TOAs of the scenarios; the last one is the double next to 9.9. *)
Definition scenario_lines : list string := ["0.5"; "1.5"; "1.5"; "9.9"]%string.
Definition scenario_toas : list double :=
  [0.5; 1.5; 1.5; 0x1.3cccccccccccdp+3]%float.

(** The double next to 0.9, and the double just below [65536 * 0.9]. *)
Definition dt_09 : double := 0x1.ccccccccccccdp-1%float.
Definition below_block_end : double := 0x1.cccccccccccccp+15%float.

(** ** The value of a double as an integer

    A finite double is [m * 2^e] with [e >= -1074].  Scaled by
    [2^bias] its value is an integer, and so are the exact differences
    and the exact products with 86400 that the operations round.  The
    definitions below describe IEEE rounding on these integers; the
    properties relate them to the operations on [spec_float], which the
    standard library states to be those of the primitive doubles. *)

(** The scale, and the scaled [2^1024], which stands for infinity: it
    lies above every finite double. *)
Definition bias : Z := 2200.
Definition top : Z := 2 ^ (1024 + bias).

(** [v / 2^k] rounded to the nearest integer, ties to even. *)
Definition rne (v k : Z) : Z :=
  let q := v / 2 ^ k in
  match 2 * (v mod 2 ^ k) ?= 2 ^ k with
  | Lt => q
  | Eq => if Z.even q then q else q + 1
  | Gt => q + 1
  end.

(** The scaled exponent of the last bit of the double that a positive
    scaled value [v] rounds to: 53 bits are kept, fewer below [2^-1022]. *)
Definition rexp (v : Z) : Z := Z.max (Z.log2 v - 52) (bias - 1074).

(** Rounding to nearest even in binary64, on positive scaled values. *)
Definition rnd (v : Z) : Z := rne v (rexp v) * 2 ^ rexp v.

Definition signed (s : bool) (z : Z) : Z := if s then - z else z.

(** The scaled value of a double; NaN has none. *)
Definition xval (x : spec_float) : option Z :=
  match x with
  | S754_zero _ => Some 0
  | S754_infinity s => Some (signed s top)
  | S754_nan => None
  | S754_finite s m e => Some (signed s (Z.pos m * 2 ^ (e + bias)))
  end.

(** Rounding on all scaled values, overflow to infinity included. *)
Definition round_ext (v : Z) : Z :=
  match v with
  | 0 => 0
  | Z.pos _ => Z.min top (rnd v)
  | Z.neg _ => - Z.min top (rnd (- v))
  end.

(** Zero or finite. *)
Definition fin (x : spec_float) : bool :=
  match x with
  | S754_zero _ | S754_finite _ _ _ => true
  | S754_infinity _ | S754_nan => false
  end.

(** The value of [v * k] for a positive double [k = mk * 2^ek]. *)
Definition scale_by (mk : positive) (ek : Z) (v : Z) : Z :=
  if v <=? - top then - top
  else if top <=? v then top
  else round_ext (v * (Z.pos mk * 2 ^ (ek + 1074)) / 2 ^ 1074).

(** ** The sweep, TOA by TOA

    What the sweep computes, said without the cursor: a TOA belongs to
    the block whose window holds it, and is counted there at the index
    the program computes for it. *)

Definition below (hi t : double) : bool := negb (dge t hi).
Definition between (lo hi t : double) : bool := dge t lo && negb (dge t hi).

(** The TOA [t] lies in the window of block [ii]. *)
Definition in_window (C : Z) (dt : double) (ii : Z) (t : double) : bool :=
  between (lotime C dt ii) (hitime C dt ii) t.

(** One TOA counted in the buffer of a block that starts at [lo]. *)
Definition count_in (C : Z) (dt lo : double) (buf : list Z) (t : double) : list Z :=
  bump C (bin_index dt t lo) buf.

(** The buffer of block [ii] when the TOAs of its window are counted one
    by one, whatever comes before or after them. *)
Definition tally (C : Z) (dt : double) (ii : Z) (toas : list double) : list Z :=
  fold_left (count_in C dt (lotime C dt ii)) (filter (in_window C dt ii) toas)
            (repeat 0 (Z.to_nat C)).

(** A TOA inside the span of the first [n] blocks. *)
Definition in_span (C : Z) (dt : double) (n : Z) (t : double) : bool :=
  between (lotime C dt 0) (lotime C dt n) t.

(** The TOAs outside the span of the blocks that a run writes. *)
Definition outside_span (C : Z) (dt : double) (numout : Z) (toas : list double) : Z :=
  Z.of_nat (length (filter (fun t => negb (in_span C dt (numwrites C numout) t)) toas)).

(** The [while] loop on the TOAs from the cursor on: how many it
    consumes, the buffer it leaves, how many it places and where. *)
Fixpoint consume (C : Z) (dt lo hi : double) (l : list double) (buf : list Z)
  : nat * list Z * nat * list (option Z) :=
  match l with
  | [] => (O, buf, O, [])
  | t :: l' =>
      if dge t hi then (O, buf, O, [])
      else if dge t lo then
        let '(n, b, k, st) := consume C dt lo hi l' (count_in C dt lo buf t) in
        (S n, b, S k, bin_index dt t lo :: st)
      else
        let '(n, b, k, st) := consume C dt lo hi l' buf in
        (S n, b, k, st)
  end.

(** The TOA held in [toa] is the one at the cursor. *)
Definition prefetched (ddata : list double) (stray : nat -> double) (s : sweep) : Prop :=
  toa s = load ddata stray (cursor s).

(** The start times of the blocks do not decrease. *)
Definition windows_ascend (C : Z) (dt : double) (numout : Z) : Prop :=
  forall a b, 0 <= a -> a <= b -> b <= numwrites C numout ->
              le_double (lotime C dt a) (lotime C dt b).

(** No TOA in front of the cursor belongs to the window of block [ii]
    or of a later block. *)
Definition consumed_ok (C : Z) (ddata : list double) (dt : double) (numout : Z)
           (ii : Z) (s : sweep) : Prop :=
  forall j, ii <= j < numwrites C numout ->
            Forall (fun t => in_window C dt j t = false) (firstn (cursor s) ddata).

(** ** Further definitions for the properties of the loaders and of a run *)

(** The report of Scenario B: four TOAs found and placed, one block of
    five bins written, five reads through the cursor, four stores. *)
Definition scenario_B_report : report :=
  mkReport 4 4 [[1; 2; 0; 0; 0]] [0; 1; 2; 3; 4]%nat [Some 0; Some 1; Some 1; Some 9].


(** The first bin holds a count. *)
Definition counted_first (buf : list Z) : Prop :=
  exists v tl, buf = v :: tl /\ 1 <= v.

(** The TOA of a line read, as a list of none or one. *)
Definition toa_list (sscanf_lf : list ascii -> option double) (line : list ascii)
  : list double :=
  match toa_of_line sscanf_lf line with
  | Some x => [x]
  | None => []
  end.

(** Decidable forms of the side conditions on lines. *)
Definition no_newline (l : list ascii) : bool :=
  forallb (fun c => negb (Ascii.eqb c newline)) l.

Definition fits_bufferb (l : string) : bool :=
  (String.length l <=? 78)%nat && no_newline (list_ascii_of_string l).

Definition nonblank (l : string) : Prop := l <> EmptyString.


(** ** The [.inf] file ([readinf], lines 86-133; [main], lines 160-194) *)

(** What a call can come to: a value, an [exit] with a status, or a step
    that C leaves undefined ([strcpy] from NULL or past the end of its
    target, [sprintf] past the end of its buffer). *)
Inductive result (A : Type) :=
| Ok (a : A)
| Exits (status : Z)
| Crash.
Arguments Ok {A} a.
Arguments Exits {A} status.
Arguments Crash {A}.

(** The fields of [infodata] (lines 18-24); [name] holds nothing until
    [strcpy] fills it. *)
Record infodata := mkInfo {
  inf_N : Z;
  inf_dt : double;
  inf_mjd_i : double;
  inf_mjd_f : double;
  inf_name : option (list ascii)
}.

Definition nul : ascii := ascii_of_nat 0.
Definition quote : ascii := ascii_of_nat 34.
Definition dot : ascii := ascii_of_nat 46.

(** The C string that starts a buffer: the characters before the first
    NUL. *)
Fixpoint cstring (l : list ascii) : list ascii :=
  match l with
  | [] => []
  | c :: l' => if Ascii.eqb c nul then [] else c :: cstring l'
  end.

(** [strncmp(a, b, n) == 0] on C strings. *)
Fixpoint strncmp_eq (n : nat) (a b : list ascii) : bool :=
  match n with
  | O => true
  | S n' =>
      match a, b with
      | [], [] => true
      | x :: a', y :: b' => Ascii.eqb x y && strncmp_eq n' a' b'
      | _, _ => false
      end
  end.

(** [strtok] with the one delimiter [d]: the token and what follows the
    delimiter that ends it, or [None] for NULL. *)
Fixpoint skip_delims (d : ascii) (l : list ascii) : list ascii :=
  match l with
  | c :: l' => if Ascii.eqb c d then skip_delims d l' else l
  | [] => []
  end.

Fixpoint take_token (d : ascii) (l : list ascii) : list ascii * list ascii :=
  match l with
  | [] => ([], [])
  | c :: l' =>
      if Ascii.eqb c d then ([], l')
      else let (t, r) := take_token d l' in (c :: t, r)
  end.

Definition strtok (d : ascii) (l : list ascii) : option (list ascii * list ascii) :=
  match skip_delims d l with
  | [] => None
  | l' => Some (take_token d l')
  end.

(** [strtok(line, d); strtok(NULL, d)]: the second token. *)
Definition second_token (d : ascii) (line : list ascii) : option (list ascii) :=
  match strtok d line with
  | None => None
  | Some (_, rest) =>
      match strtok d rest with
      | None => None
      | Some (t, _) => Some t
      end
  end.

(** [strchr(line, c)], then one step further: what follows the first [c]. *)
Fixpoint after_char (c : ascii) (l : list ascii) : option (list ascii) :=
  match l with
  | [] => None
  | x :: l' => if Ascii.eqb x c then Some l' else after_char c l'
  end.

(** The digits that start a string (lines 122-125). *)
Fixpoint leading_digits (l : list ascii) : list ascii :=
  match l with
  | c :: l' =>
      match digit_of c with
      | Some _ => c :: leading_digits l'
      | None => []
      end
  | [] => []
  end.

(** [strstr(h, n) != NULL], with the characters in front of the first
    occurrence. *)
Fixpoint starts_with (n h : list ascii) : bool :=
  match n, h with
  | [], _ => true
  | x :: n', y :: h' => Ascii.eqb x y && starts_with n' h'
  | _ :: _, [] => false
  end.

Fixpoint strstr (h n : list ascii) : option (list ascii) :=
  if starts_with n h then Some []
  else match h with
       | [] => None
       | c :: h' =>
           match strstr h' n with
           | Some front => Some (c :: front)
           | None => None
           end
       end.

(** Lines 166-168: the name given with [-inf], cut at its first [.inf]. *)
Definition root_of (inffile : list ascii) : list ascii :=
  match strstr inffile (list_ascii_of_string ".inf") with
  | Some front => front
  | None => inffile
  end.

(** Line 91: [sprintf(infofilenm, "%s.inf", filenm)]. *)
Definition infofilenm (filenm : list ascii) : list ascii :=
  filenm ++ list_ascii_of_string ".inf".

Section Inf.

(** [sscanf(line, format, &x) == 1] with the value stored, for the
    formats that end in [%ld] and in [%lf]; and the libc and libm calls
    of lines 126-128, for which the file shows no prototype:
    [atof(tmp1) * pow(10.0, -strlen(tmp1))] on the digits, and [floor]. *)
Variable sscanf_ld : string -> list ascii -> option Z.
Variable sscanf_fmt_lf : string -> list ascii -> option double.
Variable mjd_fraction : list ascii -> double.
Variable floor : double -> double.

Definition is_name_line (s : list ascii) : bool :=
  strncmp_eq 14 s (list_ascii_of_string " Data file name").
Definition is_bins_line (s : list ascii) : bool :=
  strncmp_eq 14 s (list_ascii_of_string " Number of bins").
Definition is_width_line (s : list ascii) : bool :=
  strncmp_eq 25 s (list_ascii_of_string " Width of each time series").
Definition is_epoch_line (s : list ascii) : bool :=
  strncmp_eq 20 s (list_ascii_of_string " Epoch of observation").

(** The body of the loop of lines 105-131 on one line read. *)
Definition inf_line (idata : infodata) (line : list ascii) : result infodata :=
  if first_is hash line || first_is newline line then Ok idata
  else
    let s := cstring line in
    if is_name_line s then
      match second_token quote s with
      | Some t =>
          if (length t <? 100)%nat
          then Ok (mkInfo (inf_N idata) (inf_dt idata) (inf_mjd_i idata) (inf_mjd_f idata)
                          (Some t))
          else Crash
      | None => Crash
      end
    else if is_bins_line s then
      match sscanf_ld " Number of bins in the time series = %ld" s with
      | Some n => Ok (mkInfo n (inf_dt idata) (inf_mjd_i idata) (inf_mjd_f idata)
                             (inf_name idata))
      | None => Ok idata
      end
    else if is_width_line s then
      match sscanf_fmt_lf " Width of each time series bin (sec) = %lf" s with
      | Some x => Ok (mkInfo (inf_N idata) x (inf_mjd_i idata) (inf_mjd_f idata)
                             (inf_name idata))
      | None => Ok idata
      end
    else if is_epoch_line s then
      let mjd := match sscanf_fmt_lf " Epoch of observation (MJD) = %lf" s with
                 | Some x => x
                 | None => inf_mjd_i idata
                 end in
      match after_char dot s with
      | Some tail =>
          Ok (mkInfo (inf_N idata) (inf_dt idata) (floor mjd)
                     (mjd_fraction (leading_digits tail)) (inf_name idata))
      | None =>
          Ok (mkInfo (inf_N idata) (inf_dt idata) mjd (inf_mjd_f idata) (inf_name idata))
      end
    else Ok idata.

(** The loop [while (fgets(line, 200, infofile))]; every line read
    shortens what is left of the file. *)
Fixpoint inf_lines (fuel : nat) (idata : infodata) (f : FILE) : result infodata :=
  match fuel with
  | O => Ok idata
  | S fuel' =>
      let (sptr, f') := fgets 200 f in
      match sptr with
      | None => Ok idata
      | Some line =>
          match inf_line idata line with
          | Ok idata' => inf_lines fuel' idata' f'
          | Exits status => Exits status
          | Crash => Crash
          end
      end
  end.

(** [readinf]: the name must fit [infofilenm[200]] with its NUL; the
    file is opened, and its [fopen] is checked. *)
Definition readinf (w : world) (filenm : list ascii) : result infodata :=
  let nm := infofilenm filenm in
  if (length nm <? 200)%nat then
    match fopen w (string_of_list_ascii nm) with
    | None => Exits (-1)
    | Some f => inf_lines (S (length (unread f))) (mkInfo 0 0 0 0 None) f
    end
  else Crash.

(** Lines 175-187: the command line after the [.inf] file. *)
Definition with_inf (cmd : Cmdline) (idata : infodata) : Cmdline :=
  mkCmdline (textP cmd) (floatP cmd) (secP cmd) true
            (if t0P cmd then t0 cmd
             else PrimFloat.add (inf_mjd_i idata) (inf_mjd_f idata))
            (inf_dt idata) (inf_N idata) (argv0 cmd) (outfile cmd).

Variable sscanf_lf : list ascii -> option double.
Variable stray : nat -> double.

(** [main] from line 160 on, with the option [-inf] when it is given. *)
Definition main_inf (inffile : option string) (cmd : Cmdline) (w : world)
  : result outcome :=
  match inffile with
  | None => Ok (main sscanf_lf stray cmd w)
  | Some name =>
      match readinf w (root_of (list_ascii_of_string name)) with
      | Ok idata => Ok (main sscanf_lf stray (with_inf cmd idata) w)
      | Exits status => Exits status
      | Crash => Crash
      end
  end.

End Inf.

(** ** Scanners for the examples of [.inf] files

    As [scan_decimal], these stand for libc in the examples only.
    [scan_format] follows a format up to its conversion: white space in
    the format skips white space in the line, any other character must
    be the next one of the line. *)

Fixpoint scan_format (fmt line : list ascii) : option (list ascii) :=
  match fmt with
  | [] => None
  | f :: fmt' =>
      if Ascii.eqb f "%" then Some line
      else if is_space f then scan_format fmt' (skip_space line)
      else match line with
           | c :: line' => if Ascii.eqb c f then scan_format fmt' line' else None
           | [] => None
           end
  end.

(** [%ld] on a short decimal number. *)
Definition scan_long (l : list ascii) : option Z :=
  let l0 := skip_space l in
  let '(neg, l1) :=
    match l0 with
    | c :: r => if Ascii.eqb c "-" then (true, r)
                else if Ascii.eqb c "+" then (false, r) else (false, l0)
    | [] => (false, l0)
    end in
  let '(v, nd, _) := take_digits l1 0 0 in
  if (nd =? 0)%nat then None else Some (if neg then - v else v).

Definition scan_ld (fmt : string) (line : list ascii) : option Z :=
  match scan_format (list_ascii_of_string fmt) line with
  | Some rest => scan_long rest
  | None => None
  end.

Definition scan_lf (fmt : string) (line : list ascii) : option double :=
  match scan_format (list_ascii_of_string fmt) line with
  | Some rest => scan_decimal rest
  | None => None
  end.

(** A line that fits the 200-byte buffer of [readinf] with its newline. *)
Definition fits_inf (l : string) : Prop :=
  (String.length l <= 198)%nat /\ ~ In newline (list_ascii_of_string l).

Definition fits_infb (l : string) : bool :=
  (String.length l <=? 198)%nat && no_newline (list_ascii_of_string l).

(** The line as [fgets] hands it to the loop. *)
Definition line_read (l : string) : list ascii := list_ascii_of_string l ++ [newline].

(** An [.inf] file for the examples: a comment, a quoted name and a
    width, and no line with the number of bins. *)
Definition inf_lines_example : list string :=
  ["# made by hand"%string;
   string_of_list_ascii
     (list_ascii_of_string " Data file name without suffix          =  "
      ++ [quote] ++ list_ascii_of_string "obs" ++ [quote]);
   " Width of each time series bin (sec)    =  0.5"%string].

(** The same with a name that is not quoted. *)
Definition inf_lines_unquoted : list string :=
  ["# made by hand"%string;
   " Data file name without suffix          =  obs"%string;
   " Number of bins in the time series      =  8"%string].

(** A file system with [toas.txt] and [obs.inf]. *)
Definition inf_world (inf ls : list string) : world :=
  mkWorld (fun name =>
             if String.eqb name "toas.txt" then Some (text_of_lines ls)
             else if String.eqb name "obs.inf" then Some (text_of_lines inf)
             else None)
          (fun _ => true).

(** * Properties *)

(** ** The work buffer keeps its length *)

Lemma update_length {A} (l : list A) (i : nat) (f : A -> A) :
  length (update l i f) = length l.
Proof.
  revert i; induction l as [|x l IH]; intros [|i]; simpl; auto.
Qed.

Section EngineFacts.

Variable C : Z.
Variable ddata : list double.
Variable stray : nat -> double.
Variable dt : double.
Variable numout : Z.

Local Abbreviation place := (place C dt).
Local Abbreviation advance := (advance ddata stray).
Local Abbreviation place_toas := (place_toas C ddata stray dt).
Local Abbreviation place_block := (place_block C ddata stray dt).
Local Abbreviation write_blocks := (write_blocks C ddata stray dt numout).
Local Abbreviation numtowrite := (numtowrite C numout).
Local Abbreviation numwrites := (numwrites C numout).

Lemma place_fdata_length lo s : length (fdata (place lo s)) = length (fdata s).
Proof.
  unfold place, bump; simpl.
  destruct (bin_index dt (toa s) lo) as [k|]; auto.
  destruct ((0 <=? k) && (k <? C)); auto using update_length.
Qed.

Lemma place_toas_fdata_length fuel lo hi s :
  length (fdata (place_toas fuel lo hi s)) = length (fdata s).
Proof.
  revert s; induction fuel as [|fuel IH]; intros s; simpl; auto.
  destruct (cursor s <? ntoas ddata)%nat; auto.
  destruct (dge (toa s) hi); auto.
  rewrite IH; simpl.
  destruct (dge (toa s) lo); auto using place_fdata_length.
Qed.

Lemma place_block_fdata_length ii s :
  length (fdata (place_block ii s)) = Z.to_nat C.
Proof.
  unfold place_block. rewrite place_toas_fdata_length. simpl.
  apply repeat_length.
Qed.

(** The lengths of the blocks written are the [numtowrite] of the
    loop, cut at the buffer length. *)
Lemma write_blocks_lengths n ii s :
  map (@length Z) (snd (write_blocks n ii s)) =
  map (fun k => Nat.min (Z.to_nat (numtowrite (ii + Z.of_nat k))) (Z.to_nat C))
      (seq 0 n).
Proof.
  revert ii s; induction n as [|n IH]; intros ii s; [reflexivity|].
  simpl.
  destruct (write_blocks n (ii + 1) (place_block ii s)) as [s2 rest] eqn:E.
  cbn [snd map seq]. f_equal.
  - unfold fwrite. rewrite length_firstn, place_block_fdata_length.
    now rewrite Z.add_0_r.
  - change rest with (snd (s2, rest)). rewrite <- E, IH.
    rewrite <- seq_shift, map_map.
    apply map_ext; intros k. do 3 f_equal. lia.
Qed.

End EngineFacts.

(** The fuel of [place_block] is enough: more of it changes nothing, the
    loop has stopped on its own test. *)
Lemma place_toas_fuel (C : Z) ddata stray dt fuel lo hi s :
  (ntoas ddata - cursor s <= fuel)%nat ->
  place_toas C ddata stray dt fuel lo hi s =
  place_toas C ddata stray dt (ntoas ddata - cursor s) lo hi s.
Proof.
  revert s; induction fuel as [|fuel IH]; intros s H.
  - now replace (ntoas ddata - cursor s)%nat with O by lia.
  - destruct (Nat.ltb_spec (cursor s) (ntoas ddata)) as [L|L].
    + replace (ntoas ddata - cursor s)%nat with (S (ntoas ddata - S (cursor s))) by lia.
      simpl. destruct (Nat.ltb_spec (cursor s) (ntoas ddata)); [|lia].
      destruct (dge (toa s) hi); [reflexivity|].
      destruct (dge (toa s) lo); apply IH; simpl; lia.
    + replace (ntoas ddata - cursor s)%nat with O by lia. simpl.
      destruct (Nat.ltb_spec (cursor s) (ntoas ddata)); [lia|reflexivity].
Qed.

(** ** The block schedule *)

Section Schedule.

Variable C numout : Z.
Hypothesis C_pos : 1 <= C.
Hypothesis numout_nonneg : 0 <= numout.

Lemma rem_is_mod : Z.rem numout C = numout mod C.
Proof. apply Z.rem_mod_nonneg; lia. Qed.

Lemma quot_is_div : Z.quot numout C = numout / C.
Proof. apply Z.quot_div_nonneg; lia. Qed.

Lemma numwrites_cases :
  numwrites C numout = if numout mod C =? 0 then numout / C else numout / C + 1.
Proof.
  unfold numwrites. rewrite rem_is_mod, quot_is_div.
  now destruct (numout mod C =? 0).
Qed.

Lemma numtowrite_bounds ii : 0 <= numtowrite C numout ii <= C.
Proof.
  unfold numtowrite. rewrite rem_is_mod.
  pose proof (Z.mod_pos_bound numout C ltac:(lia)).
  destruct (negb (numout mod C =? 0) && (ii =? numwrites C numout - 1)); lia.
Qed.

Lemma numtowrite_full ii :
  ii <> numout / C \/ numout mod C = 0 -> numtowrite C numout ii = C.
Proof.
  unfold numtowrite. rewrite numwrites_cases, rem_is_mod.
  destruct (Z.eqb_spec (numout mod C) 0) as [E|E]; simpl; [reflexivity|].
  intros [H|H]; [|contradiction].
  destruct (Z.eqb_spec ii (numout / C + 1 - 1)); [lia|reflexivity].
Qed.

Lemma numtowrite_last :
  numout mod C <> 0 -> numtowrite C numout (numout / C) = numout mod C.
Proof.
  intros H. unfold numtowrite. rewrite numwrites_cases, rem_is_mod.
  destruct (Z.eqb_spec (numout mod C) 0) as [E|E]; [contradiction|]. simpl.
  destruct (Z.eqb_spec (numout / C) (numout / C + 1 - 1)); [reflexivity|lia].
Qed.

Lemma full_blocks n :
  (n <= Z.to_nat (numout / C))%nat ->
  map (fun k => numtowrite C numout (Z.of_nat k)) (seq 0 n) = repeat C n.
Proof.
  pose proof (Z.div_pos numout C ltac:(lia) ltac:(lia)) as Hq.
  induction n as [|n IH]; intros Hn; [reflexivity|].
  rewrite seq_S, map_app, IH by lia. simpl map.
  rewrite numtowrite_full by (left; lia).
  replace (S n) with (n + 1)%nat by lia. now rewrite repeat_app.
Qed.

(** The values [numtowrite] takes over the [for] loop. *)
Lemma numtowrite_schedule :
  map (fun k => numtowrite C numout (Z.of_nat k))
      (seq 0 (Z.to_nat (numwrites C numout))) =
  repeat C (Z.to_nat (numout / C)) ++
  (if numout mod C =? 0 then [] else [numout mod C]).
Proof.
  pose proof (Z.div_pos numout C ltac:(lia) ltac:(lia)) as Hq.
  rewrite numwrites_cases.
  destruct (Z.eqb_spec (numout mod C) 0) as [E|E].
  - rewrite full_blocks by apply Nat.le_refl. now rewrite app_nil_r.
  - replace (Z.to_nat (numout / C + 1)) with (S (Z.to_nat (numout / C))) by lia.
    rewrite seq_S, map_app, full_blocks by apply Nat.le_refl. simpl.
    rewrite Z2Nat.id by lia. now rewrite numtowrite_last.
Qed.

Lemma sum_repeat (c : Z) (n : nat) (tl : list Z) :
  fold_right Z.add 0 (repeat c n ++ tl) = Z.of_nat n * c + fold_right Z.add 0 tl.
Proof.
  induction n as [|n IH]; [simpl; lia|].
  cbn [repeat app fold_right]. rewrite IH. lia.
Qed.

End Schedule.

Lemma ceil_div (C numout : Z) :
  1 <= C -> 0 <= numout ->
  (numout + C - 1) / C = if numout mod C =? 0 then numout / C else numout / C + 1.
Proof.
  intros HC Hn.
  pose proof (Z.div_mod numout C ltac:(lia)) as E.
  pose proof (Z.mod_pos_bound numout C ltac:(lia)) as B.
  destruct (Z.eqb_spec (numout mod C) 0) as [R|R]; symmetry.
  - apply Z.div_unique with (r := C - 1); lia.
  - apply Z.div_unique with (r := numout mod C - 1); lia.
Qed.

Lemma blocks_follow_schedule (C : Z) ddata stray dt numout :
  1 <= C -> 0 <= numout ->
  map (fun b => Z.of_nat (length b)) (snd (binning C ddata stray dt numout)) =
  map (fun k => numtowrite C numout (Z.of_nat k))
      (seq 0 (Z.to_nat (numwrites C numout))).
Proof.
  intros HC Hn. unfold binning.
  rewrite <- (map_map (@length Z) Z.of_nat), write_blocks_lengths, map_map.
  apply map_ext; intros k.
  pose proof (numtowrite_bounds C numout HC Hn (0 + Z.of_nat k)).
  rewrite Nat.min_l by lia. rewrite Z2Nat.id by lia. reflexivity.
Qed.

(** C6. Block length law: for every output length [numout >= 0] and
    buffer capacity [C >= 1], a sweep whose stores all fall inside the
    buffer writes [ceil (numout / C)] blocks, [numout / C] of them of
    length [C], followed, when the remainder [numout mod C] is not
    zero, by one block of that length; the lengths add up to
    [numout]. *)
Theorem block_length_law (C : Z) ddata stray dt numout :
  1 <= C -> 0 <= numout ->
  stores_ok C (fst (binning C ddata stray dt numout)) = true ->
  let lens := map (fun b => Z.of_nat (length b))
                  (snd (binning C ddata stray dt numout)) in
  lens = repeat C (Z.to_nat (numout / C)) ++
         (if numout mod C =? 0 then [] else [numout mod C])
  /\ Z.of_nat (length lens) = (numout + C - 1) / C
  /\ fold_right Z.add 0 lens = numout.
Proof.
  intros HC Hn _ lens.
  assert (E : lens = repeat C (Z.to_nat (numout / C)) ++
                     (if numout mod C =? 0 then [] else [numout mod C])).
  { unfold lens. rewrite blocks_follow_schedule by assumption.
    now apply numtowrite_schedule. }
  pose proof (Z.div_pos numout C ltac:(lia) ltac:(lia)) as Hq.
  pose proof (Z.div_mod numout C ltac:(lia)) as D.
  split; [exact E|]. rewrite E. split.
  - rewrite length_app, repeat_length, ceil_div by assumption.
    destruct (numout mod C =? 0); simpl; lia.
  - rewrite sum_repeat.
    destruct (Z.eqb_spec (numout mod C) 0) as [R|R]; simpl; lia.
Qed.

(** Scenario D: capacity 2 and five bins; the three stores are at the
    indices 0, 1 and 1. *)
Lemma block_length_law_witness :
  stores_ok 2 (fst (binning 2 [0.5; 1.5; 1.5; 0x1.3cccccccccccdp+3]%float
                            (fun _ => nan) 1%float 5)) = true
  /\ map (fun b => Z.of_nat (length b))
         (snd (binning 2 [0.5; 1.5; 1.5; 0x1.3cccccccccccdp+3]%float
                       (fun _ => nan) 1%float 5)) = [2; 2; 1].
Proof.
  split; [reflexivity|].
  exact (proj1 (block_length_law 2 [0.5; 1.5; 1.5; 0x1.3cccccccccccdp+3]%float
                 (fun _ => nan) 1%float 5 ltac:(lia) ltac:(lia) eq_refl)).
Defined.

(** ** Runs of the scenarios *)

(** The text file of the scenarios holds [scenario_toas]. *)
Lemma scenario_lines_load :
  read_toas scan_decimal
            (mkFILE (text_of_lines scenario_lines) (text_of_lines scenario_lines) false)
  = (4, scenario_toas).
Proof. vm_compute. reflexivity. Qed.

(** C1 as stated fails on its own example.  Scenario B on the program:
    TOAs 0.5, 1.5, 1.5 and 9.9 seconds from the explicit epoch 0,
    [dt = 1.0] and five bins.  The file written holds [1,2,0,0,0], and
    the run reports four TOAs placed, not three: the TOA at 9.9 lies
    beyond the five bins and still inside the time window of the
    65536-bin buffer, so it is counted (and stored at index 9 of the
    buffer, which is not written).  With the one TOA outside
    [[0, 5 * dt)] counted as dropped, [placed + dropped] is 5 while 4
    TOAs were found. *)
Lemma scenario_B_reports_four_placed :
  exists r,
    main scan_decimal (fun _ => nan) (text_seconds 0 1 5) (text_world scenario_lines)
    = Done r
    /\ series r = [1; 2; 0; 0; 0]
    /\ found r = 4
    /\ placed r = 4
    /\ placed r <> 3
    /\ bin_stores r = [Some 0; Some 1; Some 1; Some 9]
    /\ dropped 1 5 scenario_toas = 1
    /\ placed r + dropped 1 5 scenario_toas <> found r.
Proof.
  eexists. split; [vm_compute; reflexivity|].
  repeat split; try (vm_compute; congruence); vm_compute; reflexivity.
Qed.

(** C2. Neither [fopen] is checked.  When the TOA file does not open,
    the run does not end with an exit status: it goes on to read from
    the NULL stream.  The same holds when the TOA file opens and the
    output file does not. *)
Theorem unopened_files_are_used
  (sscanf_lf : list ascii -> option double) (stray : nat -> double) (cmd : Cmdline) :
  main sscanf_lf stray cmd (mkWorld (fun _ => None) (fun _ => true)) = Undefined
  /\ main scan_decimal stray (text_seconds 0 1 5)
          (mkWorld (files (text_world scenario_lines)) (fun _ => false)) = Undefined.
Proof.
  split; reflexivity.
Qed.

(** C3. One TOA at 49 seconds, bins of 49 seconds, two bins.  The grid
    has the TOA in its second bin [[49, 98)]; the program stores it at
    index 0, inside the buffer, and writes it in the first bin, so the
    blocks it writes are not the histogram of the grid. *)
Theorem boundary_toa_leaves_the_grid :
  stores (fst (binning WORKLEN [49%float] (fun _ => nan) 49 2)) = [Some 0]
  /\ concat (snd (binning WORKLEN [49%float] (fun _ => nan) 49 2)) = [1; 0]
  /\ grid_histogram 49 2 [49%float] = [0; 1]
  /\ concat (snd (binning WORKLEN [49%float] (fun _ => nan) 49 2))
     <> grid_histogram 49 2 [49%float].
Proof.
  repeat split; try (vm_compute; reflexivity).
  vm_compute. discriminate.
Qed.

(** Scenario D does agree with the grid: capacity 2 and capacity 65536
    both write the histogram of the scenario over five bins. *)
Lemma scenario_D_agrees (stray : nat -> double) :
  snd (binning 2 scenario_toas stray 1 5) = [[1; 2]; [0; 0]; [0]]
  /\ concat (snd (binning WORKLEN scenario_toas stray 1 5)) = [1; 2; 0; 0; 0]
  /\ grid_histogram 1 5 scenario_toas = [1; 2; 0; 0; 0].
Proof.
  repeat split; vm_compute; reflexivity.
Qed.

(** The written series depends on the capacity: with one bin per block
    the TOA at 49 seconds is counted in the second bin. *)
Lemma series_depends_on_capacity (stray : nat -> double) :
  concat (snd (binning 1 [49%float] stray 49 2)) = [0; 1]
  /\ concat (snd (binning 2 [49%float] stray 49 2)) = [1; 0].
Proof.
  split; vm_compute; reflexivity.
Qed.

(** C8. With [dt = 49] the offset [1 * dt = 49] is exact, and
    [(int) ((49 - 0) * (1.0 / 49))] is 0: the product rounds to the
    double below 1.  The TOA increments bin 0, the bin before its own. *)
Theorem tick_at_49_goes_to_bin_0 (stray : nat -> double) :
  PrimFloat.mul (double_of_long 1) 49 = 49%float
  /\ lotime WORKLEN 49 0 = 0%float
  /\ PrimFloat.mul 49 (dtfract 49) = 0x1.fffffffffffffp-1%float
  /\ bin_index 49 49 (lotime WORKLEN 49 0) = Some 0
  /\ concat (snd (binning WORKLEN [49%float] stray 49 2)) = [1; 0].
Proof.
  repeat split; vm_compute; reflexivity.
Qed.

(** C9. In scenario B the cursor is read at index 4 of an array of 4
    TOAs, after the last TOA has been placed; with no TOA at all, line
    263 reads index 0 of an array of none. *)
Theorem cursor_is_read_past_the_end (stray : nat -> double) :
  derefs (fst (binning WORKLEN scenario_toas stray 1 5)) = [0; 1; 2; 3; 4]%nat
  /\ nth_error scenario_toas 4 = None
  /\ derefs (fst (binning WORKLEN [] stray 1 3)) = [0%nat]
  /\ nth_error (@nil double) 0 = None.
Proof.
  repeat split; vm_compute; reflexivity.
Qed.

(** C10. With [dt] the double next to 0.9 and the TOA the double just
    below [65536 * dt], the TOA is inside the window of block 0 and
    [(int) ((toa - lotime) * dtfract)] is 65536: the store is one past
    the end of the 65536-element buffer. *)
Theorem bin_index_reaches_WORKLEN (stray : nat -> double) :
  dge below_block_end (lotime WORKLEN dt_09 0) = true
  /\ dlt below_block_end (hitime WORKLEN dt_09 0) = true
  /\ bin_index dt_09 below_block_end (lotime WORKLEN dt_09 0) = Some WORKLEN
  /\ stores (fst (binning WORKLEN [below_block_end] stray dt_09 65536)) = [Some 65536].
Proof.
  repeat split; vm_compute; reflexivity.
Qed.

(** ** No TOA at all *)

Lemma firstn_zeros (n m : nat) :
  (n <= m)%nat -> firstn n (repeat 0 m) = repeat 0 n.
Proof.
  revert m; induction n as [|n IH]; intros [|m] H; simpl; try reflexivity; try lia.
  f_equal. apply IH. lia.
Qed.

Lemma concat_zeros (lens : list Z) :
  Forall (fun n => 0 <= n) lens ->
  concat (map (fun n => repeat 0 (Z.to_nat n)) lens) =
  repeat 0 (Z.to_nat (fold_right Z.add 0 lens)).
Proof.
  induction 1 as [|n lens Hn Hl IH]; [reflexivity|].
  assert (0 <= fold_right Z.add 0 lens).
  { clear IH. induction Hl; simpl; lia. }
  simpl. rewrite IH, <- repeat_app. f_equal. lia.
Qed.

Lemma write_blocks_nil (C : Z) stray dt numout n ii s :
  1 <= C -> 0 <= numout ->
  let r := write_blocks C [] stray dt numout n ii s in
  numplaced (fst r) = numplaced s
  /\ stores (fst r) = stores s
  /\ derefs (fst r) = derefs s
  /\ snd r = map (fun k => repeat 0 (Z.to_nat (numtowrite C numout (ii + Z.of_nat k))))
                 (seq 0 n).
Proof.
  intros HC Hn. revert ii s; induction n as [|n IH]; intros ii s.
  - simpl. auto.
  - simpl. change (place_block C [] stray dt ii s) with (clear C s).
    specialize (IH (ii + 1) (clear C s)).
    destruct (write_blocks C [] stray dt numout n (ii + 1) (clear C s)) as [s2 rest].
    simpl in IH. destruct IH as (P & S & D & B). simpl.
    repeat split; try assumption. f_equal.
    + unfold fwrite. simpl. rewrite Z.add_0_r.
      pose proof (numtowrite_bounds C numout HC Hn ii).
      apply firstn_zeros. lia.
    + rewrite B, <- seq_shift, map_map.
      apply map_ext; intros k. do 3 f_equal. lia.
Qed.

Lemma binning_nil (C : Z) stray dt numout :
  1 <= C -> 0 <= numout ->
  let r := binning C [] stray dt numout in
  numplaced (fst r) = 0
  /\ stores (fst r) = []
  /\ concat (snd r) = repeat 0 (Z.to_nat numout).
Proof.
  intros HC Hn. unfold binning.
  destruct (write_blocks_nil C stray dt numout (Z.to_nat (numwrites C numout)) 0
              (sweep_init [] stray) HC Hn) as (P & S & _ & B).
  cbv zeta. rewrite P, S, B. repeat split.
  rewrite <- (map_map (fun k => numtowrite C numout (0 + Z.of_nat k))
                      (fun n => repeat 0 (Z.to_nat n))).
  rewrite concat_zeros.
  - do 2 f_equal. simpl. rewrite numtowrite_schedule by assumption.
    rewrite sum_repeat.
    pose proof (Z.div_pos numout C ltac:(lia) ltac:(lia)).
    pose proof (Z.div_mod numout C ltac:(lia)).
    destruct (Z.eqb_spec (numout mod C) 0); simpl; lia.
  - apply Forall_map, Forall_forall. intros k _.
    apply (numtowrite_bounds C numout HC Hn).
Qed.

(** C4. No TOA is not an error.  When the TOA file opens and holds no
    TOA (none parsed in text mode, no sample in binary mode), and the
    output file opens, the run ends with [exit(0)], the series written
    is [numout] zeros, no bin is touched and zero TOAs are reported
    placed. *)
Theorem empty_input_gives_zeros
  (sscanf_lf : list ascii -> option double) (stray : nat -> double)
  (cmd : Cmdline) (w : world) (infile : FILE) :
  fopen w (argv0 cmd) = Some infile ->
  load_toas sscanf_lf cmd infile = inl (0, []) ->
  can_create w (outfile cmd) = true ->
  0 <= numout cmd ->
  exists r,
    main sscanf_lf stray cmd w = Done r
    /\ exit_status (main sscanf_lf stray cmd w) = Some 0
    /\ found r = 0
    /\ placed r = 0
    /\ bin_stores r = []
    /\ series r = repeat 0 (Z.to_nat (numout cmd)).
Proof.
  intros Hin Hload Hout Hn. unfold main. rewrite Hin, Hload, Hout.
  change (normalise cmd stray []) with (@nil double).
  destruct (binning_nil WORKLEN stray (dt cmd) (numout cmd) ltac:(unfold WORKLEN; lia) Hn)
    as (P & S & B).
  destruct (binning WORKLEN [] stray (dt cmd) (numout cmd)) as [s blks].
  cbn [fst snd] in P, S, B. unfold stores_ok. rewrite S. cbn [forallb].
  eexists. split; [reflexivity|]. simpl in *. auto.
Qed.

(** Scenario C: a text file with a comment only, three bins. *)
Lemma empty_input_gives_zeros_witness :
  exists r,
    main scan_decimal (fun _ => nan) (text_seconds 0 1 3) (text_world ["# no TOA"%string])
    = Done r
    /\ exit_status (main scan_decimal (fun _ => nan) (text_seconds 0 1 3)
                         (text_world ["# no TOA"%string])) = Some 0
    /\ found r = 0
    /\ placed r = 0
    /\ bin_stores r = []
    /\ series r = [0; 0; 0].
Proof.
  exact (empty_input_gives_zeros scan_decimal (fun _ => nan) (text_seconds 0 1 3)
           (text_world ["# no TOA"%string]) _ eq_refl eq_refl eq_refl
           ltac:(simpl; lia)).
Defined.

(** ** The text loader *)

Lemma fgets_chars_line (l rest : list ascii) (n : nat) :
  ~ In newline l -> (length l < n)%nat ->
  fgets_chars n (l ++ newline :: rest) = (l ++ [newline], rest, false).
Proof.
  revert n; induction l as [|c l IH]; intros [|n] Hnl Hlen;
    cbn [length] in Hlen; try lia; cbn [fgets_chars app].
  - now rewrite Ascii.eqb_refl.
  - destruct (Ascii.eqb_spec c newline) as [E|E].
    + exfalso. apply Hnl. now left.
    + rewrite IH; [reflexivity| |lia]. intros H. apply Hnl. now right.
Qed.

Lemma first_is_app (c : ascii) (l tl : list ascii) :
  l <> [] -> first_is c (l ++ tl) = first_is c l.
Proof. destruct l; [congruence|reflexivity]. Qed.

Lemma string_length_chars (l : string) :
  String.length l = length (list_ascii_of_string l).
Proof. induction l; simpl; auto. Qed.

Lemma empty_string_chars (l : string) :
  String.eqb l EmptyString = true <-> list_ascii_of_string l = [].
Proof. destruct l; simpl; split; congruence. Qed.

Lemma text_of_lines_cons (l : string) (ls : list string) :
  text_of_lines (l :: ls) = list_ascii_of_string l ++ newline :: text_of_lines ls.
Proof. unfold text_of_lines. simpl. now rewrite <- app_assoc. Qed.

Lemma lines_le_chars (ls : list string) :
  (length ls <= length (text_of_lines ls))%nat.
Proof.
  induction ls as [|l ls IH]; [reflexivity|].
  rewrite text_of_lines_cons, length_app. simpl. lia.
Qed.

Lemma fgets_chars_length (n : nat) (l : list ascii) :
  let '(line, rest, _) := fgets_chars n l in
  length l = (length line + length rest)%nat.
Proof.
  revert l; induction n as [|n IH]; intros l; simpl; [reflexivity|].
  destruct l as [|c l]; [reflexivity|].
  destruct (Ascii.eqb c newline); [reflexivity|].
  specialize (IH l). destruct (fgets_chars n l) as [[line rest] e]. simpl. lia.
Qed.

(** The fuel of [read_pass] is enough: every line read shortens what is
    left of the file, and more fuel changes nothing. *)
Lemma read_lines_fuel (sscanf_lf : list ascii -> option double) (fuel1 fuel2 : nat) (f : FILE) :
  (length (unread f) < fuel1)%nat -> (length (unread f) < fuel2)%nat ->
  read_lines sscanf_lf fuel1 f = read_lines sscanf_lf fuel2 f.
Proof.
  revert fuel2 f; induction fuel1 as [|fuel1 IH]; intros [|fuel2] f H1 H2; try lia.
  cbn [read_lines]. unfold fgets.
  pose proof (fgets_chars_length (80 - 1) (unread f)) as L.
  destruct (fgets_chars (80 - 1) (unread f)) as [[line rest] e].
  destruct line as [|c line]; [reflexivity|].
  cbn [length] in L.
  rewrite (IH fuel2 (mkFILE (contents f) rest (at_eof f || e))) by (cbn [unread]; lia).
  reflexivity.
Qed.

Section LoaderFacts.

Variable sscanf_lf : list ascii -> option double.

(** One line that fits the buffer is one iteration of the loop. *)
Lemma read_lines_step (fuel : nat) (c : list ascii) (l : string) (ls : list string) :
  fits_buffer l ->
  read_lines sscanf_lf (S fuel) (mkFILE c (text_of_lines (l :: ls)) false) =
  if String.eqb l EmptyString then []
  else match line_toa sscanf_lf l with
       | Some x => x :: read_lines sscanf_lf fuel (mkFILE c (text_of_lines ls) false)
       | None => read_lines sscanf_lf fuel (mkFILE c (text_of_lines ls) false)
       end.
Proof.
  intros [Hlen Hnl]. rewrite string_length_chars in Hlen.
  rewrite text_of_lines_cons.
  cbn [read_lines]. unfold fgets. cbn [unread contents at_eof].
  change (80 - 1)%nat with 79%nat.
  rewrite fgets_chars_line by (auto; lia).
  destruct (String.eqb l EmptyString) eqn:E.
  - apply empty_string_chars in E. rewrite E. reflexivity.
  - assert (N : list_ascii_of_string l <> []).
    { intros H. apply empty_string_chars in H. congruence. }
    destruct (list_ascii_of_string l ++ [newline]) as [|a tl] eqn:A.
    { destruct (list_ascii_of_string l); discriminate. }
    rewrite <- A. cbn [orb negb at_eof andb].
    unfold toa_of_line, line_toa.
    rewrite !first_is_app by assumption.
    assert (F : first_is newline (list_ascii_of_string l) = false).
    { destruct (list_ascii_of_string l) as [|b m]; [congruence|]. simpl.
      destruct (Ascii.eqb_spec b newline); [|reflexivity].
      exfalso. apply Hnl. now left. }
    rewrite F. cbn [negb].
    destruct (first_is hash (list_ascii_of_string l)); cbn [negb].
    + reflexivity.
    + destruct (list_ascii_of_string l); [congruence|reflexivity].
Qed.

Lemma read_lines_text (ls : list string) :
  Forall fits_buffer ls ->
  forall fuel c, (length ls < fuel)%nat ->
  read_lines sscanf_lf fuel (mkFILE c (text_of_lines ls) false) =
  toas_of_lines sscanf_lf (before_blank ls).
Proof.
  induction 1 as [|l ls Hl Hls IH]; intros [|fuel] c Hf; simpl in Hf; try lia.
  - reflexivity.
  - rewrite read_lines_step by assumption. simpl.
    destruct (String.eqb l EmptyString); [reflexivity|]. simpl.
    rewrite IH by lia. reflexivity.
Qed.

End LoaderFacts.

(** C5, as amended.  For a text file whose lines all fit the line
    buffer, [read_toas] loads, in order, the lines in front of the first
    empty line that do not start with [#] and on which the scan
    succeeds; the count it returns is the number of TOAs loaded.  Lines
    after the first empty line are not read. *)
Theorem read_toas_loads_until_blank
  (sscanf_lf : list ascii -> option double) (ls : list string) :
  Forall fits_buffer ls ->
  let txt := text_of_lines ls in
  let toas := toas_of_lines sscanf_lf (before_blank ls) in
  read_toas sscanf_lf (mkFILE txt txt false) = (Z.of_nat (length toas), toas).
Proof.
  intros H txt toas. subst txt toas.
  unfold read_toas, read_pass, rewind. cbn [unread contents].
  pose proof (lines_le_chars ls).
  rewrite !read_lines_text by (auto; lia). reflexivity.
Qed.

Lemma scenario_lines_fit :
  Forall fits_buffer ["# TOAs"; "0.5"; " 1.5 s"; "nothing"; ""; "2.0"]%string.
Proof.
  repeat constructor; simpl; try lia;
    intros H; repeat (destruct H as [H|H]; [discriminate H|]); exact H.
Defined.

Lemma read_toas_loads_until_blank_witness :
  Forall fits_buffer ["# TOAs"; "0.5"; " 1.5 s"; "nothing"; ""; "2.0"]%string
  /\ (let txt := text_of_lines ["# TOAs"; "0.5"; " 1.5 s"; "nothing"; ""; "2.0"]%string in
      read_toas scan_decimal (mkFILE txt txt false) = (2, [0.5; 1.5]%float)).
Proof.
  split; [exact scenario_lines_fit|].
  exact (read_toas_loads_until_blank scan_decimal
           ["# TOAs"; "0.5"; " 1.5 s"; "nothing"; ""; "2.0"]%string scenario_lines_fit).
Defined.

(** C5 as stated fails: in the file with the lines [1.0], an empty line
    and [2.0], the last line does not start with [#], is not blank and
    scans as 2, and it is not loaded. *)
Lemma line_after_blank_is_lost :
  let txt := text_of_lines ["1.0"; ""; "2.0"]%string in
  line_toa scan_decimal "2.0" = Some 2%float
  /\ toas_of_lines scan_decimal ["1.0"; ""; "2.0"]%string = [1; 2]%float
  /\ read_toas scan_decimal (mkFILE txt txt false) = (1, [1%float])
  /\ snd (read_toas scan_decimal (mkFILE txt txt false))
     <> toas_of_lines scan_decimal ["1.0"; ""; "2.0"]%string.
Proof.
  repeat split; try (vm_compute; reflexivity).
  vm_compute. intros H. apply (f_equal (@length _)) in H. discriminate H.
Qed.

(** A last line without its newline is read together with the end of
    the file and dropped by the [feof] test. *)
Lemma unterminated_line_is_lost :
  let txt := text_of_lines ["1.5"]%string ++ list_ascii_of_string "2.5" in
  read_toas scan_decimal (mkFILE txt txt false) = (1, [1.5%float]).
Proof. vm_compute. reflexivity. Qed.

(** ** The binary loaders on examples *)

(** The doubles 1.0 and -2.0, the float 1.5, the smallest subnormal
    double and infinity, from their little-endian bytes. *)
Lemma decoded_samples :
  map double_of_bytes
      [map ascii_of_nat [0; 0; 0; 0; 0; 0; 240; 63]%nat;
       map ascii_of_nat [0; 0; 0; 0; 0; 0; 0; 192]%nat;
       map ascii_of_nat [1; 0; 0; 0; 0; 0; 0; 0]%nat;
       map ascii_of_nat [0; 0; 0; 0; 0; 0; 240; 127]%nat]
  = [1; -2; 0x1p-1074; infinity]%float
  /\ double_of_float_bytes (map ascii_of_nat [0; 0; 192; 63]%nat) = 1.5%float.
Proof. split; vm_compute; reflexivity. Qed.

(** A binary file of two doubles, 1.5 and 0.5 seconds, four bins of one
    second: both are found and placed. *)
Lemma binary_run (stray : nat -> double) :
  let bytes := map ascii_of_nat
                   [0; 0; 0; 0; 0; 0; 248; 63; 0; 0; 0; 0; 0; 0; 224; 63]%nat in
  let w := mkWorld (fun _ => Some bytes) (fun _ => true) in
  exists r,
    main scan_decimal stray (mkCmdline false false true true 0 1 4 "toas.bin" "series.dat") w
    = Done r
    /\ found r = 2 /\ placed r = 2 /\ series r = [1; 1; 0; 0].
Proof.
  eexists. split; [vm_compute; reflexivity|]. repeat split.
Qed.

(** The count that [main] passes on as [ntoas] is the length of the
    array it passes on, in every mode; the sweep can take its bound from
    the array. *)
Lemma loaded_count (sscanf_lf : list ascii -> option double) (cmd : Cmdline)
      (w : world) (name : string) (infile : FILE) (n : Z) (raw : list double) :
  fopen w name = Some infile ->
  load_toas sscanf_lf cmd infile = inl (n, raw) ->
  n = Z.of_nat (length raw).
Proof.
  unfold fopen, load_toas. destruct (files w name) as [bytes|]; [|discriminate].
  intros [= <-]. destruct (textP cmd).
  - unfold read_toas, rewind. cbn [contents]. now intros [= <- <-].
  - destruct (Z.eqb_spec
                (Z.of_nat (length (fread (Z.to_nat (if floatP cmd then 4 else 8))
                  (Z.to_nat (getfilelen (mkFILE bytes bytes false)
                                        (if floatP cmd then 4 else 8)))
                  (unread (mkFILE bytes bytes false)))))
                (getfilelen (mkFILE bytes bytes false) (if floatP cmd then 4 else 8)))
      as [E|E]; [|discriminate].
    intros [= <- <-]. now rewrite length_map.
Qed.

(** ** The order of the doubles *)

Lemma SFcompare_antisym (x y : spec_float) :
  SFcompare y x = option_map CompOpp (SFcompare x y).
Proof.
  destruct x as [sx|sx| |sx mx ex], y as [sy|sy| |sy my ey]; simpl;
    try reflexivity; try (destruct sx; reflexivity);
    try (destruct sy; reflexivity); try (destruct sx, sy; reflexivity).
  change (Pos.compare_cont Eq my mx) with (Pos.compare my mx).
  change (Pos.compare_cont Eq mx my) with (Pos.compare mx my).
  rewrite (Z.compare_antisym ex ey), (Pos.compare_antisym mx my).
  destruct sx, sy; simpl; try reflexivity;
    destruct (ex ?= ey); simpl; try reflexivity;
    destruct (mx ?= my)%positive; reflexivity.
Qed.

Lemma SFcompare_refl (x : spec_float) :
  x <> S754_nan -> SFcompare x x = Some Eq.
Proof.
  destruct x as [s|s| |s m e]; simpl; intros H; try congruence;
    try (destruct s; reflexivity).
  change (Pos.compare_cont Eq m m) with (Pos.compare m m).
  rewrite Z.compare_refl, Pos.compare_refl. destruct s; reflexivity.
Qed.

Lemma SFcompare_defined (x y : spec_float) :
  x <> S754_nan -> y <> S754_nan -> exists c, SFcompare x y = Some c.
Proof.
  destruct x, y; simpl; intros; try congruence; eauto.
Qed.

Lemma is_nan_spec (x : double) :
  PrimFloat.is_nan x = false <-> Prim2SF x <> S754_nan.
Proof.
  unfold PrimFloat.is_nan. rewrite eqb_spec. unfold SFeqb. split.
  - intros H E. rewrite E in H. discriminate H.
  - intros H. now rewrite SFcompare_refl.
Qed.

(** [!(y < x)] gives [x <= y] when neither is NaN. *)
Lemma not_ltb_leb (x y : double) :
  PrimFloat.is_nan x = false -> PrimFloat.is_nan y = false ->
  PrimFloat.ltb y x = false -> PrimFloat.leb x y = true.
Proof.
  rewrite !is_nan_spec, ltb_spec, leb_spec. unfold SFltb, SFleb.
  intros Hx Hy. rewrite (SFcompare_antisym (Prim2SF y) (Prim2SF x)).
  destruct (SFcompare_defined _ _ Hy Hx) as [c ->].
  destruct c; simpl; congruence.
Qed.

Lemma ltb_leb (x y : double) :
  PrimFloat.ltb x y = true -> PrimFloat.leb x y = true.
Proof.
  rewrite ltb_spec, leb_spec. unfold SFltb, SFleb.
  destruct (SFcompare (Prim2SF x) (Prim2SF y)) as [[]|]; congruence.
Qed.

Lemma ltb_asym (x y : double) :
  PrimFloat.ltb x y = true -> PrimFloat.ltb y x = false.
Proof.
  rewrite !ltb_spec. unfold SFltb.
  rewrite (SFcompare_antisym (Prim2SF x) (Prim2SF y)).
  destruct (SFcompare (Prim2SF x) (Prim2SF y)) as [[]|]; simpl; congruence.
Qed.

(** ** Sorting *)

Lemma qsort_insert_perm {A} (cmp : A -> A -> Z) (x : A) (l : list A) :
  Permutation (x :: l) (qsort_insert cmp x l).
Proof.
  induction l as [|y l IH]; simpl; [reflexivity|].
  destruct (cmp x y <=? 0); [reflexivity|].
  rewrite perm_swap. now constructor.
Qed.

Lemma qsort_perm {A} (cmp : A -> A -> Z) (l : list A) :
  Permutation l (qsort cmp l).
Proof.
  induction l as [|x l IH]; simpl; [reflexivity|].
  rewrite <- qsort_insert_perm. now constructor.
Qed.

Lemma compare_doubles_le (x y : double) :
  (compare_doubles x y <=? 0) = negb (PrimFloat.ltb y x).
Proof.
  unfold compare_doubles, dgt, dlt.
  destruct (PrimFloat.ltb y x) eqn:E.
  - now rewrite (ltb_asym y x E).
  - now destruct (PrimFloat.ltb x y).
Qed.

Lemma qsort_insert_sorted (x : double) (l : list double) :
  PrimFloat.is_nan x = false -> no_nan l ->
  Sorted le_double l -> Sorted le_double (qsort_insert compare_doubles x l).
Proof.
  intros Hx Hl Hs. induction Hs as [|y l Hs IH Hd]; simpl.
  - repeat constructor.
  - rewrite compare_doubles_le. inversion Hl as [|? ? Hy Hl']; subst.
    destruct (PrimFloat.ltb y x) eqn:E; simpl.
    + constructor; [now apply IH|].
      destruct l as [|z l]; simpl.
      * constructor. now apply ltb_leb.
      * rewrite compare_doubles_le.
        destruct (PrimFloat.ltb z x); simpl; constructor.
        -- now inversion Hd.
        -- now apply ltb_leb.
    + constructor; [now constructor|].
      constructor. now apply not_ltb_leb.
Qed.

(** On TOAs without NaN, [qsort] with [compare_doubles] sorts. *)
Lemma qsort_sorted (l : list double) :
  no_nan l -> Sorted le_double (qsort compare_doubles l).
Proof.
  induction 1 as [|x l Hx Hl IH]; simpl; [constructor|].
  apply qsort_insert_sorted; try assumption.
  unfold no_nan. rewrite <- (qsort_perm compare_doubles l). exact Hl.
Qed.

Lemma Sorted_ascending (l : list double) : Sorted le_double l -> ascending l.
Proof.
  induction 1 as [|x l Hs IH Hd]; intros i a b Ha Hb.
  - destruct i; discriminate.
  - destruct i as [|i]; simpl in Ha, Hb.
    + injection Ha as <-. destruct l as [|y l]; [discriminate|].
      injection Hb as <-. now inversion Hd.
    + exact (IH i a b Ha Hb).
Qed.

Lemma Sorted_map_monotone (f : double -> double) (l : list double) :
  (forall a b, In a l -> In b l -> le_double a b -> le_double (f a) (f b)) ->
  Sorted le_double l -> Sorted le_double (map f l).
Proof.
  intros Hf Hs. induction Hs as [|x l Hs IH Hd]; simpl; constructor.
  - apply IH. intros a b Ha Hb. apply Hf; now right.
  - destruct Hd as [|y l Hxy]; simpl; constructor.
    apply Hf; simpl; auto.
Qed.

(** ** IEEE rounding keeps the order

    The subtraction of the origin and the multiplication by 86400 are
    rounded operations.  This part shows that both keep the order of
    their first operand: [rnd] is monotone on the scaled values, the
    rounding of [spec_float] computes [rnd], the comparison of valid
    [spec_float]s is the comparison of their values, and the primitive
    operations are those of [spec_float]. *)

Lemma rne_bounds v k : v / 2 ^ k <= rne v k <= v / 2 ^ k + 1.
Proof.
  unfold rne. destruct (2 * (v mod 2 ^ k) ?= 2 ^ k); try lia.
  destruct (Z.even (v / 2 ^ k)); lia.
Qed.

Lemma rne_mono v v' k : 0 <= k -> v <= v' -> rne v k <= rne v' k.
Proof.
  intros Hk Hv.
  assert (P : 0 < 2 ^ k) by (apply Z.pow_pos_nonneg; lia).
  pose proof (Z.div_le_mono v v' (2 ^ k) P Hv) as Hq.
  destruct (Z.eq_dec (v / 2 ^ k) (v' / 2 ^ k)) as [E|E].
  - pose proof (Z.div_mod v (2 ^ k) ltac:(lia)) as D.
    pose proof (Z.div_mod v' (2 ^ k) ltac:(lia)) as D'.
    assert (R : v mod 2 ^ k <= v' mod 2 ^ k) by (rewrite E in D; lia).
    unfold rne. rewrite E.
    destruct (Z.compare_spec (2 * (v mod 2 ^ k)) (2 ^ k));
      destruct (Z.compare_spec (2 * (v' mod 2 ^ k)) (2 ^ k));
      try lia; destruct (Z.even (v' / 2 ^ k)); lia.
  - pose proof (rne_bounds v k). pose proof (rne_bounds v' k). lia.
Qed.

Lemma rexp_nonneg v : 0 <= rexp v.
Proof. unfold rexp, bias. lia. Qed.

Lemma rnd_mono v v' : 0 < v -> v <= v' -> rnd v <= rnd v'.
Proof.
  intros H0 Hv. unfold rnd.
  pose proof (rexp_nonneg v) as K. pose proof (rexp_nonneg v') as K'.
  assert (L : Z.log2 v <= Z.log2 v') by (apply Z.log2_le_mono; lia).
  assert (KK : rexp v <= rexp v') by (unfold rexp; lia).
  destruct (Z.eq_dec (rexp v) (rexp v')) as [E|E].
  - rewrite <- E. apply Z.mul_le_mono_nonneg_r.
    + apply Z.pow_nonneg; lia.
    + now apply rne_mono.
  - assert (N : rexp v' = Z.log2 v' - 52) by (unfold rexp in *; lia).
    assert (B : Z.log2 v - 52 <= rexp v) by (unfold rexp; lia).
    pose proof (Z.log2_spec v H0) as [_ U].
    pose proof (Z.log2_spec v' ltac:(lia)) as [L' _].
    (* upper bound for the smaller one *)
    assert (Q : v / 2 ^ rexp v < 2 ^ 53).
    { apply Z.div_lt_upper_bound; [apply Z.pow_pos_nonneg; lia|].
      rewrite <- Z.pow_add_r by lia.
      eapply Z.lt_le_trans; [exact U|]. apply Z.pow_le_mono_r; lia. }
    assert (Q' : 2 ^ 52 <= v' / 2 ^ rexp v').
    { apply Z.div_le_lower_bound; [apply Z.pow_pos_nonneg; lia|].
      rewrite <- Z.pow_add_r by lia.
      eapply Z.le_trans; [|exact L']. apply Z.pow_le_mono_r; lia. }
    pose proof (rne_bounds v (rexp v)). pose proof (rne_bounds v' (rexp v')).
    apply Z.le_trans with (2 ^ 53 * 2 ^ rexp v).
    + apply Z.mul_le_mono_nonneg_r; [apply Z.pow_nonneg; lia|lia].
    + apply Z.le_trans with (2 ^ 52 * 2 ^ rexp v').
      * rewrite <- !Z.pow_add_r by lia. apply Z.pow_le_mono_r; lia.
      * apply Z.mul_le_mono_nonneg_r; [apply Z.pow_nonneg; lia|lia].
Qed.

(** *** The right shift of [spec_float] *)

Lemma iter_pos_nat {A} (f : A -> A) (p : positive) (x : A) :
  iter_pos f p x = Nat.iter (Pos.to_nat p) f x.
Proof.
  revert x; induction p as [p IH|p IH|]; intros x; cbn [iter_pos].
  - rewrite !IH, Pos2Nat.inj_xI.
    rewrite <- Nat.iter_succ_r, <- Nat.iter_add. f_equal. lia.
  - rewrite !IH, Pos2Nat.inj_xO. rewrite <- Nat.iter_add. f_equal. lia.
  - reflexivity.
Qed.

Lemma shr_1_spec (m : Z) (r s : bool) :
  0 <= m ->
  shr_1 (Build_shr_record m r s) = Build_shr_record (Z.div2 m) (Z.odd m) (r || s).
Proof.
  intros H. destruct m as [|[p|p|]|p]; try reflexivity. lia.
Qed.

Lemma low_bits (m n : Z) :
  0 <= n ->
  m mod 2 ^ (n + 1) = m mod 2 ^ n + 2 ^ n * Z.b2z (Z.testbit m n).
Proof.
  intros Hn. rewrite Z.pow_add_r by lia. change (2 ^ 1) with 2.
  rewrite Z.rem_mul_r by (try apply Z.pow_nonzero; lia).
  rewrite Z.testbit_spec' by lia. reflexivity.
Qed.

(** After [n + 1] single shifts the record holds the quotient by
    [2^(n+1)], the last bit shifted out, and whether a lower one was set. *)
Lemma shr_iter (n : nat) (m : Z) :
  0 <= m ->
  Nat.iter (S n) shr_1 (Build_shr_record m false false) =
  Build_shr_record (m / 2 ^ Z.of_nat (S n)) (Z.testbit m (Z.of_nat n))
                   (negb (m mod 2 ^ Z.of_nat n =? 0)).
Proof.
  intros Hm. induction n as [|n IH].
  - unfold Nat.iter; cbn [nat_rect]. rewrite shr_1_spec by assumption.
    rewrite Z.div2_div, Z.bit0_odd. simpl Z.of_nat.
    change (2 ^ 1) with 2. change (2 ^ 0) with 1. now rewrite Z.mod_1_r.
  - rewrite Nat.iter_succ, IH.
    assert (P : 0 < 2 ^ Z.of_nat (S n)) by (apply Z.pow_pos_nonneg; lia).
    rewrite shr_1_spec by (apply Z.div_pos; lia).
    rewrite Z.div2_div, Z.div_div by lia.
    replace (2 ^ Z.of_nat (S n) * 2) with (2 ^ Z.of_nat (S (S n)))
      by (rewrite (Nat2Z.inj_succ (S n)), Z.pow_succ_r; lia).
    f_equal.
    + rewrite Z.testbit_odd, Z.shiftr_div_pow2 by lia. reflexivity.
    + replace (Z.of_nat (S n)) with (Z.of_nat n + 1) by lia.
      rewrite low_bits by lia.
      pose proof (Z.mod_pos_bound m (2 ^ Z.of_nat n) ltac:(apply Z.pow_pos_nonneg; lia)).
      assert (0 < 2 ^ Z.of_nat n) by (apply Z.pow_pos_nonneg; lia).
      destruct (Z.testbit m (Z.of_nat n)); cbn [Z.b2z];
        destruct (Z.eqb_spec (m mod 2 ^ Z.of_nat n) 0);
        match goal with
        | |- _ = negb (?a =? 0) => destruct (Z.eqb_spec a 0)
        end; cbn [negb orb]; try reflexivity; lia.
Qed.

(** Shifting right by [n] and rounding to nearest even. *)
Lemma shr_round (m e n : Z) :
  0 <= m -> 0 <= n ->
  let '(mrs, e') := shr (shr_record_of_loc m loc_Exact) e n in
  round_nearest_even (shr_m mrs) (loc_of_shr_record mrs) = rne m n /\ e' = e + n.
Proof.
  intros Hm Hn. destruct n as [|p|p]; [| |lia].
  - simpl. split; [|lia]. unfold rne. change (2 ^ 0) with 1.
    rewrite Z.mod_1_r, Z.div_1_r. reflexivity.
  - cbn [shr shr_record_of_loc]. split; [|reflexivity].
    rewrite iter_pos_nat.
    destruct (Pos2Nat.is_succ p) as [k Hk]. rewrite Hk, shr_iter by assumption.
    assert (Ek : Z.pos p = Z.of_nat k + 1) by lia.
    cbn [shr_m]. rewrite <- Hk, positive_nat_Z.
    unfold rne. rewrite Ek, low_bits by lia.
    pose proof (Z.mod_pos_bound m (2 ^ Z.of_nat k) ltac:(apply Z.pow_pos_nonneg; lia)).
    rewrite Z.pow_add_r by lia. change (2 ^ 1) with 2.
    destruct (Z.testbit m (Z.of_nat k)); simpl Z.b2z;
      destruct (Z.eqb_spec (m mod 2 ^ Z.of_nat k) 0) as [E|E]; cbn [negb loc_of_shr_record round_nearest_even].
    + replace (2 * (m mod 2 ^ Z.of_nat k + 2 ^ Z.of_nat k * 1) ?= 2 ^ Z.of_nat k * 2) with Eq
        by (symmetry; apply Z.compare_eq_iff; lia). reflexivity.
    + replace (2 * (m mod 2 ^ Z.of_nat k + 2 ^ Z.of_nat k * 1) ?= 2 ^ Z.of_nat k * 2) with Gt
        by (symmetry; apply Z.compare_gt_iff; lia). reflexivity.
    + replace (2 * (m mod 2 ^ Z.of_nat k + 2 ^ Z.of_nat k * 0) ?= 2 ^ Z.of_nat k * 2) with Lt
        by (symmetry; apply Z.compare_lt_iff; lia). reflexivity.
    + replace (2 * (m mod 2 ^ Z.of_nat k + 2 ^ Z.of_nat k * 0) ?= 2 ^ Z.of_nat k * 2) with Lt
        by (symmetry; apply Z.compare_lt_iff; lia). reflexivity.
Qed.

(** *** The value of a rounded result *)

Lemma digits2_size (p : positive) : digits2_pos p = Pos.size p.
Proof. induction p; simpl; congruence. Qed.

Lemma digits_log2 (p : positive) : Z.pos (digits2_pos p) = Z.log2 (Z.pos p) + 1.
Proof.
  rewrite digits2_size. destruct p; simpl; try reflexivity;
    rewrite Pos2Z.inj_succ; lia.
Qed.

Lemma fexp_eq (e : Z) : fexp prec emax e = Z.max (e - 53) (-1074).
Proof. reflexivity. Qed.

Lemma pow2_pos (k : Z) : 0 <= k -> 0 < 2 ^ k.
Proof. intros; apply Z.pow_pos_nonneg; lia. Qed.

Lemma top_eq (a b : Z) : a + b = 1024 + bias -> 0 <= a -> 0 <= b -> 2 ^ a * 2 ^ b = top.
Proof. intros E Ha Hb. unfold top. rewrite <- E, Z.pow_add_r by lia. reflexivity. Qed.

Lemma shr_nonpos (mrs : shr_record) (e n : Z) : n <= 0 -> shr mrs e n = (mrs, e).
Proof. destruct n; try reflexivity. lia. Qed.

Lemma min_top_small (m e : Z) :
  0 <= m < 2 ^ 53 -> - bias <= e <= 971 -> Z.min top (m * 2 ^ (e + bias)) = m * 2 ^ (e + bias).
Proof.
  intros Hm He. apply Z.min_r.
  rewrite <- (top_eq 53 (971 + bias)) by (unfold bias; lia).
  apply Z.mul_le_mono_nonneg;
    [lia | lia | apply Z.pow_nonneg; lia | apply Z.pow_le_mono_r; unfold bias; lia].
Qed.

Lemma min_top_large (m e : Z) :
  2 ^ 52 <= m -> 972 <= e -> Z.min top (m * 2 ^ (e + bias)) = top.
Proof.
  intros Hm He. apply Z.min_l.
  rewrite <- (top_eq 52 (972 + bias)) by (unfold bias; lia).
  apply Z.mul_le_mono_nonneg;
    [lia | lia | apply Z.pow_nonneg; unfold bias; lia | apply Z.pow_le_mono_r; unfold bias; lia].
Qed.

(** The second alignment of [binary_round_aux] and its overflow test. *)
Lemma finish_round (s : bool) (m1 e1 : Z) :
  0 <= m1 <= 2 ^ 53 -> -1074 <= e1 -> (-1074 < e1 -> 2 ^ 52 <= m1) ->
  xval (let '(mrs, e2) := shr_fexp prec emax m1 e1 loc_Exact in
        match shr_m mrs with
        | Z0 => S754_zero s
        | Z.pos m => if e2 <=? emax - prec then S754_finite s m e2 else S754_infinity s
        | Z.neg _ => S754_nan
        end) = Some (signed s (Z.min top (m1 * 2 ^ (e1 + bias)))).
Proof.
  intros Hm He Hn. unfold shr_fexp.
  change (emax - prec) with 971.
  destruct m1 as [|p|p]; [| |lia].
  - (* zero *)
    cbn [Zdigits2]. rewrite fexp_eq, shr_nonpos by lia.
    cbn [shr_record_of_loc shr_m xval]. rewrite Z.mul_0_l.
    rewrite Z.min_r by (unfold top; apply Z.pow_nonneg; lia).
    destruct s; reflexivity.
  - cbn [Zdigits2]. rewrite digits_log2, fexp_eq.
    pose proof (Z.log2_spec (Z.pos p) ltac:(lia)) as [L U].
    destruct (Z.eq_dec (Z.pos p) (2 ^ 53)) as [E|E].
    + (* the mantissa reached 2^53 *)
      rewrite E. change (Z.log2 (2 ^ 53)) with 53.
      replace (Z.max (53 + 1 + e1 - 53) (-1074) - e1) with 1 by lia.
      cbn [shr shr_record_of_loc iter_pos]. rewrite shr_1_spec by lia.
      change (Z.div2 (2 ^ 53)) with (Z.pos (2 ^ 52)). cbn [shr_m].
      replace (2 ^ 53 * 2 ^ (e1 + bias)) with (2 ^ 52 * 2 ^ (e1 + 1 + bias)).
      2:{ replace (e1 + 1 + bias) with (1 + (e1 + bias)) by lia.
          rewrite Z.pow_add_r by (unfold bias; lia).
          change (2 ^ 53) with (2 ^ 52 * 2 ^ 1). lia. }
      destruct (Z.leb_spec (e1 + 1) 971) as [O|O]; cbn [xval]; do 2 f_equal.
      * change (Z.pos (2 ^ 52)) with (2 ^ 52).
        symmetry. apply min_top_small; unfold bias; lia.
      * symmetry. apply min_top_large; lia.
    + assert (Hp : Z.pos p < 2 ^ 53) by lia.
      assert (Hl : Z.log2 (Z.pos p) < 53) by (apply Z.log2_lt_pow2; lia).
      rewrite shr_nonpos by lia.
      cbn [shr_record_of_loc shr_m].
      destruct (Z.leb_spec e1 971) as [O|O]; cbn [xval]; do 2 f_equal; symmetry.
      * apply min_top_small; unfold bias; lia.
      * apply min_top_large; lia.
Qed.

Lemma rne_scaled (m n c : Z) :
  0 <= n -> 0 <= c -> rne (m * 2 ^ c) (n + c) = rne m n.
Proof.
  intros Hn Hc. unfold rne.
  pose proof (pow2_pos n Hn). pose proof (pow2_pos c Hc).
  rewrite Z.pow_add_r by lia.
  rewrite Z.div_mul_cancel_r by lia.
  rewrite Z.mul_mod_distr_r by lia.
  rewrite Z.mul_assoc, <- Zmult_compare_compat_r by lia.
  reflexivity.
Qed.

Lemma rnd_scaled (m e : Z) :
  0 < m -> - bias <= e ->
  let n := Z.max (Z.log2 m + 1 + e - 53) (-1074) - e in
  0 <= n ->
  rnd (m * 2 ^ (e + bias)) = rne m n * 2 ^ (e + n + bias).
Proof.
  intros Hm He n Hn. unfold rnd.
  assert (R : rexp (m * 2 ^ (e + bias)) = n + (e + bias)).
  { unfold rexp. rewrite Z.log2_mul_pow2 by lia. unfold n, bias. lia. }
  rewrite R, rne_scaled by lia. do 2 f_equal. lia.
Qed.

(** The value of a correctly aligned [binary_round_aux]. *)
Lemma round_aux_xval (s : bool) (p : positive) (e : Z) :
  0 <= fexp prec emax (Z.pos (digits2_pos p) + e) - e -> - bias <= e ->
  xval (binary_round_aux prec emax s (Z.pos p) e loc_Exact) =
  Some (signed s (Z.min top (rnd (Z.pos p * 2 ^ (e + bias))))).
Proof.
  intros Hn He. unfold binary_round_aux. unfold shr_fexp at 1. cbn [Zdigits2].
  revert Hn. rewrite digits_log2, fexp_eq. intros Hn.
  set (n := Z.max (Z.log2 (Z.pos p) + 1 + e - 53) (-1074) - e) in *.
  pose proof (shr_round (Z.pos p) e n ltac:(lia) Hn) as SR.
  destruct (shr (shr_record_of_loc (Z.pos p) loc_Exact) e n) as [mrs e1].
  destruct SR as [-> ->].
  rewrite rnd_scaled by (fold n; lia). fold n.
  pose proof (Z.log2_spec (Z.pos p) ltac:(lia)) as [L U].
  pose proof (rne_bounds (Z.pos p) n) as B.
  pose proof (pow2_pos n Hn) as Pn.
  apply finish_round.
  - split.
    + pose proof (Z.div_pos (Z.pos p) (2 ^ n) ltac:(lia) Pn). lia.
    + assert (Z.pos p / 2 ^ n < 2 ^ 53); [|lia].
      apply Z.div_lt_upper_bound; [lia|].
      rewrite <- Z.pow_add_r by lia.
      eapply Z.lt_le_trans; [exact U|]. apply Z.pow_le_mono_r; lia.
  - lia.
  - intros N. assert (2 ^ 52 <= Z.pos p / 2 ^ n); [|lia].
    apply Z.div_le_lower_bound; [lia|].
    rewrite <- Z.pow_add_r by lia.
    eapply Z.le_trans; [|exact L]. apply Z.pow_le_mono_r; lia.
Qed.

(** *** Rounding with a sign *)

Lemma top_pos : 0 < top.
Proof. unfold top, bias. apply Z.pow_pos_nonneg; lia. Qed.

Lemma rnd_nonneg (v : Z) : 0 <= v -> 0 <= rnd v.
Proof.
  intros H. unfold rnd.
  pose proof (rexp_nonneg v). pose proof (pow2_pos (rexp v) ltac:(lia)).
  pose proof (rne_bounds v (rexp v)).
  pose proof (Z.div_pos v (2 ^ rexp v) H ltac:(lia)).
  apply Z.mul_nonneg_nonneg; lia.
Qed.

Lemma round_ext_pos (v : Z) : 0 < v -> round_ext v = Z.min top (rnd v).
Proof. destruct v; try lia; reflexivity. Qed.

Lemma round_ext_neg (v : Z) : v < 0 -> round_ext v = - Z.min top (rnd (- v)).
Proof. destruct v; try lia; reflexivity. Qed.

Lemma round_ext_bounds (v : Z) : - top <= round_ext v <= top.
Proof.
  pose proof top_pos.
  destruct (Z.lt_trichotomy v 0) as [N|[->|P]].
  - rewrite round_ext_neg by assumption.
    pose proof (rnd_nonneg (- v) ltac:(lia)). lia.
  - simpl. lia.
  - rewrite round_ext_pos by assumption. pose proof (rnd_nonneg v ltac:(lia)). lia.
Qed.

Lemma round_ext_mono (v v' : Z) : v <= v' -> round_ext v <= round_ext v'.
Proof.
  intros H. pose proof top_pos.
  destruct (Z.lt_trichotomy v 0) as [N|[->|P]];
    destruct (Z.lt_trichotomy v' 0) as [N'|[->|P']]; try lia.
  - rewrite (round_ext_neg v), (round_ext_neg v') by assumption.
    pose proof (rnd_mono (- v') (- v) ltac:(lia) ltac:(lia)). lia.
  - rewrite (round_ext_neg v) by assumption. simpl round_ext.
    pose proof (rnd_nonneg (- v) ltac:(lia)). lia.
  - rewrite (round_ext_neg v), (round_ext_pos v') by assumption.
    pose proof (rnd_nonneg (- v) ltac:(lia)).
    pose proof (rnd_nonneg v' ltac:(lia)). lia.
  - rewrite (round_ext_pos v') by assumption. simpl round_ext.
    pose proof (rnd_nonneg v' ltac:(lia)). lia.
  - rewrite (round_ext_pos v), (round_ext_pos v') by assumption.
    pose proof (rnd_mono v v' ltac:(lia) ltac:(lia)). lia.
Qed.

Lemma iter_xO (m d : positive) : Z.pos (Pos.iter xO m d) = Z.pos m * 2 ^ Z.pos d.
Proof.
  induction d as [|d IH] using Pos.peano_ind.
  - simpl. lia.
  - rewrite Pos.iter_succ, Pos2Z.inj_xO, IH, Pos2Z.inj_succ, Z.pow_succ_r; lia.
Qed.

(** [shl_align] keeps the value. *)
Lemma shl_align_value (m : positive) (e e' : Z) :
  e' <= e -> Z.pos (fst (shl_align m e e')) = Z.pos m * 2 ^ (e - e').
Proof.
  intros H. unfold shl_align.
  destruct (e' - e) as [|d|d] eqn:E; try lia; cbn [fst].
  - replace (e - e') with 0 by lia. lia.
  - rewrite iter_xO. do 2 f_equal. lia.
Qed.

Lemma binary_round_xval (s : bool) (p : positive) (e : Z) :
  - bias <= e ->
  xval (binary_round prec emax s p e) =
  Some (signed s (Z.min top (rnd (Z.pos p * 2 ^ (e + bias))))).
Proof.
  intros He. unfold binary_round, shl_align.
  rewrite digits_log2, fexp_eq.
  destruct (Z.max (Z.log2 (Z.pos p) + 1 + e - 53) (-1074) - e) as [|d|d] eqn:E.
  - apply round_aux_xval; [rewrite digits_log2, fexp_eq|]; lia.
  - apply round_aux_xval; [rewrite digits_log2, fexp_eq|]; lia.
  - assert (V : Z.pos (Pos.iter xO p d) * 2 ^ (Z.max (Z.log2 (Z.pos p) + 1 + e - 53) (-1074) + bias)
                = Z.pos p * 2 ^ (e + bias)).
    { rewrite iter_xO, <- Z.mul_assoc, <- Z.pow_add_r by (unfold bias; lia).
      do 2 f_equal. lia. }
    rewrite <- V. apply round_aux_xval; [|unfold bias; lia].
    rewrite digits_log2, fexp_eq, iter_xO, Z.log2_mul_pow2 by lia. lia.
Qed.

Lemma binary_normalize_xval (m e : Z) (sz : bool) :
  - bias <= e ->
  xval (binary_normalize prec emax m e sz) = Some (round_ext (m * 2 ^ (e + bias))).
Proof.
  intros He. pose proof (pow2_pos (e + bias) ltac:(lia)) as P.
  destruct m as [|p|p]; cbn [binary_normalize].
  - reflexivity.
  - rewrite binary_round_xval by assumption.
    rewrite round_ext_pos by lia. reflexivity.
  - rewrite binary_round_xval by assumption.
    rewrite round_ext_neg by lia. cbn [signed].
    replace (- (Z.neg p * 2 ^ (e + bias))) with (Z.pos p * 2 ^ (e + bias)) by lia.
    reflexivity.
Qed.

(** *** Values and comparison *)

(** What [bounded] says of a mantissa and an exponent. *)
Lemma bounded_spec (m : positive) (e : Z) :
  bounded prec emax m e = true ->
  Z.max (Z.log2 (Z.pos m) + 1 + e - 53) (-1074) = e /\ e <= 971.
Proof.
  unfold bounded, canonical_mantissa. rewrite digits_log2, fexp_eq.
  intros H. apply andb_prop in H as [H1 H2].
  apply Z.eqb_eq in H1. apply Z.leb_le in H2. change (emax - prec) with 971 in H2.
  auto.
Qed.

Lemma bounded_range (m : positive) (e : Z) :
  bounded prec emax m e = true ->
  -1074 <= e <= 971 /\ Z.pos m < 2 ^ 53 /\ (-1074 < e -> 2 ^ 52 <= Z.pos m).
Proof.
  intros H. apply bounded_spec in H as [C E].
  pose proof (Z.log2_spec (Z.pos m) ltac:(lia)) as [L U].
  repeat split; try lia.
  - apply Z.log2_lt_pow2; lia.
  - intros N. eapply Z.le_trans; [|exact L]. apply Z.pow_le_mono_r; lia.
Qed.

Lemma finite_value_range (m : positive) (e : Z) :
  bounded prec emax m e = true -> 0 < Z.pos m * 2 ^ (e + bias) < top.
Proof.
  intros H. apply bounded_range in H as (E & M & _).
  pose proof (pow2_pos (e + bias) ltac:(unfold bias; lia)).
  split; [lia|].
  rewrite <- (top_eq 53 (971 + bias)) by (unfold bias; lia).
  apply Z.lt_le_trans with (2 ^ 53 * 2 ^ (e + bias)).
  - apply Z.mul_lt_mono_pos_r; lia.
  - apply Z.mul_le_mono_nonneg_l; [lia|].
    apply Z.pow_le_mono_r; unfold bias; lia.
Qed.

(** Between canonical numbers the exponent decides. *)
Lemma canonical_lt (m1 m2 : positive) (e1 e2 : Z) :
  bounded prec emax m1 e1 = true -> bounded prec emax m2 e2 = true ->
  e1 < e2 -> Z.pos m1 * 2 ^ (e1 + bias) < Z.pos m2 * 2 ^ (e2 + bias).
Proof.
  intros H1 H2 E.
  apply bounded_range in H1 as (E1 & M1 & _).
  apply bounded_range in H2 as (E2 & _ & M2).
  specialize (M2 ltac:(lia)).
  pose proof (pow2_pos (e1 + bias) ltac:(unfold bias; lia)).
  apply Z.lt_le_trans with (2 ^ 53 * 2 ^ (e1 + bias)).
  - apply Z.mul_lt_mono_pos_r; lia.
  - apply Z.le_trans with (2 ^ 52 * 2 ^ (e2 + bias)).
    + rewrite <- !Z.pow_add_r by (unfold bias; lia).
      apply Z.pow_le_mono_r; lia.
    + apply Z.mul_le_mono_nonneg_r; [|lia].
      apply Z.pow_nonneg; lia.
Qed.

Lemma some_inj {A} (a b : A) : Some a = Some b -> a = b.
Proof. congruence. Qed.

(** [SFcompare] is the comparison of the values. *)
Lemma compare_xval (a b : spec_float) (va vb : Z) :
  valid_binary a = true -> valid_binary b = true ->
  xval a = Some va -> xval b = Some vb ->
  SFcompare a b = Some (va ?= vb).
Proof.
  pose proof top_pos as T.
  intros Ha Hb Xa Xb.
  destruct a as [sa|sa| |sa ma ea], b as [sb|sb| |sb mb eb];
    unfold xval in Xa, Xb; try discriminate;
    apply some_inj in Xa, Xb; subst va vb; unfold valid_binary in Ha, Hb;
    try pose proof (finite_value_range _ _ Ha) as Ra;
    try pose proof (finite_value_range _ _ Hb) as Rb;
    unfold SFcompare; f_equal; symmetry.
  - destruct sb; cbn [signed]; [apply Z.compare_gt_iff|apply Z.compare_lt_iff]; lia.
  - destruct sb; cbn [signed]; [apply Z.compare_gt_iff|apply Z.compare_lt_iff]; lia.
  - destruct sa; cbn [signed]; [apply Z.compare_lt_iff|apply Z.compare_gt_iff]; lia.
  - destruct sa, sb; cbn [signed];
      [apply Z.compare_eq_iff|apply Z.compare_lt_iff|apply Z.compare_gt_iff|apply Z.compare_eq_iff]; lia.
  - destruct sa; cbn [signed]; [apply Z.compare_lt_iff|apply Z.compare_gt_iff];
      destruct sb; cbn [signed]; lia.
  - destruct sa; cbn [signed]; [apply Z.compare_lt_iff|apply Z.compare_gt_iff]; lia.
  - destruct sb; cbn [signed]; [apply Z.compare_gt_iff|apply Z.compare_lt_iff];
      destruct sa; cbn [signed]; lia.
  - change (Pos.compare_cont Eq ma mb) with (Z.pos ma ?= Z.pos mb).
    pose proof (pow2_pos (ea + bias)) as Pa.
    destruct sa, sb; cbn [signed].
    + destruct (Z.compare_spec ea eb) as [E|E|E].
      * subst eb. specialize (Pa ltac:(unfold bias; apply bounded_range in Ha; lia)).
        rewrite Z.compare_opp, <- Zmult_compare_compat_r by lia.
        apply Z.compare_antisym.
      * apply Z.compare_gt_iff. pose proof (canonical_lt _ _ _ _ Ha Hb E). lia.
      * apply Z.compare_lt_iff. pose proof (canonical_lt _ _ _ _ Hb Ha E). lia.
    + apply Z.compare_lt_iff. lia.
    + apply Z.compare_gt_iff. lia.
    + destruct (Z.compare_spec ea eb) as [E|E|E].
      * subst eb. specialize (Pa ltac:(unfold bias; apply bounded_range in Ha; lia)).
        rewrite <- Zmult_compare_compat_r by lia. reflexivity.
      * apply Z.compare_lt_iff. exact (canonical_lt _ _ _ _ Ha Hb E).
      * apply Z.compare_gt_iff. exact (canonical_lt _ _ _ _ Hb Ha E).
Qed.

(** *** Subtraction and multiplication *)

Lemma rne_zero (m : Z) : rne m 0 = m.
Proof.
  unfold rne. change (2 ^ 0) with 1. now rewrite Z.mod_1_r, Z.div_1_r.
Qed.

(** Rounding leaves the value of a double alone. *)
Lemma round_exact (s : bool) (m : positive) (e : Z) :
  bounded prec emax m e = true ->
  round_ext (signed s (Z.pos m * 2 ^ (e + bias))) = signed s (Z.pos m * 2 ^ (e + bias)).
Proof.
  intros H. pose proof (finite_value_range m e H) as R.
  pose proof (bounded_spec m e H) as [C E].
  assert (X : Z.min top (rnd (Z.pos m * 2 ^ (e + bias))) = Z.pos m * 2 ^ (e + bias)).
  { rewrite rnd_scaled by (unfold bias; lia).
    replace (Z.max (Z.log2 (Z.pos m) + 1 + e - 53) (-1074) - e) with 0 by lia.
    rewrite rne_zero, Z.add_0_r. lia. }
  destruct s; cbn [signed].
  - rewrite round_ext_neg by lia. rewrite Z.opp_involutive. now rewrite X.
  - rewrite round_ext_pos by lia. exact X.
Qed.

Lemma signed_negb (s : bool) (z : Z) : signed (negb s) z = - signed s z.
Proof. destruct s; simpl; lia. Qed.

Lemma cond_Zopp_signed (s : bool) (z : Z) : cond_Zopp s z = signed s z.
Proof. reflexivity. Qed.

Lemma signed_mul (s : bool) (a b : Z) : signed s a * b = signed s (a * b).
Proof. destruct s; simpl; lia. Qed.

(** The value of a difference of finite doubles. *)
Lemma sub_xval (X C : spec_float) (vx vc : Z) :
  valid_binary X = true -> valid_binary C = true ->
  fin X = true -> fin C = true ->
  xval X = Some vx -> xval C = Some vc ->
  xval (SF64sub X C) = Some (round_ext (vx - vc)).
Proof.
  intros HX HC FX FC EX EC.
  destruct X as [sx|sx| |sx mx ex], C as [sc|sc| |sc mc ec]; try discriminate;
    unfold xval in EX, EC; apply some_inj in EX, EC; subst vx vc;
    unfold valid_binary in HX, HC; unfold SF64sub, SFsub.
  - destruct sx, sc; reflexivity.
  - unfold xval. rewrite Z.sub_0_l, <- signed_negb. now rewrite round_exact.
  - rewrite Z.sub_0_r. unfold xval. now rewrite round_exact.
  - pose proof (bounded_range _ _ HX) as (RX & _).
    pose proof (bounded_range _ _ HC) as (RC & _).
    rewrite binary_normalize_xval by (unfold bias; lia).
    do 2 f_equal.
    rewrite !cond_Zopp_signed, !shl_align_value by lia.
    rewrite Z.mul_sub_distr_r, !signed_mul, <- !Z.mul_assoc.
    rewrite <- !Z.pow_add_r by (unfold bias; lia).
    do 4 f_equal; lia.
Qed.

Lemma scale_by_mono (mk : positive) (ek : Z) (v v' : Z) :
  -1074 <= ek -> v <= v' -> scale_by mk ek v <= scale_by mk ek v'.
Proof.
  intros Hk H. unfold scale_by. pose proof top_pos.
  pose proof (round_ext_bounds (v * (Z.pos mk * 2 ^ (ek + 1074)) / 2 ^ 1074)).
  pose proof (round_ext_bounds (v' * (Z.pos mk * 2 ^ (ek + 1074)) / 2 ^ 1074)).
  pose proof (pow2_pos (ek + 1074) ltac:(lia)).
  destruct (Z.leb_spec v (- top)), (Z.leb_spec v' (- top)); try lia;
    destruct (Z.leb_spec top v), (Z.leb_spec top v'); try lia.
  apply round_ext_mono. apply Z.div_le_mono; [lia|].
  apply Z.mul_le_mono_nonneg_r; lia.
Qed.

Lemma product_aligned (mu mk : positive) (eu ek : Z) :
  bounded prec emax mu eu = true -> bounded prec emax mk ek = true ->
  0 <= fexp prec emax (Z.pos (digits2_pos (mu * mk)) + (eu + ek)) - (eu + ek).
Proof.
  intros HU HK. apply bounded_spec in HU as [CU _]. apply bounded_spec in HK as [CK _].
  rewrite digits_log2, fexp_eq, Pos2Z.inj_mul.
  pose proof (Z.log2_mul_below (Z.pos mu) (Z.pos mk) ltac:(lia) ltac:(lia)).
  pose proof (Z.log2_nonneg (Z.pos mu)). pose proof (Z.log2_nonneg (Z.pos mk)).
  lia.
Qed.

Lemma mul_xval_pos (U : spec_float) (mk : positive) (ek : Z) (vu : Z) :
  valid_binary U = true -> xval U = Some vu ->
  bounded prec emax mk ek = true ->
  xval (SF64mul U (S754_finite false mk ek)) = Some (scale_by mk ek vu).
Proof.
  intros HU EU HK. pose proof top_pos as T.
  pose proof (bounded_range _ _ HK) as (RK & _).
  destruct U as [su|su| |su mu eu]; try discriminate;
    unfold xval in EU; apply some_inj in EU; subst vu;
    unfold valid_binary in HU; unfold SF64mul, SFmul; rewrite xorb_false_r.
  - unfold xval, scale_by.
    destruct (Z.leb_spec 0 (- top)); [lia|]. destruct (Z.leb_spec top 0); [lia|].
    reflexivity.
  - unfold xval, scale_by. destruct su; cbn [signed].
    + destruct (Z.leb_spec (- top) (- top)); [reflexivity|lia].
    + destruct (Z.leb_spec top (- top)); [lia|].
      destruct (Z.leb_spec top top); [reflexivity|lia].
  - pose proof (bounded_range _ _ HU) as (RU & _).
    pose proof (finite_value_range _ _ HU) as VU.
    pose proof (pow2_pos (eu + ek + bias) ltac:(unfold bias; lia)) as Pw.
    rewrite round_aux_xval; [|now apply product_aligned|unfold bias; lia].
    f_equal. unfold scale_by.
    assert (B : - top < signed su (Z.pos mu * 2 ^ (eu + bias)) < top)
      by (destruct su; cbn [signed]; lia).
    destruct (Z.leb_spec (signed su (Z.pos mu * 2 ^ (eu + bias))) (- top)); [lia|].
    destruct (Z.leb_spec top (signed su (Z.pos mu * 2 ^ (eu + bias)))); [lia|].
    assert (W : Z.pos mu * 2 ^ (eu + bias) * (Z.pos mk * 2 ^ (ek + 1074)) =
                Z.pos (mu * mk) * 2 ^ (eu + ek + bias) * 2 ^ 1074).
    { rewrite Pos2Z.inj_mul.
      assert (E1 : 2 ^ (eu + bias) * 2 ^ (ek + 1074) = 2 ^ (eu + ek + bias + 1074))
        by (rewrite <- Z.pow_add_r by (unfold bias; lia); f_equal; lia).
      assert (E2 : 2 ^ (eu + ek + bias) * 2 ^ 1074 = 2 ^ (eu + ek + bias + 1074))
        by (rewrite <- Z.pow_add_r by (unfold bias; lia); reflexivity).
      replace (Z.pos mu * 2 ^ (eu + bias) * (Z.pos mk * 2 ^ (ek + 1074)))
        with (Z.pos mu * Z.pos mk * (2 ^ (eu + bias) * 2 ^ (ek + 1074))) by ring.
      replace (Z.pos mu * Z.pos mk * 2 ^ (eu + ek + bias) * 2 ^ 1074)
        with (Z.pos mu * Z.pos mk * (2 ^ (eu + ek + bias) * 2 ^ 1074)) by ring.
      now rewrite E1, E2. }
    rewrite signed_mul, W, <- signed_mul, Z.div_mul by lia.
    destruct su; cbn [signed].
    + rewrite round_ext_neg by lia. now rewrite Z.opp_involutive.
    + now rewrite round_ext_pos by lia.
Qed.

(** *** Primitive doubles *)

Lemma fin_of_is_finite (x : float) :
  PrimFloat.is_finite x = true -> fin (Prim2SF x) = true.
Proof.
  unfold PrimFloat.is_finite, PrimFloat.is_nan, PrimFloat.is_infinity.
  rewrite !eqb_spec, abs_spec.
  change (Prim2SF infinity) with (S754_infinity false).
  destruct (Prim2SF x) as [s|s| |s m e]; try reflexivity.
  - destruct s; intros H; discriminate H.
  - intros H; discriminate H.
Qed.

Lemma fin_xval (X : spec_float) : fin X = true -> exists v, xval X = Some v.
Proof. destruct X; simpl; try discriminate; eauto. Qed.

Lemma xval_not_nan (x : float) :
  PrimFloat.is_nan x = false -> exists v, xval (Prim2SF x) = Some v.
Proof.
  unfold PrimFloat.is_nan. rewrite eqb_spec.
  destruct (Prim2SF x); simpl; try discriminate; eauto.
Qed.

Lemma leb_xval (x y : float) (vx vy : Z) :
  xval (Prim2SF x) = Some vx -> xval (Prim2SF y) = Some vy ->
  (PrimFloat.leb x y = true <-> vx <= vy).
Proof.
  intros Hx Hy. rewrite leb_spec. unfold SFleb.
  rewrite (compare_xval _ _ vx vy (Prim2SF_valid x) (Prim2SF_valid y) Hx Hy).
  destruct (Z.compare_spec vx vy); split; intros; try lia; try reflexivity;
    discriminate.
Qed.

(** Subtracting the same finite double keeps the order of finite doubles. *)
Lemma sub_monotone (x y c : float) :
  PrimFloat.is_finite x = true -> PrimFloat.is_finite y = true ->
  PrimFloat.is_finite c = true ->
  PrimFloat.leb x y = true -> PrimFloat.leb (x - c) (y - c) = true.
Proof.
  intros Fx Fy Fc L.
  apply fin_of_is_finite in Fx, Fy, Fc.
  destruct (fin_xval _ Fx) as [vx Ex], (fin_xval _ Fy) as [vy Ey],
           (fin_xval _ Fc) as [vc Ec].
  apply (leb_xval x y vx vy Ex Ey) in L.
  apply (leb_xval (x - c) (y - c) (round_ext (vx - vc)) (round_ext (vy - vc))).
  - rewrite sub_spec. apply sub_xval; auto using Prim2SF_valid.
  - rewrite sub_spec. apply sub_xval; auto using Prim2SF_valid.
  - apply round_ext_mono. lia.
Qed.

Lemma sub_not_nan (x c : float) :
  PrimFloat.is_finite x = true -> PrimFloat.is_finite c = true ->
  PrimFloat.is_nan (x - c) = false.
Proof.
  intros Fx Fc. apply fin_of_is_finite in Fx, Fc.
  destruct (fin_xval _ Fx) as [vx Ex], (fin_xval _ Fc) as [vc Ec].
  pose proof (sub_xval _ _ vx vc (Prim2SF_valid x) (Prim2SF_valid c) Fx Fc Ex Ec) as H.
  rewrite <- sub_spec in H.
  unfold PrimFloat.is_nan. rewrite eqb_spec. unfold SFeqb.
  rewrite (compare_xval _ _ _ _ (Prim2SF_valid _) (Prim2SF_valid _) H H).
  now rewrite Z.compare_refl.
Qed.

(** Multiplying by a positive finite double keeps the order of doubles
    that are not NaN. *)
Lemma mul_pos_monotone (u v k : float) (mk : positive) (ek : Z) :
  PrimFloat.is_nan u = false -> PrimFloat.is_nan v = false ->
  Prim2SF k = S754_finite false mk ek ->
  PrimFloat.leb u v = true -> PrimFloat.leb (u * k) (v * k) = true.
Proof.
  intros Nu Nv K L.
  destruct (xval_not_nan u Nu) as [vu Eu], (xval_not_nan v Nv) as [vv Ev].
  apply (leb_xval u v vu vv Eu Ev) in L.
  pose proof (Prim2SF_valid k) as Vk. rewrite K in Vk.
  apply (leb_xval _ _ (scale_by mk ek vu) (scale_by mk ek vv)).
  - rewrite mul_spec, K. apply mul_xval_pos; auto using Prim2SF_valid.
  - rewrite mul_spec, K. apply mul_xval_pos; auto using Prim2SF_valid.
  - apply scale_by_mono; [|lia]. apply bounded_range in Vk. lia.
Qed.

Lemma mul_86400_monotone (u v : float) :
  PrimFloat.is_nan u = false -> PrimFloat.is_nan v = false ->
  PrimFloat.leb u v = true -> PrimFloat.leb (u * 86400) (v * 86400) = true.
Proof.
  intros Nu Nv. now apply (mul_pos_monotone u v 86400 5937362789990400 (-36)).
Qed.

(** ** Normalisation keeps the TOAs sorted *)

Lemma finite_not_nan (x : double) :
  PrimFloat.is_finite x = true -> PrimFloat.is_nan x = false.
Proof.
  unfold PrimFloat.is_finite. destruct (PrimFloat.is_nan x); [discriminate|reflexivity].
Qed.

(** One TOA to seconds from a finite origin: the order is kept. *)
Lemma to_offset_monotone (cmd : Cmdline) (To a b : double) :
  PrimFloat.is_finite To = true ->
  PrimFloat.is_finite a = true -> PrimFloat.is_finite b = true ->
  le_double a b -> le_double (to_offset cmd To a) (to_offset cmd To b).
Proof.
  intros HT Ha Hb L. unfold le_double, to_offset in *.
  pose proof (sub_monotone a b To Ha Hb HT L) as S.
  destruct (secP cmd); [exact S|].
  change (double_of_long SECPERDAY) with 86400%float.
  apply mul_86400_monotone; auto using sub_not_nan.
Qed.

Lemma origin_finite (cmd : Cmdline) (stray : nat -> double) (x : double) (l : list double) :
  Forall (fun y => PrimFloat.is_finite y = true) (x :: l) ->
  (t0P cmd = true -> PrimFloat.is_finite (t0 cmd) = true) ->
  PrimFloat.is_finite (origin cmd stray (x :: l)) = true.
Proof.
  intros Hl Ht. unfold origin. destruct (t0P cmd); [now apply Ht|].
  simpl. now inversion Hl.
Qed.

Lemma normalise_sorted (cmd : Cmdline) (stray : nat -> double) (raw : list double) :
  Forall (fun x => PrimFloat.is_finite x = true) raw ->
  (t0P cmd = true -> PrimFloat.is_finite (t0 cmd) = true) ->
  Sorted le_double (normalise cmd stray raw).
Proof.
  intros Hraw Ht. unfold normalise.
  assert (Hs : Forall (fun x => PrimFloat.is_finite x = true) (qsort compare_doubles raw)).
  { now rewrite <- (qsort_perm compare_doubles raw). }
  assert (Hn : no_nan raw).
  { eapply Forall_impl; [|exact Hraw]. intros x. apply finite_not_nan. }
  pose proof (qsort_sorted raw Hn) as S.
  destruct (qsort compare_doubles raw) as [|x l] eqn:E; [constructor|].
  pose proof (origin_finite cmd stray x l Hs Ht) as HT.
  apply Sorted_map_monotone; [|exact S].
  intros a b Ia Ib. rewrite Forall_forall in Hs.
  apply to_offset_monotone; auto.
Qed.

(** C7, as amended.  For TOAs that are all finite doubles, and a finite
    epoch when one is given, the TOAs are in non-decreasing order after
    normalisation (sort, subtract the origin, and for day units multiply
    by 86400): every rounded subtraction and multiplication keeps the
    order that [qsort] has established. *)
Theorem normalise_ascending (cmd : Cmdline) (stray : nat -> double) (raw : list double) :
  Forall (fun x => PrimFloat.is_finite x = true) raw ->
  (t0P cmd = true -> PrimFloat.is_finite (t0 cmd) = true) ->
  ascending (normalise cmd stray raw).
Proof.
  intros Hraw Ht. apply Sorted_ascending. now apply normalise_sorted.
Qed.

(** TOAs in days without an epoch: MJD 60000.5, 59999.25, 60000.5 and
    60001 are 0, 108000, 108000 and 151200 seconds after the first. *)
Lemma normalise_ascending_witness :
  Forall (fun x => PrimFloat.is_finite x = true) [60000.5; 59999.25; 60000.5; 60001]%float
  /\ normalise (mkCmdline true false false false 0 1 5 "toas.txt" "series.dat")
               (fun _ => nan) [60000.5; 59999.25; 60000.5; 60001]%float
     = [0; 108000; 108000; 151200]%float
  /\ ascending (normalise (mkCmdline true false false false 0 1 5 "toas.txt" "series.dat")
                          (fun _ => nan) [60000.5; 59999.25; 60000.5; 60001]%float).
Proof.
  assert (F : Forall (fun x => PrimFloat.is_finite x = true)
                     [60000.5; 59999.25; 60000.5; 60001]%float)
    by (repeat constructor).
  split; [exact F|]. split; [reflexivity|].
  exact (normalise_ascending (mkCmdline true false false false 0 1 5 "toas.txt" "series.dat")
           (fun _ => nan) [60000.5; 59999.25; 60000.5; 60001]%float F
           (fun H => False_ind _ (Bool.diff_false_true H))).
Defined.

(** C7 as stated fails when a TOA is not a finite number.  A NaN among
    the TOAs stays a NaN, and NaN is below nothing; a TOA of minus
    infinity that becomes the origin turns into [inf - inf], a NaN. *)
Lemma nan_breaks_the_order :
  ~ ascending (normalise (text_seconds 0 1 5) (fun _ => nan) [1; nan]%float)
  /\ ~ ascending (normalise (mkCmdline true false true false 0 1 5 "toas.txt" "series.dat")
                            (fun _ => nan) [0; neg_infinity]%float).
Proof.
  split; intros H.
  - specialize (H 0%nat 1%float nan eq_refl eq_refl). discriminate H.
  - specialize (H 0%nat nan infinity eq_refl eq_refl). discriminate H.
Qed.

(** ** The reads through the cursor *)

Section CursorFacts.

Variable C : Z.
Variable ddata : list double.
Variable dt : double.
Variable numout : Z.

Lemma place_toas_cursor_ok stray fuel lo hi s :
  cursor_ok ddata s -> cursor_ok ddata (place_toas C ddata stray dt fuel lo hi s).
Proof.
  revert s; induction fuel as [|fuel IH]; intros s H; simpl; [exact H|].
  destruct (Nat.ltb_spec (cursor s) (ntoas ddata)) as [L|L]; [|exact H].
  destruct (dge (toa s) hi); [exact H|].
  apply IH. destruct H as [Hc Hd].
  assert (E : forall s', cursor s' = cursor s -> derefs s' = derefs s ->
                         cursor_ok ddata (advance ddata stray s')).
  { intros s' Ec Ed. unfold cursor_ok, advance. simpl. rewrite Ec, Ed. split; [lia|].
    apply Forall_app. split; [exact Hd|]. constructor; [lia|constructor]. }
  destruct (dge (toa s) lo); apply E; reflexivity.
Qed.

Lemma write_blocks_cursor_ok stray n ii s :
  cursor_ok ddata s -> cursor_ok ddata (fst (write_blocks C ddata stray dt numout n ii s)).
Proof.
  revert ii s; induction n as [|n IH]; intros ii s H; simpl; [exact H|].
  specialize (IH (ii + 1) (place_block C ddata stray dt ii s)).
  destruct (write_blocks C ddata stray dt numout n (ii + 1)
              (place_block C ddata stray dt ii s)) as [s2 rest].
  apply IH. unfold place_block. apply place_toas_cursor_ok. exact H.
Qed.

(** Every read through the cursor is at an index of at most [ntoas]:
    the read past the end is the only one outside the array. *)
Lemma derefs_bounded stray :
  Forall (fun i => (i <= ntoas ddata)%nat)
         (derefs (fst (binning C ddata stray dt numout))).
Proof.
  apply (write_blocks_cursor_ok stray). split; simpl; [lia|].
  constructor; [lia|constructor].
Qed.

Lemma load_inside stray1 stray2 i :
  (i < ntoas ddata)%nat -> load ddata stray1 i = load ddata stray2 i.
Proof.
  intros H. unfold load. destruct (nth_error ddata i) eqn:E; [reflexivity|].
  apply nth_error_None in E. unfold ntoas in H. lia.
Qed.

Lemma place_toas_same stray1 stray2 fuel lo hi s1 s2 :
  same_sweep ddata s1 s2 ->
  same_sweep ddata (place_toas C ddata stray1 dt fuel lo hi s1)
             (place_toas C ddata stray2 dt fuel lo hi s2).
Proof.
  revert s1 s2; induction fuel as [|fuel IH]; intros s1 s2 H; simpl; [exact H|].
  destruct H as (Ec & Ef & En & Ed & Es & Et). rewrite <- Ec.
  destruct (Nat.ltb_spec (cursor s1) (ntoas ddata)) as [L|L];
    [|repeat split; auto].
  rewrite <- (Et L).
  destruct (dge (toa s1) hi); [repeat split; auto|].
  apply IH.
  destruct (dge (toa s1) lo); unfold same_sweep, advance, place; simpl;
    rewrite <- ?Ec, <- ?Ef, <- ?En, <- ?Ed, <- ?Es, <- ?(Et L);
    repeat split; auto using load_inside.
Qed.

Lemma write_blocks_same stray1 stray2 n ii s1 s2 :
  same_sweep ddata s1 s2 ->
  same_sweep ddata (fst (write_blocks C ddata stray1 dt numout n ii s1))
             (fst (write_blocks C ddata stray2 dt numout n ii s2))
  /\ snd (write_blocks C ddata stray1 dt numout n ii s1) =
     snd (write_blocks C ddata stray2 dt numout n ii s2).
Proof.
  revert ii s1 s2; induction n as [|n IH]; intros ii s1 s2 H; simpl; [auto|].
  assert (P : same_sweep ddata (place_block C ddata stray1 dt ii s1)
                         (place_block C ddata stray2 dt ii s2)).
  { unfold place_block. destruct H as (Ec & Ef & En & Ed & Es & Et).
    rewrite <- Ec. apply place_toas_same. unfold same_sweep, clear. simpl.
    repeat split; auto. }
  specialize (IH (ii + 1) _ _ P).
  destruct (write_blocks C ddata stray1 dt numout n (ii + 1)
              (place_block C ddata stray1 dt ii s1)) as [a1 r1].
  destruct (write_blocks C ddata stray2 dt numout n (ii + 1)
              (place_block C ddata stray2 dt ii s2)) as [a2 r2].
  simpl in *. destruct IH as [I1 I2]. split; [exact I1|].
  unfold fwrite. destruct P as (_ & -> & _). now rewrite I2.
Qed.

(** What lies past the end of the TOA array has no influence on the
    series written, on the count of placed TOAs or on the stores. *)
Lemma binning_ignores_stray stray1 stray2 :
  let r1 := binning C ddata stray1 dt numout in
  let r2 := binning C ddata stray2 dt numout in
  snd r1 = snd r2 /\ numplaced (fst r1) = numplaced (fst r2)
  /\ stores (fst r1) = stores (fst r2).
Proof.
  assert (I : same_sweep ddata (sweep_init ddata stray1) (sweep_init ddata stray2)).
  { unfold same_sweep, sweep_init. simpl. repeat split; auto using load_inside. }
  destruct (write_blocks_same stray1 stray2 (Z.to_nat (numwrites C numout)) 0 _ _ I)
    as ((_ & _ & N & _ & S & _) & B).
  unfold binning. auto.
Qed.

(** Every TOA counted as placed is one store and one step of the cursor. *)
Lemma place_toas_counts stray fuel lo hi s :
  let s' := place_toas C ddata stray dt fuel lo hi s in
  numplaced s' - Z.of_nat (length (stores s')) = numplaced s - Z.of_nat (length (stores s))
  /\ numplaced s' - Z.of_nat (cursor s') <= numplaced s - Z.of_nat (cursor s).
Proof.
  revert s; induction fuel as [|fuel IH]; intros s; simpl; [lia|].
  destruct (cursor s <? ntoas ddata)%nat; [|lia].
  destruct (dge (toa s) hi); [lia|].
  destruct (dge (toa s) lo).
  - specialize (IH (advance ddata stray (place C dt lo s))). simpl in IH.
    rewrite length_app in IH. simpl in IH. lia.
  - specialize (IH (advance ddata stray s)). simpl in IH. lia.
Qed.

Lemma write_blocks_counts stray n ii s :
  let s' := fst (write_blocks C ddata stray dt numout n ii s) in
  numplaced s' - Z.of_nat (length (stores s')) = numplaced s - Z.of_nat (length (stores s))
  /\ numplaced s' - Z.of_nat (cursor s') <= numplaced s - Z.of_nat (cursor s).
Proof.
  revert ii s; induction n as [|n IH]; intros ii s; simpl; [lia|].
  specialize (IH (ii + 1) (place_block C ddata stray dt ii s)).
  destruct (write_blocks C ddata stray dt numout n (ii + 1)
              (place_block C ddata stray dt ii s)) as [s2 rest].
  simpl in *. unfold place_block in IH.
  pose proof (place_toas_counts stray (ntoas ddata - cursor s)
                (lotime C dt ii) (hitime C dt ii) (clear C s)) as P.
  simpl in P. lia.
Qed.

(** The count reported is the number of stores made in the buffer,
    written to the file or not, and it never exceeds the number of TOAs. *)
Lemma placed_counts_stores stray :
  let s := fst (binning C ddata stray dt numout) in
  numplaced s = Z.of_nat (length (stores s))
  /\ 0 <= numplaced s <= Z.of_nat (ntoas ddata).
Proof.
  pose proof (write_blocks_counts stray (Z.to_nat (numwrites C numout)) 0
                (sweep_init ddata stray)) as [P Q].
  pose proof (write_blocks_cursor_ok stray (Z.to_nat (numwrites C numout)) 0
                (sweep_init ddata stray)) as [K _].
  { split; simpl; [lia|]. constructor; [lia|constructor]. }
  simpl in P, Q. unfold binning. simpl. lia.
Qed.

End CursorFacts.

(** ** The sweep is a tally

    On sorted TOAs, and with start times of the blocks that do not
    decrease, the sweep with its cursor writes what a tally of each
    block's window gives, and places the TOAs of the span of the blocks. *)

Lemma skipn_cons_nth {A} (l : list A) (p : nat) (x : A) :
  nth_error l p = Some x -> skipn p l = x :: skipn (S p) l.
Proof.
  revert p; induction l as [|a l IH]; intros [|p] H; simpl in *; try discriminate.
  - now injection H as ->.
  - now apply IH.
Qed.

(** The loop on the cursor is the loop on the list of the TOAs from the
    cursor on. *)
Lemma place_toas_consume (C : Z) ddata stray dt lo hi fuel s :
  prefetched ddata stray s -> fuel = (ntoas ddata - cursor s)%nat ->
  let s' := place_toas C ddata stray dt fuel lo hi s in
  let '(n, b, k, st) := consume C dt lo hi (skipn (cursor s) ddata) (fdata s) in
  prefetched ddata stray s'
  /\ cursor s' = (cursor s + n)%nat
  /\ fdata s' = b
  /\ numplaced s' = numplaced s + Z.of_nat k
  /\ stores s' = stores s ++ st.
Proof.
  revert s; induction fuel as [|fuel IH]; intros s P F.
  - assert (E : skipn (cursor s) ddata = []) by (apply skipn_all2; unfold ntoas in F; lia).
    rewrite E. simpl. rewrite app_nil_r. repeat split; auto; lia.
  - assert (L : (cursor s < ntoas ddata)%nat) by lia.
    destruct (nth_error ddata (cursor s)) as [t|] eqn:N;
      [|apply nth_error_None in N; unfold ntoas in L; lia].
    assert (T : toa s = t) by (rewrite P; unfold load; now rewrite N).
    rewrite (skipn_cons_nth _ _ _ N). cbn [place_toas consume].
    destruct (Nat.ltb_spec (cursor s) (ntoas ddata)); [|lia].
    rewrite T. destruct (dge t hi).
    + rewrite app_nil_r. repeat split; auto; lia.
    + destruct (dge t lo).
      * specialize (IH (advance ddata stray (place C dt lo s))).
        cbn [advance place cursor fdata numplaced stores toa] in IH.
        rewrite T in IH. unfold count_in.
        destruct (consume C dt lo hi (skipn (S (cursor s)) ddata)
                    (bump C (bin_index dt t lo) (fdata s))) as [[[n b] k] st].
        destruct IH as (I1 & I2 & I3 & I4 & I5); [reflexivity|simpl; lia|].
        repeat split; auto; try lia.
        rewrite I5, <- app_assoc. reflexivity.
      * specialize (IH (advance ddata stray s)).
        cbn [advance cursor fdata numplaced stores toa] in IH.
        destruct (consume C dt lo hi (skipn (S (cursor s)) ddata) (fdata s))
          as [[[n b] k] st].
        destruct IH as (I1 & I2 & I3 & I4 & I5); [reflexivity|simpl; lia|].
        repeat split; auto; lia.
Qed.

Lemma leb_true_xval (a b : double) :
  PrimFloat.leb a b = true ->
  exists va vb, xval (Prim2SF a) = Some va /\ xval (Prim2SF b) = Some vb /\ va <= vb.
Proof.
  intros H. pose proof H as H'. rewrite leb_spec in H'. unfold SFleb in H'.
  destruct (xval (Prim2SF a)) as [va|] eqn:A;
    [|destruct (Prim2SF a); try discriminate A; discriminate H'].
  destruct (xval (Prim2SF b)) as [vb|] eqn:B;
    [|destruct (Prim2SF b); try discriminate B;
      destruct (Prim2SF a); discriminate H'].
  exists va, vb. repeat split. now apply (leb_xval a b va vb A B).
Qed.

Lemma le_double_trans (a b c : double) :
  le_double a b -> le_double b c -> le_double a c.
Proof.
  unfold le_double. intros H1 H2.
  destruct (leb_true_xval a b H1) as (va & vb & A & B & L1).
  destruct (leb_true_xval b c H2) as (vb' & vc & B' & Cc & L2).
  rewrite B in B'. injection B' as <-.
  apply (leb_xval a c va vc A Cc). lia.
Qed.

Lemma sorted_above (t : double) (l : list double) :
  Sorted le_double (t :: l) -> Forall (le_double t) l.
Proof.
  intros H. apply Sorted_extends in H; [exact H|].
  intros a b c. apply le_double_trans.
Qed.

Lemma all_above (hi t : double) (l : list double) :
  dge t hi = true -> Forall (le_double t) l ->
  Forall (fun x => dge x hi = true) l.
Proof.
  intros H. apply Forall_impl. intros x Hx.
  unfold dge in *. exact (le_double_trans hi t x H Hx).
Qed.

Lemma filter_none {A} (f : A -> bool) (l : list A) :
  Forall (fun x => f x = false) l -> filter f l = [].
Proof.
  induction 1 as [|x l Hx Hl IH]; simpl; [reflexivity|]. now rewrite Hx.
Qed.

(** On sorted TOAs the loop consumes exactly the TOAs below [hi], and
    places those of them that are not below [lo]. *)
Lemma consume_sorted (C : Z) (dt lo hi : double) (l : list double) (buf : list Z) :
  Sorted le_double l ->
  let '(n, b, k, st) := consume C dt lo hi l buf in
  firstn n l = filter (below hi) l
  /\ Forall (fun x => dge x hi = true) (skipn n l)
  /\ b = fold_left (count_in C dt lo) (filter (between lo hi) l) buf
  /\ k = length (filter (between lo hi) l)
  /\ st = map (fun t => bin_index dt t lo) (filter (between lo hi) l).
Proof.
  revert buf; induction l as [|t l IH]; intros buf S; cbn [consume].
  - simpl. repeat split; auto.
  - pose proof (sorted_above t l S) as A.
    assert (S' : Sorted le_double l) by now inversion S.
    cbn [filter].
    change (below hi t) with (negb (dge t hi)).
    change (between lo hi t) with (dge t lo && negb (dge t hi)).
    destruct (dge t hi) eqn:H.
    + pose proof (all_above hi t l H A) as U.
      rewrite andb_false_r. cbn [negb firstn skipn].
      rewrite !filter_none.
      * repeat split; auto.
      * eapply Forall_impl; [|exact U]. unfold between. intros x ->.
        now rewrite andb_false_r.
      * eapply Forall_impl; [|exact U]. unfold below. now intros x ->.
    + rewrite andb_true_r. cbn [negb]. destruct (dge t lo).
      * specialize (IH (count_in C dt lo buf t) S').
        destruct (consume C dt lo hi l (count_in C dt lo buf t)) as [[[n b] k] st].
        destruct IH as (I1 & I2 & I3 & I4 & I5).
        cbn [firstn skipn fold_left length map].
        rewrite I1. repeat split; auto.
        now rewrite I5.
      * specialize (IH buf S').
        destruct (consume C dt lo hi l buf) as [[[n b] k] st].
        destruct IH as (I1 & I2 & I3 & I4 & I5).
        cbn [firstn skipn]. rewrite I1. repeat split; auto.
Qed.

Lemma Sorted_skipn {A} (R : A -> A -> Prop) (l : list A) (p : nat) :
  Sorted R l -> Sorted R (skipn p l).
Proof.
  revert l; induction p as [|p IH]; intros l H; [exact H|].
  destruct l as [|x l]; [constructor|]. simpl. apply IH. now inversion H.
Qed.

Lemma firstn_add {A} (l : list A) (p n : nat) :
  firstn (p + n) l = firstn p l ++ firstn n (skipn p l).
Proof.
  revert l; induction p as [|p IH]; intros l; [reflexivity|].
  destruct l as [|x l]; simpl; [now rewrite firstn_nil|]. now rewrite IH.
Qed.

Lemma hitime_is_next (C : Z) (dt : double) (ii : Z) :
  hitime C dt ii = lotime C dt (ii + 1).
Proof. reflexivity. Qed.

Section Sweep.

Variable C : Z.
Variable ddata : list double.
Variable stray : nat -> double.
Variable dt : double.
Variable numout : Z.

Hypothesis sorted : Sorted le_double ddata.
Hypothesis windows : windows_ascend C dt numout.

Lemma filter_window_split (j : Z) (p : nat) :
  Forall (fun t => in_window C dt j t = false) (firstn p ddata) ->
  filter (in_window C dt j) ddata = filter (in_window C dt j) (skipn p ddata).
Proof.
  intros H. rewrite <- (firstn_skipn p ddata) at 1.
  rewrite filter_app, (filter_none _ _ H). reflexivity.
Qed.

(** One block of the sweep. *)
Lemma place_block_tally (ii : Z) (s : sweep) :
  0 <= ii < numwrites C numout ->
  prefetched ddata stray s -> consumed_ok C ddata dt numout ii s ->
  let s' := place_block C ddata stray dt ii s in
  prefetched ddata stray s'
  /\ consumed_ok C ddata dt numout (ii + 1) s'
  /\ fdata s' = tally C dt ii ddata
  /\ numplaced s' =
     numplaced s + Z.of_nat (length (filter (in_window C dt ii) ddata))
  /\ stores s' =
     stores s ++ map (fun t => bin_index dt t (lotime C dt ii))
                     (filter (in_window C dt ii) ddata).
Proof.
  intros Hi P K. unfold place_block.
  pose proof (place_toas_consume C ddata stray dt (lotime C dt ii) (hitime C dt ii)
                (ntoas ddata - cursor s) (clear C s) P eq_refl) as PC.
  pose proof (consume_sorted C dt (lotime C dt ii) (hitime C dt ii)
                (skipn (cursor s) ddata) (repeat 0 (Z.to_nat C))
                (Sorted_skipn _ _ _ sorted)) as CS.
  cbn [clear cursor fdata numplaced stores] in PC.
  destruct (consume C dt (lotime C dt ii) (hitime C dt ii) (skipn (cursor s) ddata)
              (repeat 0 (Z.to_nat C))) as [[[n b] k] st].
  destruct PC as (P1 & P2 & P3 & P4 & P5).
  destruct CS as (C1 & C2 & C3 & C4 & C5).
  change (between (lotime C dt ii) (hitime C dt ii)) with (in_window C dt ii) in *.
  pose proof (filter_window_split ii (cursor s) (K ii ltac:(lia))) as W.
  repeat split.
  - exact P1.
  - intros j Hj. rewrite P2, firstn_add. apply Forall_app. split.
    + apply K. lia.
    + rewrite C1. apply Forall_forall. intros t Ht.
      apply filter_In in Ht as [_ Ht]. apply negb_true_iff in Ht.
      unfold in_window, between. destruct (dge t (lotime C dt j)) eqn:D; [|reflexivity].
      exfalso. unfold dge in *.
      assert (L : le_double (hitime C dt ii) (lotime C dt j))
        by (apply (windows (ii + 1) j); lia).
      pose proof (le_double_trans _ _ _ L D) as X. unfold le_double in X.
      congruence.
  - rewrite P3, C3. unfold tally. now rewrite W.
  - rewrite P4, C4. now rewrite W.
  - rewrite P5, C5. now rewrite W.
Qed.

Lemma write_blocks_tally (n : nat) (ii : Z) (s : sweep) :
  0 <= ii -> ii + Z.of_nat n = numwrites C numout ->
  prefetched ddata stray s -> consumed_ok C ddata dt numout ii s ->
  let r := write_blocks C ddata stray dt numout n ii s in
  snd r = map (fun k => firstn (Z.to_nat (numtowrite C numout (ii + Z.of_nat k)))
                               (tally C dt (ii + Z.of_nat k) ddata))
              (seq 0 n)
  /\ numplaced (fst r) =
     numplaced s +
     fold_right Z.add 0
       (map (fun k => Z.of_nat (length (filter (in_window C dt (ii + Z.of_nat k)) ddata)))
            (seq 0 n)).
Proof.
  revert ii s; induction n as [|n IH]; intros ii s H0 Hn P K.
  - simpl. split; [reflexivity|lia].
  - destruct (place_block_tally ii s ltac:(lia) P K) as (P' & K' & F & N & _).
    specialize (IH (ii + 1) (place_block C ddata stray dt ii s) ltac:(lia) ltac:(lia) P' K').
    cbn [write_blocks].
    destruct (write_blocks C ddata stray dt numout n (ii + 1)
                (place_block C ddata stray dt ii s)) as [s2 rest].
    cbn [fst snd] in *. destruct IH as [I1 I2].
    cbn [seq map fold_right]. rewrite <- !seq_shift, !map_map.
    split.
    + f_equal.
      * unfold fwrite. now rewrite F, Z.add_0_r.
      * rewrite I1. apply map_ext. intros k.
        now replace (ii + 1 + Z.of_nat k) with (ii + Z.of_nat (S k)) by lia.
    + rewrite I2, N, Z.add_0_r.
      rewrite <- Z.add_assoc. do 3 f_equal. apply map_ext. intros k.
      now replace (ii + 1 + Z.of_nat k) with (ii + Z.of_nat (S k)) by lia.
Qed.

End Sweep.

(** ** The start times of the blocks ascend *)

(** Multiplying by a finite double that is not negative keeps the order
    of finite doubles. *)
Lemma mul_monotone (u v k : float) :
  PrimFloat.is_finite u = true -> PrimFloat.is_finite v = true ->
  PrimFloat.is_finite k = true -> PrimFloat.leb 0 k = true ->
  PrimFloat.leb u v = true -> PrimFloat.leb (u * k) (v * k) = true.
Proof.
  intros Fu Fv Fk Pk L.
  pose proof (fin_of_is_finite u Fu) as Fu'. pose proof (fin_of_is_finite v Fv) as Fv'.
  pose proof (fin_of_is_finite k Fk) as Fk'.
  rewrite leb_spec in Pk. change (Prim2SF 0) with (S754_zero false) in Pk.
  destruct (Prim2SF k) as [sk|sk| |sk mk ek] eqn:K; try discriminate.
  - (* [k] is a zero: both products are zeros *)
    rewrite leb_spec, !mul_spec, K. unfold SF64mul, SFmul.
    destruct (Prim2SF u), (Prim2SF v); try discriminate; reflexivity.
  - destruct sk; [discriminate Pk|].
    apply (mul_pos_monotone u v k mk ek); auto using finite_not_nan.
Qed.

Lemma double_of_long_xval (n : Z) :
  0 <= n < 2 ^ 63 ->
  xval (Prim2SF (double_of_long n)) = Some (round_ext (n * 2 ^ bias)).
Proof.
  intros H. unfold double_of_long.
  destruct (Z.leb_spec 0 n); [|lia].
  rewrite of_uint63_spec, Uint63.of_Z_spec.
  rewrite Z.mod_small by (change Uint63.wB with (2 ^ 63); lia).
  rewrite binary_normalize_xval by (unfold bias; lia).
  reflexivity.
Qed.

Lemma is_finite_of_fin (x : float) :
  fin (Prim2SF x) = true -> PrimFloat.is_finite x = true.
Proof.
  unfold PrimFloat.is_finite, PrimFloat.is_nan, PrimFloat.is_infinity.
  rewrite !eqb_spec, abs_spec.
  change (Prim2SF infinity) with (S754_infinity false).
  destruct (Prim2SF x) as [s|s| |s m e]; try discriminate; intros _.
  - destruct s; reflexivity.
  - unfold SFeqb. rewrite SFcompare_refl by discriminate. reflexivity.
Qed.

(** A [long] that is not negative converts to a finite double. *)
Lemma double_of_long_finite (n : Z) :
  0 <= n < 2 ^ 63 -> PrimFloat.is_finite (double_of_long n) = true.
Proof.
  intros H. pose proof (double_of_long_xval n H) as X.
  apply is_finite_of_fin.
  destruct (Prim2SF (double_of_long n)) as [s|s| |s m e]; try reflexivity;
    try discriminate X.
  (* an infinity has the value [top], which no [long] rounds to *)
  exfalso. unfold xval in X. apply some_inj in X.
  pose proof (round_ext_mono (n * 2 ^ bias) (2 ^ 63 * 2 ^ bias)
                ltac:(apply Z.mul_le_mono_nonneg_r; [apply Z.pow_nonneg|]; lia)) as M.
  pose proof (round_ext_mono 0 (n * 2 ^ bias)
                ltac:(apply Z.mul_nonneg_nonneg; [|apply Z.pow_nonneg]; lia)) as M0.
  assert (R : round_ext (2 ^ 63 * 2 ^ bias) = 2 ^ 63 * 2 ^ bias).
  { change (2 ^ 63) with (Z.pos (2 ^ 52) * 2 ^ 11) at 1 2.
    rewrite <- !Z.mul_assoc, <- !Z.pow_add_r by (unfold bias; lia).
    apply (round_exact false (2 ^ 52) 11). reflexivity. }
  assert (Lt : 2 ^ 63 * 2 ^ bias < top).
  { unfold top. rewrite <- Z.pow_add_r by (unfold bias; lia).
    apply Z.pow_lt_mono_r; unfold bias; lia. }
  pose proof top_pos. change (round_ext 0) with 0 in M0.
  rewrite R in M. destruct s; cbn [signed] in X; lia.
Qed.

Lemma double_of_long_mono (a b : Z) :
  0 <= a -> a <= b -> b < 2 ^ 63 ->
  PrimFloat.leb (double_of_long a) (double_of_long b) = true.
Proof.
  intros Ha Hab Hb.
  apply (leb_xval _ _ _ _ (double_of_long_xval a ltac:(lia))
                  (double_of_long_xval b ltac:(lia))).
  apply round_ext_mono. apply Z.mul_le_mono_nonneg_r; [apply Z.pow_nonneg|]; lia.
Qed.

Lemma numwrites_le (C numout : Z) :
  1 <= C -> 0 <= numout -> numwrites C numout <= numout.
Proof.
  intros HC Hn. rewrite numwrites_cases by assumption.
  pose proof (Z.div_mod numout C ltac:(lia)).
  pose proof (Z.mod_pos_bound numout C ltac:(lia)).
  pose proof (Z.div_pos numout C ltac:(lia) ltac:(lia)).
  destruct (Z.eqb_spec (numout mod C) 0); nia.
Qed.

Lemma numwrites_nonneg (C numout : Z) :
  1 <= C -> 0 <= numout -> 0 <= numwrites C numout.
Proof.
  intros HC Hn. rewrite numwrites_cases by assumption.
  pose proof (Z.div_pos numout C ltac:(lia) ltac:(lia)).
  destruct (numout mod C =? 0); lia.
Qed.

(** [lotime = ii * blockt] does not decrease with [ii] when [blockt] is
    a finite double that is not negative. *)
Lemma windows_ascend_finite (C : Z) (dt : double) (numout : Z) :
  1 <= C -> 0 <= numout < 2 ^ 63 ->
  PrimFloat.is_finite (blockt C dt) = true -> PrimFloat.leb 0 (blockt C dt) = true ->
  windows_ascend C dt numout.
Proof.
  intros HC Hn F P a b Ha Hab Hb.
  pose proof (numwrites_le C numout HC ltac:(lia)).
  unfold le_double, lotime.
  apply mul_monotone; auto.
  - apply double_of_long_finite; lia.
  - apply double_of_long_finite; lia.
  - apply double_of_long_mono; lia.
Qed.

(** ** The windows tile the span of the blocks *)

Lemma ascending_Sorted (l : list double) : ascending l -> Sorted le_double l.
Proof.
  induction l as [|x l IH]; intros H; constructor.
  - apply IH. intros i a b Ha Hb. exact (H (S i) a b Ha Hb).
  - destruct l as [|y l]; constructor. exact (H O x y eq_refl eq_refl).
Qed.

Lemma filter_split {A} (f : A -> bool) (l : list A) :
  (length (filter f l) + length (filter (fun x => negb (f x)) l) = length l)%nat.
Proof.
  induction l as [|x l IH]; [reflexivity|]. simpl.
  destruct (f x); simpl; lia.
Qed.

Section Span.

Variable C : Z.
Variable dt : double.

(** A TOA is in the window of one of the first [n] blocks exactly when
    it is in their span, and then in one window only. *)
Lemma windows_tile (n : nat) (t : double) :
  (forall a b, 0 <= a -> a <= b -> b <= Z.of_nat n ->
               le_double (lotime C dt a) (lotime C dt b)) ->
  fold_right Z.add 0
    (map (fun k => Z.b2z (in_window C dt (0 + Z.of_nat k) t)) (seq 0 n))
  = if (0 <? Z.of_nat n) then Z.b2z (in_span C dt (Z.of_nat n) t) else 0.
Proof.
  induction n as [|n IH]; intros W; [reflexivity|].
  rewrite seq_S, map_app, fold_right_app. cbn [map fold_right seq Nat.add].
  assert (E : forall l z, fold_right Z.add z l = fold_right Z.add 0 l + z).
  { induction l as [|a l IHl]; intros z; simpl; [lia|]. rewrite IHl. lia. }
  rewrite E, IH by (intros a b Ha Hab Hb; apply W; lia).
  destruct (Z.ltb_spec 0 (Z.of_nat (S n))); [|lia].
  unfold in_window, in_span, between. rewrite hitime_is_next.
  replace (0 + Z.of_nat n + 1) with (Z.of_nat (S n)) by lia.
  replace (0 + Z.of_nat n) with (Z.of_nat n) by lia.
  pose proof (W 0 (Z.of_nat n) ltac:(lia) ltac:(lia) ltac:(lia)) as W0.
  pose proof (W (Z.of_nat n) (Z.of_nat (S n)) ltac:(lia) ltac:(lia) ltac:(lia)) as W1.
  set (d0 := dge t (lotime C dt 0)) in *.
  set (dn := dge t (lotime C dt (Z.of_nat n))) in *.
  set (d1 := dge t (lotime C dt (Z.of_nat (S n)))) in *.
  assert (A0 : dn = true -> d0 = true).
  { intros Dn. unfold d0, dn, dge in *. exact (le_double_trans _ _ _ W0 Dn). }
  assert (A1 : d1 = true -> dn = true).
  { intros D. unfold d1, dn, dge in *. exact (le_double_trans _ _ _ W1 D). }
  destruct (Z.ltb_spec 0 (Z.of_nat n)) as [P|P].
  - destruct dn, d0, d1; cbn [andb negb Z.b2z]; try reflexivity;
      try (specialize (A0 eq_refl); discriminate);
      try (specialize (A1 eq_refl); discriminate).
  - assert (Q : dn = d0) by (unfold dn, d0; repeat f_equal; lia).
    rewrite Q. destruct d0, d1; reflexivity.
Qed.

Lemma count_windows (n : nat) (l : list double) :
  (forall a b, 0 <= a -> a <= b -> b <= Z.of_nat n ->
               le_double (lotime C dt a) (lotime C dt b)) ->
  fold_right Z.add 0
    (map (fun k => Z.of_nat (length (filter (in_window C dt (0 + Z.of_nat k)) l)))
         (seq 0 n))
  = Z.of_nat (length (filter (in_span C dt (Z.of_nat n)) l)).
Proof.
  intros W. induction l as [|t l IH].
  - simpl. induction (seq 0 n); simpl; lia.
  - pose proof (windows_tile n t W) as T.
    assert (E : forall ks,
      fold_right Z.add 0
        (map (fun k => Z.of_nat (length (filter (in_window C dt (0 + Z.of_nat k)) (t :: l)))) ks)
      = fold_right Z.add 0 (map (fun k => Z.b2z (in_window C dt (0 + Z.of_nat k) t)) ks)
        + fold_right Z.add 0
            (map (fun k => Z.of_nat (length (filter (in_window C dt (0 + Z.of_nat k)) l))) ks)).
    { induction ks as [|k ks IHk]; [reflexivity|]. cbn [map fold_right].
      rewrite IHk. cbn [filter].
      destruct (in_window C dt (0 + Z.of_nat k) t); cbn [length Z.b2z]; lia. }
    rewrite E, IH, T. cbn [filter].
    destruct (Z.ltb_spec 0 (Z.of_nat n)) as [P|P].
    + destruct (in_span C dt (Z.of_nat n) t); cbn [length Z.b2z]; lia.
    + assert (X : in_span C dt (Z.of_nat n) t = false).
      { unfold in_span, between. replace (Z.of_nat n) with 0 by lia.
        destruct (dge t (lotime C dt 0)); reflexivity. }
      rewrite X. lia.
Qed.

End Span.

(** ** What a run writes and what it counts *)

Section SweepLaw.

Variable C : Z.
Variable ddata : list double.
Variable stray : nat -> double.
Variable dt : double.
Variable numout : Z.

Hypothesis C_pos : 1 <= C.
Hypothesis numout_long : 0 <= numout < 2 ^ 63.
Hypothesis sorted : Sorted le_double ddata.
Hypothesis blockt_finite : PrimFloat.is_finite (blockt C dt) = true.
Hypothesis blockt_nonneg : PrimFloat.leb 0 (blockt C dt) = true.

Lemma binning_tally :
  let r := binning C ddata stray dt numout in
  snd r = map (fun i => firstn (Z.to_nat (numtowrite C numout (Z.of_nat i)))
                               (tally C dt (Z.of_nat i) ddata))
              (seq 0 (Z.to_nat (numwrites C numout)))
  /\ numplaced (fst r) =
     Z.of_nat (length (filter (in_span C dt (numwrites C numout)) ddata)).
Proof.
  pose proof (numwrites_nonneg C numout C_pos ltac:(lia)) as N.
  pose proof (windows_ascend_finite C dt numout C_pos numout_long
                blockt_finite blockt_nonneg) as W.
  destruct (write_blocks_tally C ddata stray dt numout sorted W
              (Z.to_nat (numwrites C numout)) 0 (sweep_init ddata stray))
    as [B P]; try lia; try reflexivity.
  { intros j Hj. constructor. }
  unfold binning. cbv zeta. split.
  - rewrite B. apply map_ext. intros k. reflexivity.
  - rewrite P. cbn [sweep_init numplaced]. rewrite Z.add_0_l.
    rewrite (count_windows C dt (Z.to_nat (numwrites C numout)) ddata).
    + now rewrite Z2Nat.id by lia.
    + intros a b Ha Hab Hb. apply W; lia.
Qed.

End SweepLaw.

Lemma normalise_length (cmd : Cmdline) (stray : nat -> double) (raw : list double) :
  length (normalise cmd stray raw) = length raw.
Proof.
  unfold normalise. rewrite length_map.
  symmetry. apply Permutation_length, qsort_perm.
Qed.

(** C1, as amended.  For a run whose files open, whose TOAs are finite
    doubles (with a finite epoch when one is given), whose block time
    [65536 * dt] is finite and not negative, and whose stores all fall
    inside the buffer, the count reported satisfies
    [placed + dropped = found] when [dropped] counts the TOAs whose
    offset lies outside the span of the blocks written,
    [[0, numwrites * 65536 * dt)]: a TOA beyond the [numout] bins and
    inside the last block's window is counted as placed. *)
Theorem placed_plus_dropped
  (sscanf_lf : list ascii -> option double) (stray : nat -> double)
  (cmd : Cmdline) (w : world) (infile : FILE) (n : Z) (raw : list double) :
  fopen w (argv0 cmd) = Some infile ->
  load_toas sscanf_lf cmd infile = inl (n, raw) ->
  can_create w (outfile cmd) = true ->
  Forall (fun x => PrimFloat.is_finite x = true) raw ->
  (t0P cmd = true -> PrimFloat.is_finite (t0 cmd) = true) ->
  0 <= numout cmd < 2 ^ 63 ->
  PrimFloat.is_finite (blockt WORKLEN (dt cmd)) = true ->
  PrimFloat.leb 0 (blockt WORKLEN (dt cmd)) = true ->
  stores_ok WORKLEN
    (fst (binning WORKLEN (normalise cmd stray raw) stray (dt cmd) (numout cmd))) = true ->
  exists r,
    main sscanf_lf stray cmd w = Done r
    /\ found r = Z.of_nat (length raw)
    /\ placed r + outside_span WORKLEN (dt cmd) (numout cmd) (normalise cmd stray raw)
       = found r.
Proof.
  intros Hin Hload Hout Hraw Ht Hn HF HP Hs.
  pose proof (loaded_count sscanf_lf cmd w _ infile n raw Hin Hload) as Hc.
  unfold main. rewrite Hin, Hload, Hout.
  pose proof (binning_tally WORKLEN (normalise cmd stray raw) stray (dt cmd) (numout cmd)
                ltac:(unfold WORKLEN; lia) Hn
                (normalise_sorted cmd stray raw Hraw Ht) HF HP) as [_ P].
  destruct (binning WORKLEN (normalise cmd stray raw) stray (dt cmd) (numout cmd))
    as [s blks].
  cbn [fst] in Hs, P. rewrite Hs.
  eexists. split; [reflexivity|]. cbn [found placed].
  split; [exact Hc|].
  rewrite P, Hc. unfold outside_span.
  rewrite <- Nat2Z.inj_add, filter_split. now rewrite normalise_length.
Qed.

(** Scenario B: four TOAs found, four placed at the indices 0, 1, 1 and
    9, none outside the span of the one block. *)
Lemma placed_plus_dropped_witness :
  exists r,
    main scan_decimal (fun _ => nan) (text_seconds 0 1 5) (text_world scenario_lines) = Done r
    /\ found r = 4
    /\ placed r + 0 = found r.
Proof.
  exact (placed_plus_dropped scan_decimal (fun _ => nan) (text_seconds 0 1 5)
           (text_world scenario_lines) _ 4 scenario_toas eq_refl eq_refl eq_refl
           ltac:(repeat constructor) (fun _ => eq_refl) ltac:(simpl; lia) eq_refl eq_refl
           ltac:(vm_compute; reflexivity)).
Defined.

(** * Further properties of the run and of the loaders *)



Lemma scenario_B_run :
  main scan_decimal (fun _ => nan) (text_seconds 0 1 5) (text_world scenario_lines)
  = Done scenario_B_report.
Proof. vm_compute. reflexivity. Defined.

(** What [main] does when both files open and the TOAs are loaded. *)
Lemma main_done (sscanf_lf : list ascii -> option double) (stray : nat -> double)
      (cmd : Cmdline) (w : world) (r : report) :
  main sscanf_lf stray cmd w = Done r ->
  exists infile raw,
    fopen w (argv0 cmd) = Some infile
    /\ load_toas sscanf_lf cmd infile = inl (found r, raw)
    /\ found r = Z.of_nat (length raw)
    /\ let s := fst (binning WORKLEN (normalise cmd stray raw) stray (dt cmd) (numout cmd)) in
       stores_ok WORKLEN s = true
       /\ placed r = numplaced s /\ toa_loads r = derefs s /\ bin_stores r = stores s
       /\ blocks r = snd (binning WORKLEN (normalise cmd stray raw) stray (dt cmd) (numout cmd)).
Proof.
  unfold main.
  destruct (fopen w (argv0 cmd)) as [infile|] eqn:F; [|discriminate].
  destruct (load_toas sscanf_lf cmd infile) as [[n raw]|status] eqn:L; [|discriminate].
  destruct (can_create w (outfile cmd)); [|discriminate].
  pose proof (loaded_count sscanf_lf cmd w _ infile n raw F L) as Hn.
  destruct (binning WORKLEN (normalise cmd stray raw) stray (dt cmd) (numout cmd))
    as [s blks] eqn:B.
  destruct (stores_ok WORKLEN s) eqn:K; [|discriminate].
  intros [= <-]. exists infile, raw. cbn [found placed toa_loads bin_stores blocks].
  split; [reflexivity|]. split; [exact L|]. split; [exact Hn|].
  cbv zeta. rewrite B. cbn [fst snd]. repeat split. exact K.
Qed.

Lemma normalise_ignores_stray (cmd : Cmdline) (stray1 stray2 : nat -> double)
      (raw : list double) :
  normalise cmd stray1 raw = normalise cmd stray2 raw.
Proof.
  unfold normalise, origin, load.
  destruct (qsort compare_doubles raw) as [|x l]; reflexivity.
Qed.

(** X1. What lies outside the TOA array never shows: whatever the reads
    of [ddata[0]] of an empty array (lines 255 and 263) and of the
    element one past the end (line 298) return, the run ends in the
    same way, with the same counts, the same blocks and the same
    recorded reads and stores. *)
Theorem run_ignores_stray_memory
  (sscanf_lf : list ascii -> option double) (stray1 stray2 : nat -> double)
  (cmd : Cmdline) (w : world) :
  main sscanf_lf stray1 cmd w = main sscanf_lf stray2 cmd w.
Proof.
  unfold main.
  destruct (fopen w (argv0 cmd)) as [infile|]; [|reflexivity].
  destruct (load_toas sscanf_lf cmd infile) as [[n raw]|status]; [|reflexivity].
  destruct (can_create w (outfile cmd)); [|reflexivity].
  rewrite (normalise_ignores_stray cmd stray1 stray2 raw).
  set (ddata := normalise cmd stray2 raw).
  assert (I : same_sweep ddata (sweep_init ddata stray1) (sweep_init ddata stray2)).
  { unfold same_sweep, sweep_init. simpl. repeat split; auto using load_inside. }
  destruct (write_blocks_same WORKLEN ddata (dt cmd) (numout cmd) stray1 stray2
              (Z.to_nat (numwrites WORKLEN (numout cmd))) 0 _ _ I)
    as ((_ & _ & N & D & S & _) & B).
  unfold binning, stores_ok.
  destruct (write_blocks WORKLEN ddata stray1 (dt cmd) (numout cmd)
              (Z.to_nat (numwrites WORKLEN (numout cmd))) 0 (sweep_init ddata stray1))
    as [s1 b1].
  destruct (write_blocks WORKLEN ddata stray2 (dt cmd) (numout cmd)
              (Z.to_nat (numwrites WORKLEN (numout cmd))) 0 (sweep_init ddata stray2))
    as [s2 b2].
  cbn [fst snd] in *. now rewrite N, D, S, B.
Qed.

(** X2. In a run that ends with [exit(0)] the count of placed TOAs is
    the number of stores made in the buffer, and it lies between zero
    and the number of TOAs found: no TOA is counted twice. *)
Theorem placed_at_most_found
  (sscanf_lf : list ascii -> option double) (stray : nat -> double)
  (cmd : Cmdline) (w : world) (r : report) :
  main sscanf_lf stray cmd w = Done r ->
  placed r = Z.of_nat (length (bin_stores r)) /\ 0 <= placed r <= found r.
Proof.
  intros H. destruct (main_done _ _ _ _ _ H) as (infile & raw & _ & _ & Hn & M).
  cbv zeta in M. destruct M as (_ & -> & _ & -> & _).
  pose proof (placed_counts_stores WORKLEN (normalise cmd stray raw) (dt cmd) (numout cmd)
                stray) as P.
  cbv zeta in P. unfold ntoas in P. rewrite normalise_length in P. lia.
Qed.

Lemma placed_at_most_found_witness :
  placed scenario_B_report = Z.of_nat (length (bin_stores scenario_B_report))
  /\ 0 <= placed scenario_B_report <= found scenario_B_report.
Proof.
  exact (placed_at_most_found scan_decimal (fun _ => nan) (text_seconds 0 1 5)
           (text_world scenario_lines) scenario_B_report scenario_B_run).
Defined.

(** The reads through the cursor are the indices [0, 1, ..., cursor]. *)
Lemma place_toas_derefs (C : Z) ddata stray dt fuel lo hi s :
  derefs s = seq 0 (S (cursor s)) ->
  let s' := place_toas C ddata stray dt fuel lo hi s in
  derefs s' = seq 0 (S (cursor s')).
Proof.
  revert s; induction fuel as [|fuel IH]; intros s H; simpl; [exact H|].
  destruct (cursor s <? ntoas ddata)%nat; [|exact H].
  destruct (dge (toa s) hi); [exact H|].
  apply IH.
  destruct (dge (toa s) lo); cbn [advance place derefs cursor];
    rewrite H, (seq_S (S (cursor s)) 0); reflexivity.
Qed.

Lemma write_blocks_derefs (C : Z) ddata stray dt numout n ii s :
  derefs s = seq 0 (S (cursor s)) ->
  let s' := fst (write_blocks C ddata stray dt numout n ii s) in
  derefs s' = seq 0 (S (cursor s')).
Proof.
  revert ii s; induction n as [|n IH]; intros ii s H; simpl; [exact H|].
  specialize (IH (ii + 1) (place_block C ddata stray dt ii s)).
  destruct (write_blocks C ddata stray dt numout n (ii + 1)
              (place_block C ddata stray dt ii s)) as [s2 rest].
  apply IH. unfold place_block. apply place_toas_derefs. exact H.
Qed.

(** X3. In a run that ends with [exit(0)] the TOA array is read front
    to back through the cursor, each index once: the reads are at
    [0, 1, ..., k] for some [k] of at most the number of TOAs found, so
    that no read lies further than one element past the end. *)
Theorem toas_are_read_in_order
  (sscanf_lf : list ascii -> option double) (stray : nat -> double)
  (cmd : Cmdline) (w : world) (r : report) :
  main sscanf_lf stray cmd w = Done r ->
  exists k : nat,
    toa_loads r = seq 0 (S k) /\ Z.of_nat k <= found r.
Proof.
  intros H. destruct (main_done _ _ _ _ _ H) as (infile & raw & _ & _ & Hn & M).
  cbv zeta in M. destruct M as (_ & _ & -> & _).
  set (ddata := normalise cmd stray raw).
  pose proof (write_blocks_derefs WORKLEN ddata stray (dt cmd) (numout cmd)
                (Z.to_nat (numwrites WORKLEN (numout cmd))) 0 (sweep_init ddata stray)
                eq_refl) as D.
  pose proof (write_blocks_cursor_ok WORKLEN ddata (dt cmd) (numout cmd) stray
                (Z.to_nat (numwrites WORKLEN (numout cmd))) 0 (sweep_init ddata stray))
    as [K _].
  { split; simpl; [lia|]. constructor; [lia|constructor]. }
  cbv zeta in D. unfold binning.
  exists (cursor (fst (write_blocks WORKLEN ddata stray (dt cmd) (numout cmd)
                         (Z.to_nat (numwrites WORKLEN (numout cmd))) 0
                         (sweep_init ddata stray)))).
  split; [exact D|].
  unfold ntoas in K. unfold ddata in K at 3. rewrite normalise_length in K. lia.
Qed.

Lemma toas_are_read_in_order_witness :
  exists k : nat,
    toa_loads scenario_B_report = seq 0 (S k) /\ Z.of_nat k <= found scenario_B_report.
Proof.
  exact (toas_are_read_in_order scan_decimal (fun _ => nan) (text_seconds 0 1 5)
           (text_world scenario_lines) scenario_B_report scenario_B_run).
Defined.



(** ** The counts in the buffer *)














(** ** Products with a negative double, with zero and with infinity *)

Lemma mul_xval_neg (U : spec_float) (mk : positive) (ek : Z) (vu : Z) :
  valid_binary U = true -> xval U = Some vu ->
  bounded prec emax mk ek = true ->
  xval (SF64mul U (S754_finite true mk ek)) = Some (- scale_by mk ek vu).
Proof.
  intros HU EU HK. pose proof top_pos as T.
  pose proof (bounded_range _ _ HK) as (RK & _).
  destruct U as [su|su| |su mu eu]; try discriminate;
    unfold xval in EU; apply some_inj in EU; subst vu;
    unfold valid_binary in HU; unfold SF64mul, SFmul; rewrite xorb_true_r.
  - unfold xval, scale_by.
    destruct (Z.leb_spec 0 (- top)); [lia|]. destruct (Z.leb_spec top 0); [lia|].
    reflexivity.
  - unfold xval, scale_by. destruct su; cbn [signed negb].
    + destruct (Z.leb_spec (- top) (- top)); [f_equal; lia|lia].
    + destruct (Z.leb_spec top (- top)); [lia|].
      destruct (Z.leb_spec top top); [reflexivity|lia].
  - pose proof (bounded_range _ _ HU) as (RU & _).
    pose proof (finite_value_range _ _ HU) as VU.
    pose proof (pow2_pos (eu + ek + bias) ltac:(unfold bias; lia)) as Pw.
    rewrite round_aux_xval; [|now apply product_aligned|unfold bias; lia].
    f_equal. unfold scale_by.
    assert (B : - top < signed su (Z.pos mu * 2 ^ (eu + bias)) < top)
      by (destruct su; cbn [signed]; lia).
    destruct (Z.leb_spec (signed su (Z.pos mu * 2 ^ (eu + bias))) (- top)); [lia|].
    destruct (Z.leb_spec top (signed su (Z.pos mu * 2 ^ (eu + bias)))); [lia|].
    assert (W : Z.pos mu * 2 ^ (eu + bias) * (Z.pos mk * 2 ^ (ek + 1074)) =
                Z.pos (mu * mk) * 2 ^ (eu + ek + bias) * 2 ^ 1074).
    { rewrite Pos2Z.inj_mul.
      assert (E1 : 2 ^ (eu + bias) * 2 ^ (ek + 1074) = 2 ^ (eu + ek + bias + 1074))
        by (rewrite <- Z.pow_add_r by (unfold bias; lia); f_equal; lia).
      assert (E2 : 2 ^ (eu + ek + bias) * 2 ^ 1074 = 2 ^ (eu + ek + bias + 1074))
        by (rewrite <- Z.pow_add_r by (unfold bias; lia); reflexivity).
      replace (Z.pos mu * 2 ^ (eu + bias) * (Z.pos mk * 2 ^ (ek + 1074)))
        with (Z.pos mu * Z.pos mk * (2 ^ (eu + bias) * 2 ^ (ek + 1074))) by ring.
      replace (Z.pos mu * Z.pos mk * 2 ^ (eu + ek + bias) * 2 ^ 1074)
        with (Z.pos mu * Z.pos mk * (2 ^ (eu + ek + bias) * 2 ^ 1074)) by ring.
      now rewrite E1, E2. }
    rewrite signed_mul, W, <- signed_mul, Z.div_mul by lia.
    destruct su; cbn [signed negb].
    + rewrite round_ext_neg by lia. rewrite !Z.opp_involutive. reflexivity.
    + now rewrite round_ext_pos by lia.
Qed.

Lemma ltb_xval (x y : float) (vx vy : Z) :
  xval (Prim2SF x) = Some vx -> xval (Prim2SF y) = Some vy ->
  (PrimFloat.ltb x y = true <-> vx < vy).
Proof.
  intros Hx Hy. rewrite ltb_spec. unfold SFltb.
  rewrite (compare_xval _ _ vx vy (Prim2SF_valid x) (Prim2SF_valid y) Hx Hy).
  destruct (Z.compare_spec vx vy); split; intros; try lia; try reflexivity;
    discriminate.
Qed.

Lemma SF64mul_comm (x y : spec_float) : SF64mul x y = SF64mul y x.
Proof.
  unfold SF64mul, SFmul.
  destruct x as [sx|sx| |sx mx ex], y as [sy|sy| |sy my ey];
    try reflexivity; try (now rewrite xorb_comm).
  now rewrite xorb_comm, Pos.mul_comm, Z.add_comm.
Qed.

Lemma mul_comm (x y : float) : (x * y)%float = (y * x)%float.
Proof.
  rewrite <- (SF2Prim_Prim2SF (x * y)), <- (SF2Prim_Prim2SF (y * x)).
  now rewrite !mul_spec, SF64mul_comm.
Qed.

Lemma round_one : round_ext (1 * 2 ^ bias) = 1 * 2 ^ bias.
Proof.
  assert (E : 1 * 2 ^ bias = signed false (Z.pos (2 ^ 52) * 2 ^ (-52 + bias))).
  { cbn [signed]. change (Z.pos (2 ^ 52)) with (2 ^ 52).
    rewrite <- Z.pow_add_r by (unfold bias; lia). now rewrite Z.mul_1_l. }
  rewrite E. apply (round_exact false (2 ^ 52) (-52)). reflexivity.
Qed.

(** A [long] of at least 1 converts to a positive finite double. *)
Lemma double_of_long_pos (n : Z) :
  1 <= n < 2 ^ 63 ->
  exists m e, Prim2SF (double_of_long n) = S754_finite false m e.
Proof.
  intros H. pose proof (double_of_long_xval n ltac:(lia)) as X.
  pose proof (double_of_long_finite n ltac:(lia)) as F.
  apply fin_of_is_finite in F.
  pose proof (round_ext_mono (1 * 2 ^ bias) (n * 2 ^ bias)
                ltac:(apply Z.mul_le_mono_nonneg_r; [apply Z.pow_nonneg|]; lia)) as M.
  rewrite round_one in M.
  pose proof (pow2_pos bias ltac:(unfold bias; lia)) as P.
  destruct (Prim2SF (double_of_long n)) as [s|s| |s m e]; try discriminate.
  - unfold xval in X. apply some_inj in X. lia.
  - unfold xval in X. apply some_inj in X.
    destruct s; [|eauto]. cbn [signed] in X.
    pose proof (Z.pow_nonneg 2 (e + bias) ltac:(lia)).
    assert (0 <= Z.pos m * 2 ^ (e + bias)) by lia. lia.
Qed.



(** ** Windows that hold no TOA *)

(** When whatever is not before the start of the window is not before
    its end either, the loop places nothing. *)
Lemma place_toas_idle (C : Z) ddata stray dt fuel lo hi s :
  (forall t, dge t lo = true -> dge t hi = true) ->
  let s' := place_toas C ddata stray dt fuel lo hi s in
  fdata s' = fdata s /\ numplaced s' = numplaced s /\ stores s' = stores s.
Proof.
  intros W. revert s; induction fuel as [|fuel IH]; intros s; simpl; [auto|].
  destruct (cursor s <? ntoas ddata)%nat; [|auto].
  destruct (dge (toa s) hi) eqn:H; [auto|].
  destruct (dge (toa s) lo) eqn:L.
  - rewrite (W _ L) in H. discriminate H.
  - apply (IH (advance ddata stray s)).
Qed.

Lemma zero_blocks_concat (C numout : Z) :
  1 <= C -> 0 <= numout ->
  concat (map (fun k => repeat 0 (Z.to_nat (numtowrite C numout (0 + Z.of_nat k))))
              (seq 0 (Z.to_nat (numwrites C numout))))
  = repeat 0 (Z.to_nat numout).
Proof.
  intros HC Hn.
  rewrite <- (map_map (fun k => numtowrite C numout (0 + Z.of_nat k))
                      (fun n => repeat 0 (Z.to_nat n))).
  rewrite concat_zeros.
  - do 2 f_equal. simpl. rewrite numtowrite_schedule by assumption.
    rewrite sum_repeat.
    pose proof (Z.div_pos numout C ltac:(lia) ltac:(lia)).
    pose proof (Z.div_mod numout C ltac:(lia)).
    destruct (Z.eqb_spec (numout mod C) 0); simpl; lia.
  - apply Forall_map, Forall_forall. intros k _.
    apply (numtowrite_bounds C numout HC Hn).
Qed.

Lemma write_blocks_idle (C : Z) ddata stray dt numout n ii s :
  1 <= C -> 0 <= numout ->
  (forall j t, ii <= j < ii + Z.of_nat n ->
               dge t (lotime C dt j) = true -> dge t (hitime C dt j) = true) ->
  let r := write_blocks C ddata stray dt numout n ii s in
  numplaced (fst r) = numplaced s
  /\ stores (fst r) = stores s
  /\ snd r = map (fun k => repeat 0 (Z.to_nat (numtowrite C numout (ii + Z.of_nat k))))
                 (seq 0 n).
Proof.
  intros HC Hn. revert ii s; induction n as [|n IH]; intros ii s W.
  - simpl. auto.
  - cbn [write_blocks].
    destruct (place_toas_idle C ddata stray dt (ntoas ddata - cursor s)
                (lotime C dt ii) (hitime C dt ii) (clear C s)) as (F & P & S).
    { intros t. apply W. lia. }
    fold (place_block C ddata stray dt ii s) in F, P, S.
    specialize (IH (ii + 1) (place_block C ddata stray dt ii s)).
    destruct (write_blocks C ddata stray dt numout n (ii + 1)
                (place_block C ddata stray dt ii s)) as [s2 rest].
    cbn [fst snd] in *.
    destruct IH as (I1 & I2 & I3); [intros j t Hj; apply W; lia|].
    cbn [clear fdata numplaced stores] in F, P, S.
    repeat split; try congruence.
    cbn [seq map]. f_equal.
    + unfold fwrite. rewrite F, Z.add_0_r.
      pose proof (numtowrite_bounds C numout HC Hn ii).
      apply firstn_zeros. lia.
    + rewrite I3, <- seq_shift, map_map.
      apply map_ext; intros k. do 3 f_equal. lia.
Qed.

Lemma scale_by_zero (mk : positive) (ek : Z) : scale_by mk ek 0 = 0.
Proof.
  unfold scale_by. pose proof top_pos.
  destruct (Z.leb_spec 0 (- top)); [lia|]. destruct (Z.leb_spec top 0); [lia|].
  reflexivity.
Qed.

Lemma same_class_leb (x y : double) :
  Prim2SF x = Prim2SF y -> Prim2SF x <> S754_nan -> PrimFloat.leb x y = true.
Proof.
  intros E N. rewrite leb_spec, <- E. unfold SFleb.
  now rewrite SFcompare_refl.
Qed.

(** The start of the next block is not after the start of this one
    when [dt] is not above zero, unless the start is NaN. *)
Lemma windows_descend (C : Z) (dt : double) (j : Z) :
  1 <= C < 2 ^ 63 -> 0 <= j -> j + 1 < 2 ^ 63 ->
  PrimFloat.ltb 0 dt = false ->
  PrimFloat.leb (hitime C dt j) (lotime C dt j) = true
  \/ Prim2SF (lotime C dt j) = S754_nan.
Proof.
  intros HC Hj Hj1 Hd.
  destruct (double_of_long_pos C HC) as (mC & eC & EC).
  pose proof (Prim2SF_valid (double_of_long C)) as VC. rewrite EC in VC.
  cbn [valid_binary] in VC.
  unfold hitime, lotime.
  assert (B : Prim2SF (blockt C dt) = SF64mul (Prim2SF dt) (S754_finite false mC eC)).
  { unfold blockt. now rewrite mul_comm, mul_spec, EC. }
  pose proof (double_of_long_xval j ltac:(lia)) as Xj.
  pose proof (double_of_long_xval (j + 1) ltac:(lia)) as Xj1.
  pose proof (fin_of_is_finite _ (double_of_long_finite j ltac:(lia))) as Fj.
  pose proof (fin_of_is_finite _ (double_of_long_finite (j + 1) ltac:(lia))) as Fj1.
  pose proof (round_ext_mono (j * 2 ^ bias) ((j + 1) * 2 ^ bias)
                ltac:(apply Z.mul_le_mono_nonneg_r; [apply Z.pow_nonneg|]; lia)) as M.
  set (b := blockt C dt) in *.
  destruct (Prim2SF b) as [sb|sb| |sb mb eb] eqn:Eb.
  - (* the block time is a zero: every start is a zero *)
    left. rewrite leb_spec, !mul_spec, Eb.
    destruct (Prim2SF (double_of_long j)), (Prim2SF (double_of_long (j + 1)));
      try discriminate; reflexivity.
  - (* the block time is infinite *)
    destruct (Z.eq_dec j 0) as [->|Nz].
    + right. rewrite mul_spec, Eb. reflexivity.
    + left. destruct (double_of_long_pos j ltac:(lia)) as (m1 & e1 & E1).
      destruct (double_of_long_pos (j + 1) ltac:(lia)) as (m2 & e2 & E2).
      rewrite leb_spec, !mul_spec, Eb, E1, E2. cbn [SF64mul SFmul xorb].
      destruct sb; reflexivity.
  - right. rewrite mul_spec, Eb.
    destruct (Prim2SF (double_of_long j)); reflexivity.
  - (* the block time is finite: it is negative *)
    left.
    pose proof (Prim2SF_valid b) as Vb. rewrite Eb in Vb. cbn [valid_binary] in Vb.
    assert (sb = true) as ->.
    { destruct sb; [reflexivity|exfalso].
      (* a positive block time needs a positive [dt] *)
      destruct (Prim2SF dt) as [sd|sd| |sd md ed] eqn:D.
      - cbn [SF64mul SFmul] in B. discriminate B.
      - cbn [SF64mul SFmul] in B. discriminate B.
      - cbn [SF64mul SFmul] in B. discriminate B.
      - pose proof (Prim2SF_valid dt) as Vd. rewrite D in Vd.
        destruct sd.
        + (* dt negative: the product is not above zero *)
          pose proof (mul_xval_pos (S754_finite true md ed) mC eC _ Vd eq_refl VC) as X.
          rewrite <- B in X. cbn [xval signed] in X. apply some_inj in X.
          pose proof (scale_by_mono mC eC (- (Z.pos md * 2 ^ (ed + bias))) 0
                        ltac:(apply bounded_range in VC; lia)) as S.
          rewrite scale_by_zero in S.
          pose proof (Z.pow_nonneg 2 (ed + bias) ltac:(lia)).
          pose proof (pow2_pos (eb + bias)) as Pb.
          cbn [valid_binary] in Vd.
          pose proof (bounded_range _ _ Vb) as [Rb _].
          specialize (Pb ltac:(unfold bias; lia)).
          assert (0 <= Z.pos md * 2 ^ (ed + bias)) by lia.
          specialize (S ltac:(lia)).
          assert (0 < Z.pos mb * 2 ^ (eb + bias)) by lia.
          lia.
        + (* dt positive: excluded *)
          rewrite ltb_spec, D in Hd. discriminate Hd. }
    apply (leb_xval _ _ (- scale_by mb eb (round_ext ((j + 1) * 2 ^ bias)))
                    (- scale_by mb eb (round_ext (j * 2 ^ bias)))).
    + rewrite mul_spec, Eb. apply mul_xval_neg; auto using Prim2SF_valid.
    + rewrite mul_spec, Eb. apply mul_xval_neg; auto using Prim2SF_valid.
    + pose proof (scale_by_mono mb eb _ _ ltac:(apply bounded_range in Vb; lia) M). lia.
Qed.

Lemma windows_empty (C : Z) (dt : double) (numout : Z) :
  1 <= C < 2 ^ 63 -> 0 <= numout < 2 ^ 63 ->
  PrimFloat.ltb 0 dt = false ->
  forall j t, 0 <= j < numwrites C numout ->
              dge t (lotime C dt j) = true -> dge t (hitime C dt j) = true.
Proof.
  intros HC Hn Hd j t Hj L.
  pose proof (numwrites_le C numout ltac:(lia) ltac:(lia)) as NW.
  destruct (windows_descend C dt j HC ltac:(lia) ltac:(lia) Hd) as [D|N].
  - unfold dge in *. exact (le_double_trans _ _ _ D L).
  - unfold dge in L. rewrite leb_spec, N in L. discriminate L.
Qed.

(** X5. A bin width that is not above zero (zero, negative or NaN) is
    no error: when the files open, the run ends with [exit(0)], makes
    no store, reports zero TOAs placed and writes [numout] zeros,
    whatever the TOAs are. *)
Theorem nonpositive_dt_places_nothing
  (sscanf_lf : list ascii -> option double) (stray : nat -> double)
  (cmd : Cmdline) (w : world) (infile : FILE) (n : Z) (raw : list double) :
  fopen w (argv0 cmd) = Some infile ->
  load_toas sscanf_lf cmd infile = inl (n, raw) ->
  can_create w (outfile cmd) = true ->
  0 <= numout cmd < 2 ^ 63 ->
  PrimFloat.ltb 0 (dt cmd) = false ->
  exists r,
    main sscanf_lf stray cmd w = Done r
    /\ found r = n
    /\ placed r = 0
    /\ bin_stores r = []
    /\ series r = repeat 0 (Z.to_nat (numout cmd)).
Proof.
  intros Hin Hload Hout Hn Hd. unfold main. rewrite Hin, Hload, Hout.
  assert (HC : 1 <= WORKLEN < 2 ^ 63) by (unfold WORKLEN; lia).
  destruct (write_blocks_idle WORKLEN (normalise cmd stray raw) stray (dt cmd) (numout cmd)
              (Z.to_nat (numwrites WORKLEN (numout cmd))) 0
              (sweep_init (normalise cmd stray raw) stray) ltac:(lia) ltac:(lia))
    as (P & S & B).
  { intros j t Hj. apply (windows_empty WORKLEN (dt cmd) (numout cmd) HC Hn Hd).
    pose proof (numwrites_nonneg WORKLEN (numout cmd) ltac:(lia) ltac:(lia)). lia. }
  unfold binning, stores_ok.
  destruct (write_blocks WORKLEN (normalise cmd stray raw) stray (dt cmd) (numout cmd)
              (Z.to_nat (numwrites WORKLEN (numout cmd))) 0
              (sweep_init (normalise cmd stray raw) stray)) as [s blks].
  cbn [fst snd sweep_init numplaced stores] in P, S, B.
  rewrite S. cbn [forallb].
  eexists. split; [reflexivity|]. unfold series. cbn [found placed bin_stores blocks].
  repeat split; auto.
  rewrite B. apply zero_blocks_concat; lia.
Qed.

(** Scenario B with [dt = -1]. *)
Lemma nonpositive_dt_places_nothing_witness :
  exists r,
    main scan_decimal (fun _ => nan) (text_seconds 0 (-1) 5) (text_world scenario_lines)
    = Done r
    /\ found r = 4
    /\ placed r = 0
    /\ bin_stores r = []
    /\ series r = [0; 0; 0; 0; 0].
Proof.
  exact (nonpositive_dt_places_nothing scan_decimal (fun _ => nan) (text_seconds 0 (-1) 5)
           (text_world scenario_lines) _ 4 scenario_toas eq_refl eq_refl eq_refl
           ltac:(simpl; lia) eq_refl).
Defined.



(** ** The comparison function *)

Lemma compare_doubles_xval (a b : double) (va vb : Z) :
  xval (Prim2SF a) = Some va -> xval (Prim2SF b) = Some vb ->
  compare_doubles a b = match va ?= vb with Lt => -1 | Eq => 0 | Gt => 1 end.
Proof.
  intros Ha Hb. unfold compare_doubles, dgt, dlt.
  pose proof (ltb_xval a b va vb Ha Hb) as L1.
  pose proof (ltb_xval b a vb va Hb Ha) as L2.
  destruct (Z.compare_spec va vb);
    destruct (PrimFloat.ltb a b), (PrimFloat.ltb b a); simpl; try reflexivity;
    exfalso; intuition lia.
Qed.

(** X6. On doubles that are not NaN, [compare_doubles] is a comparison
    function as [qsort] needs one: its result is -1, 0 or 1, swapping
    the arguments negates it, it is negative exactly when [a < b] and
    zero exactly when [a == b], and [<= 0] is transitive. *)
Theorem compare_doubles_orders (a b c : double) :
  PrimFloat.is_nan a = false -> PrimFloat.is_nan b = false ->
  PrimFloat.is_nan c = false ->
  (compare_doubles a b = -1 \/ compare_doubles a b = 0 \/ compare_doubles a b = 1)
  /\ compare_doubles b a = - compare_doubles a b
  /\ (compare_doubles a b < 0 <-> PrimFloat.ltb a b = true)
  /\ (compare_doubles a b = 0 <-> PrimFloat.eqb a b = true)
  /\ (compare_doubles a b <= 0 -> compare_doubles b c <= 0 -> compare_doubles a c <= 0).
Proof.
  intros Na Nb Nc.
  destruct (xval_not_nan a Na) as [va Ea], (xval_not_nan b Nb) as [vb Eb],
           (xval_not_nan c Nc) as [vc Ec].
  rewrite (compare_doubles_xval a b va vb Ea Eb), (compare_doubles_xval b a vb va Eb Ea),
    (compare_doubles_xval b c vb vc Eb Ec), (compare_doubles_xval a c va vc Ea Ec).
  pose proof (ltb_xval a b va vb Ea Eb) as L.
  assert (Q : PrimFloat.eqb a b = true <-> va = vb).
  { rewrite eqb_spec. unfold SFeqb.
    rewrite (compare_xval _ _ va vb (Prim2SF_valid a) (Prim2SF_valid b) Ea Eb).
    destruct (Z.compare_spec va vb); split; intros; try lia; try reflexivity;
      discriminate. }
  destruct (Z.compare_spec va vb), (Z.compare_spec vb vc), (Z.compare_spec va vc),
           (Z.compare_spec vb va);
    try lia; repeat split; try tauto; intros; try lia; try (intuition lia).
Qed.

Lemma compare_doubles_orders_witness :
  (compare_doubles 1 2 = -1 \/ compare_doubles 1 2 = 0 \/ compare_doubles 1 2 = 1)
  /\ compare_doubles 2 1 = - compare_doubles 1 2
  /\ (compare_doubles 1 2 < 0 <-> PrimFloat.ltb 1 2 = true)
  /\ (compare_doubles 1 2 = 0 <-> PrimFloat.eqb 1 2 = true)
  /\ (compare_doubles 1 2 <= 0 -> compare_doubles 2 3 <= 0 -> compare_doubles 1 3 <= 0).
Proof.
  exact (compare_doubles_orders 1 2 3 eq_refl eq_refl eq_refl).
Defined.

(** X7. A NaN compares equal to every double, in both positions: both
    tests of line 47 are false. *)
Theorem compare_doubles_nan (a b : double) :
  PrimFloat.is_nan a = true ->
  compare_doubles a b = 0 /\ compare_doubles b a = 0.
Proof.
  unfold PrimFloat.is_nan. rewrite eqb_spec. unfold SFeqb. intros H.
  assert (E : Prim2SF a = S754_nan).
  { destruct (Prim2SF a) as [s|s| |s m e] eqn:A; try reflexivity; exfalso.
    - destruct s; discriminate H.
    - destruct s; discriminate H.
    - rewrite SFcompare_refl in H; discriminate. }
  unfold compare_doubles, dgt, dlt. rewrite !ltb_spec, E. unfold SFltb.
  destruct (Prim2SF b); split; reflexivity.
Qed.

Lemma compare_doubles_nan_witness :
  compare_doubles nan 1 = 0 /\ compare_doubles 1 nan = 0.
Proof.
  exact (compare_doubles_nan nan 1 eq_refl).
Defined.





(** ** Lines that do not fit the buffer, and a last line without newline *)

Lemma no_newline_ok (l : list ascii) : no_newline l = true -> ~ In newline l.
Proof.
  unfold no_newline. rewrite forallb_forall. intros H I.
  specialize (H _ I). now rewrite Ascii.eqb_refl in H.
Qed.

Lemma fits_bufferb_ok (ls : list string) :
  forallb fits_bufferb ls = true -> Forall fits_buffer ls.
Proof.
  rewrite forallb_forall, Forall_forall. intros H l I.
  specialize (H l I). unfold fits_bufferb in H. apply andb_prop in H as [H1 H2].
  split; [now apply Nat.leb_le|now apply no_newline_ok].
Qed.

Lemma nonblank_ok (ls : list string) :
  forallb (fun l => negb (String.eqb l EmptyString)) ls = true -> Forall nonblank ls.
Proof.
  rewrite forallb_forall, Forall_forall. intros H l I E.
  specialize (H l I). subst l. discriminate H.
Qed.

(** [fgets] fills the buffer when no newline comes in time. *)
Lemma fgets_chars_full (l tl : list ascii) :
  ~ In newline l ->
  fgets_chars (length l) (l ++ tl) = (l, tl, false).
Proof.
  induction l as [|c l IH]; intros Hnl; cbn [length fgets_chars app]; [reflexivity|].
  destruct (Ascii.eqb_spec c newline) as [E|E].
  - exfalso. apply Hnl. now left.
  - rewrite IH; [reflexivity|]. intros H. apply Hnl. now right.
Qed.

(** [fgets] at the end of the file, with room left in the buffer. *)
Lemma fgets_chars_eof (l : list ascii) (n : nat) :
  ~ In newline l -> (length l < n)%nat ->
  fgets_chars n l = (l, [], true).
Proof.
  revert n; induction l as [|c l IH]; intros [|n] Hnl Hlen;
    cbn [length] in Hlen; try lia; cbn [fgets_chars]; [reflexivity|].
  destruct (Ascii.eqb_spec c newline) as [E|E].
  - exfalso. apply Hnl. now left.
  - rewrite IH; [reflexivity| |lia]. intros H. apply Hnl. now right.
Qed.

Section LongLines.

Variable sscanf_lf : list ascii -> option double.

(** A line that fits, in front of anything. *)
Lemma read_lines_line (fuel : nat) (c : list ascii) (l : string) (rest : list ascii) :
  fits_buffer l ->
  read_lines sscanf_lf (S fuel) (mkFILE c (list_ascii_of_string l ++ newline :: rest) false) =
  if String.eqb l EmptyString then []
  else match line_toa sscanf_lf l with
       | Some x => x :: read_lines sscanf_lf fuel (mkFILE c rest false)
       | None => read_lines sscanf_lf fuel (mkFILE c rest false)
       end.
Proof.
  intros [Hlen Hnl]. rewrite string_length_chars in Hlen.
  cbn [read_lines]. unfold fgets. cbn [unread contents at_eof].
  change (80 - 1)%nat with 79%nat.
  rewrite fgets_chars_line by (auto; lia).
  destruct (String.eqb l EmptyString) eqn:E.
  - apply empty_string_chars in E. rewrite E. reflexivity.
  - assert (N : list_ascii_of_string l <> []).
    { intros H. apply empty_string_chars in H. congruence. }
    destruct (list_ascii_of_string l ++ [newline]) as [|a tl] eqn:A.
    { destruct (list_ascii_of_string l); discriminate. }
    rewrite <- A. cbn [orb negb at_eof andb].
    unfold toa_of_line, line_toa.
    rewrite !first_is_app by assumption.
    assert (F : first_is newline (list_ascii_of_string l) = false).
    { destruct (list_ascii_of_string l) as [|b m]; [congruence|]. simpl.
      destruct (Ascii.eqb_spec b newline); [|reflexivity].
      exfalso. apply Hnl. now left. }
    rewrite F. cbn [negb].
    destruct (first_is hash (list_ascii_of_string l)); cbn [negb].
    + reflexivity.
    + destruct (list_ascii_of_string l); [congruence|reflexivity].
Qed.

(** Lines that fit and are not empty, in front of anything. *)
Lemma read_lines_prefix (ls : list string) (rest : list ascii) :
  Forall fits_buffer ls -> Forall nonblank ls ->
  forall fuel c,
  read_lines sscanf_lf (length ls + fuel) (mkFILE c (text_of_lines ls ++ rest) false) =
  toas_of_lines sscanf_lf ls ++ read_lines sscanf_lf fuel (mkFILE c rest false).
Proof.
  induction 1 as [|l ls Hl Hls IH]; intros Hne fuel c; [reflexivity|].
  inversion Hne as [|? ? Nl Nls]; subst.
  rewrite text_of_lines_cons, <- app_assoc. cbn [length Nat.add app].
  rewrite read_lines_line by assumption.
  destruct (String.eqb_spec l EmptyString) as [E|_]; [contradiction|].
  rewrite IH by assumption. cbn [toas_of_lines].
  destruct (line_toa sscanf_lf l); reflexivity.
Qed.

(** A piece of 79 characters without a newline is read as a line, and
    the reading goes on behind it. *)
Lemma read_lines_piece (fuel : nat) (c l rest : list ascii) :
  length l = 79%nat -> ~ In newline l ->
  read_lines sscanf_lf (S fuel) (mkFILE c (l ++ rest) false) =
  toa_list sscanf_lf l ++ read_lines sscanf_lf fuel (mkFILE c rest false).
Proof.
  intros Hlen Hnl. cbn [read_lines]. unfold fgets. cbn [unread contents at_eof].
  change (80 - 1)%nat with 79%nat. rewrite <- Hlen.
  rewrite fgets_chars_full by assumption.
  destruct l as [|a tl]; [discriminate Hlen|].
  cbn [orb negb andb at_eof].
  assert (F : first_is newline (a :: tl) = false).
  { simpl. destruct (Ascii.eqb_spec a newline); [|reflexivity].
    exfalso. apply Hnl. now left. }
  rewrite F. cbn [negb]. unfold toa_list.
  destruct (toa_of_line sscanf_lf (a :: tl)); reflexivity.
Qed.

(** A bare newline ends the reading. *)
Lemma read_lines_blank (fuel : nat) (c rest : list ascii) :
  read_lines sscanf_lf fuel (mkFILE c (newline :: rest) false) = [].
Proof.
  destruct fuel as [|fuel]; [reflexivity|].
  cbn [read_lines]. unfold fgets. cbn [unread contents at_eof].
  change (80 - 1)%nat with 79%nat. cbn [fgets_chars].
  rewrite Ascii.eqb_refl. cbn [orb negb andb at_eof first_is].
  rewrite Ascii.eqb_refl. reflexivity.
Qed.

(** What is left of the file without a newline, shorter than the
    buffer, is read together with the end of the file and dropped. *)
Lemma read_lines_tail (fuel : nat) (c tail : list ascii) :
  (length tail <= 78)%nat -> ~ In newline tail ->
  read_lines sscanf_lf fuel (mkFILE c tail false) = [].
Proof.
  intros Hlen Hnl. destruct fuel as [|fuel]; [reflexivity|].
  cbn [read_lines]. unfold fgets. cbn [unread contents at_eof].
  change (80 - 1)%nat with 79%nat.
  rewrite fgets_chars_eof by (auto; lia).
  destruct tail; reflexivity.
Qed.

(** A piece that fits, in front of anything. *)
Lemma read_lines_chunk (fuel : nat) (c l rest : list ascii) :
  l <> [] -> (length l <= 78)%nat -> ~ In newline l ->
  read_lines sscanf_lf (S fuel) (mkFILE c (l ++ newline :: rest) false) =
  toa_list sscanf_lf (l ++ [newline]) ++ read_lines sscanf_lf fuel (mkFILE c rest false).
Proof.
  intros N Hlen Hnl. cbn [read_lines]. unfold fgets. cbn [unread contents at_eof].
  change (80 - 1)%nat with 79%nat.
  rewrite fgets_chars_line by (auto; lia).
  destruct l as [|a tl]; [congruence|]. cbn [app orb negb andb at_eof].
  assert (F : first_is newline (a :: tl ++ [newline]) = false).
  { simpl. destruct (Ascii.eqb_spec a newline); [|reflexivity].
    exfalso. apply Hnl. now left. }
  rewrite F. cbn [negb]. unfold toa_list. cbn [app].
  destruct (toa_of_line sscanf_lf (a :: tl ++ [newline])); reflexivity.
Qed.

(** Lines that fit, in front of something that is not read as a TOA. *)
Lemma read_lines_until (ls : list string) (rest : list ascii) :
  Forall fits_buffer ls ->
  (forall fuel c, read_lines sscanf_lf fuel (mkFILE c rest false) = []) ->
  forall fuel c, (length ls < fuel)%nat ->
  read_lines sscanf_lf fuel (mkFILE c (text_of_lines ls ++ rest) false) =
  toas_of_lines sscanf_lf (before_blank ls).
Proof.
  intros Hls Hrest. induction Hls as [|l ls Hl Hls IH]; intros fuel c Hf.
  - apply Hrest.
  - destruct fuel as [|fuel]; [simpl in Hf; lia|].
    rewrite text_of_lines_cons, <- app_assoc. cbn [app].
    rewrite read_lines_line by assumption. cbn [before_blank].
    destruct (String.eqb l EmptyString); [reflexivity|]. cbn [toas_of_lines].
    rewrite IH by (simpl in Hf; lia).
    destruct (line_toa sscanf_lf l); reflexivity.
Qed.

End LongLines.

Lemma text_of_lines_length (ls : list string) (tl : list ascii) :
  (length ls <= length (text_of_lines ls ++ tl))%nat.
Proof.
  rewrite length_app. pose proof (lines_le_chars ls). lia.
Qed.

(** X8. A line of exactly 79 characters ends the reading.  [fgets]
    fills the 80-byte buffer with the line and leaves its newline in
    the stream; the next call returns the bare newline, which both
    loops take for an empty line.  The line itself is tested (without
    its newline); no later line is read. *)
Theorem full_line_ends_reading
  (sscanf_lf : list ascii -> option double) (ls : list string) (l rest : list ascii) :
  Forall fits_buffer ls -> Forall nonblank ls ->
  length l = 79%nat -> ~ In newline l ->
  let txt := text_of_lines ls ++ l ++ newline :: rest in
  let toas := toas_of_lines sscanf_lf ls ++ toa_list sscanf_lf l in
  read_toas sscanf_lf (mkFILE txt txt false) = (Z.of_nat (length toas), toas).
Proof.
  intros Hls Hne Hlen Hnl txt toas.
  assert (R : read_pass sscanf_lf (mkFILE txt txt false) = toas).
  { unfold read_pass. cbn [unread].
    rewrite (read_lines_fuel sscanf_lf _ (length ls + S (S (length txt))))
      by (cbn [unread]; lia).
    change (mkFILE txt txt false)
      with (mkFILE txt (text_of_lines ls ++ l ++ newline :: rest) false).
    rewrite read_lines_prefix by assumption.
    rewrite read_lines_piece by assumption.
    rewrite read_lines_blank, app_nil_r. reflexivity. }
  unfold read_toas, rewind. cbn [contents]. now rewrite R.
Qed.


Lemma full_line_ends_reading_witness :
  let l := list_ascii_of_string "1.5" ++ repeat " "%char 76 in
  let txt := text_of_lines ["0.5"%string] ++ l ++ newline :: list_ascii_of_string "2.5" in
  read_toas scan_decimal (mkFILE txt txt false) = (2, [0.5; 1.5]%float).
Proof.
  exact (full_line_ends_reading scan_decimal ["0.5"%string]
           (list_ascii_of_string "1.5" ++ repeat " "%char 76)
           (list_ascii_of_string "2.5")
           (fits_bufferb_ok ["0.5"%string] eq_refl) (nonblank_ok ["0.5"%string] eq_refl)
           eq_refl
           (no_newline_ok (list_ascii_of_string "1.5" ++ repeat " "%char 76) eq_refl)).
Defined.

(** X9. A line of 80 to 157 characters is read as two lines: its first
    79 characters, and the rest with the newline.  Each piece is tested
    on its own, so that the rest of a long comment is read as a TOA
    when it scans as a number; the reading goes on with the next
    line. *)
Theorem long_line_is_split
  (sscanf_lf : list ascii -> option double) (ls : list string) (l : list ascii)
  (ls' : list string) :
  Forall fits_buffer ls -> Forall nonblank ls ->
  (79 < length l <= 157)%nat -> ~ In newline l ->
  Forall fits_buffer ls' ->
  let txt := text_of_lines ls ++ l ++ newline :: text_of_lines ls' in
  let toas := toas_of_lines sscanf_lf ls
              ++ toa_list sscanf_lf (firstn 79 l)
              ++ toa_list sscanf_lf (skipn 79 l ++ [newline])
              ++ toas_of_lines sscanf_lf (before_blank ls') in
  read_toas sscanf_lf (mkFILE txt txt false) = (Z.of_nat (length toas), toas).
Proof.
  intros Hls Hne Hlen Hnl Hls' txt toas.
  assert (L1 : length (firstn 79 l) = 79%nat) by (rewrite firstn_length_le; lia).
  assert (L2 : (0 < length (skipn 79 l) <= 78)%nat) by (rewrite length_skipn; lia).
  assert (N1 : ~ In newline (firstn 79 l)).
  { intros H. apply Hnl. rewrite <- (firstn_skipn 79 l). apply in_or_app. now left. }
  assert (N2 : ~ In newline (skipn 79 l)).
  { intros H. apply Hnl. rewrite <- (firstn_skipn 79 l). apply in_or_app. now right. }
  assert (R : read_pass sscanf_lf (mkFILE txt txt false) = toas).
  { unfold read_pass. cbn [unread].
    assert (Lt : (length ls' <= length txt)%nat).
    { unfold txt. rewrite !length_app. cbn [length].
      pose proof (lines_le_chars ls'). lia. }
    rewrite (read_lines_fuel sscanf_lf _ (length ls + S (S (S (length txt)))))
      by (cbn [unread]; lia).
    change (mkFILE txt txt false)
      with (mkFILE txt (text_of_lines ls ++ l ++ newline :: text_of_lines ls') false).
    rewrite read_lines_prefix by assumption.
    rewrite <- (firstn_skipn 79 l) at 1. rewrite <- app_assoc.
    rewrite read_lines_piece by assumption.
    rewrite read_lines_chunk; [|destruct (skipn 79 l); [simpl in L2; lia|congruence]|lia|exact N2].
    rewrite <- (app_nil_r (text_of_lines ls')).
    rewrite read_lines_until; [reflexivity|assumption| |lia].
    intros [|fuel] c; reflexivity. }
  unfold read_toas, rewind. cbn [contents]. now rewrite R.
Qed.

(** A comment of 82 characters: what follows its first 79 characters is
    read as a TOA. *)
Lemma long_line_is_split_witness :
  let l := list_ascii_of_string "# " ++ repeat "-"%char 77 ++ list_ascii_of_string "2.5" in
  let txt := text_of_lines ["0.5"%string] ++ l ++ newline :: text_of_lines ["1.5"%string] in
  read_toas scan_decimal (mkFILE txt txt false) = (3, [0.5; 2.5; 1.5]%float).
Proof.
  exact (long_line_is_split scan_decimal ["0.5"%string]
           (list_ascii_of_string "# " ++ repeat "-"%char 77 ++ list_ascii_of_string "2.5")
           ["1.5"%string]
           (fits_bufferb_ok ["0.5"%string] eq_refl) (nonblank_ok ["0.5"%string] eq_refl)
           ltac:(vm_compute; lia)
           (no_newline_ok (list_ascii_of_string "# " ++ repeat "-"%char 77
                           ++ list_ascii_of_string "2.5") eq_refl)
           (fits_bufferb_ok ["1.5"%string] eq_refl)).
Defined.

(** X10. What follows the last newline of the file, when it is shorter
    than the buffer, is never loaded: [fgets] reads it together with
    the end of the file, and the [feof] test leaves the loop.  The TOAs
    loaded are those of the complete lines. *)
Theorem unterminated_tail_is_dropped
  (sscanf_lf : list ascii -> option double) (ls : list string) (tail : list ascii) :
  Forall fits_buffer ls -> (length tail <= 78)%nat -> ~ In newline tail ->
  let txt := text_of_lines ls ++ tail in
  let toas := toas_of_lines sscanf_lf (before_blank ls) in
  read_toas sscanf_lf (mkFILE txt txt false) = (Z.of_nat (length toas), toas).
Proof.
  intros Hls Hlen Hnl txt toas.
  assert (R : read_pass sscanf_lf (mkFILE txt txt false) = toas).
  { unfold read_pass. cbn [unread].
    change (mkFILE txt txt false) with (mkFILE txt (text_of_lines ls ++ tail) false).
    apply read_lines_until; [assumption| |].
    - intros fuel c. now apply read_lines_tail.
    - pose proof (text_of_lines_length ls tail). fold txt in H. lia. }
  unfold read_toas, rewind. cbn [contents]. now rewrite R.
Qed.

Lemma unterminated_tail_is_dropped_witness :
  let txt := text_of_lines ["0.5"; "1.5"]%string ++ list_ascii_of_string "2.5" in
  read_toas scan_decimal (mkFILE txt txt false) = (2, [0.5; 1.5]%float).
Proof.
  exact (unterminated_tail_is_dropped scan_decimal ["0.5"; "1.5"]%string
           (list_ascii_of_string "2.5")
           (fits_bufferb_ok ["0.5"; "1.5"]%string eq_refl) ltac:(vm_compute; lia)
           (no_newline_ok (list_ascii_of_string "2.5") eq_refl)).
Defined.



(** ** The binary loaders *)

(** [fread] gets every whole item that is there, whatever follows. *)
Lemma fread_whole (size k : nat) (bytes extra : list ascii) :
  (0 < size)%nat -> length bytes = (k * size)%nat ->
  fread size k (bytes ++ extra) = fread size k bytes
  /\ length (fread size k bytes) = k.
Proof.
  intros Hs. revert bytes; induction k as [|k IH]; intros bytes Hlen; [auto|].
  cbn [fread]. rewrite length_app.
  assert (L : (size <= length bytes)%nat) by (rewrite Hlen; simpl; lia).
  destruct (Nat.leb_spec size (length bytes + length extra)); [|lia].
  destruct (Nat.leb_spec size (length bytes)); [|lia].
  rewrite firstn_app, skipn_app.
  replace (size - length bytes)%nat with O by lia.
  rewrite firstn_O, skipn_O, app_nil_r.
  destruct (IH (skipn size bytes)) as [I1 I2].
  { rewrite length_skipn, Hlen. simpl. lia. }
  rewrite I1. cbn [length]. split; congruence.
Qed.

(** X11. In the binary modes the number of TOAs is the file size
    divided by the item size, rounded down: bytes after the last whole
    item are ignored, the short-read exit is not taken, and the TOAs
    loaded are those of the file without these bytes. *)
Theorem trailing_bytes_are_ignored
  (sscanf_lf : list ascii -> option double) (cmd : Cmdline) (k : nat)
  (bytes extra : list ascii) :
  textP cmd = false ->
  let size := (if floatP cmd then 4 else 8)%nat in
  length bytes = (k * size)%nat -> (length extra < size)%nat ->
  exists raw,
    load_toas sscanf_lf cmd (mkFILE (bytes ++ extra) (bytes ++ extra) false)
    = inl (Z.of_nat k, raw)
    /\ load_toas sscanf_lf cmd (mkFILE bytes bytes false) = inl (Z.of_nat k, raw)
    /\ length raw = k.
Proof.
  intros Ht size Hlen Hex. unfold load_toas. rewrite Ht.
  unfold getfilelen. cbn [contents unread].
  assert (Hs : (0 < size)%nat) by (unfold size; destruct (floatP cmd); lia).
  assert (Es : (if floatP cmd then 4 else 8) = Z.of_nat size)
    by (unfold size; destruct (floatP cmd); reflexivity).
  rewrite Es, Nat2Z.id.
  assert (Q1 : Z.quot (Z.of_nat (length (bytes ++ extra))) (Z.of_nat size) = Z.of_nat k).
  { rewrite length_app, Hlen, Z.quot_div_nonneg by lia.
    rewrite Nat2Z.inj_add, Nat2Z.inj_mul.
    rewrite Z.div_add_l by lia. rewrite Z.div_small by lia. lia. }
  assert (Q2 : Z.quot (Z.of_nat (length bytes)) (Z.of_nat size) = Z.of_nat k).
  { rewrite Hlen, Z.quot_div_nonneg by lia.
    rewrite Nat2Z.inj_mul. now rewrite Z.div_mul by lia. }
  rewrite Q1, Q2, Nat2Z.id.
  destruct (fread_whole size k bytes extra Hs Hlen) as [F1 F2].
  rewrite F1, F2, Z.eqb_refl.
  eexists. split; [reflexivity|]. split; [reflexivity|].
  now rewrite length_map.
Qed.

(** Two doubles, 1.5 and 0.5, followed by three more bytes. *)
Lemma trailing_bytes_are_ignored_witness :
  let bytes := map ascii_of_nat
                   [0; 0; 0; 0; 0; 0; 248; 63; 0; 0; 0; 0; 0; 0; 224; 63]%nat in
  let extra := map ascii_of_nat [1; 2; 3]%nat in
  let cmd := mkCmdline false false true true 0 1 4 "toas.bin" "series.dat" in
  exists raw,
    load_toas scan_decimal cmd (mkFILE (bytes ++ extra) (bytes ++ extra) false)
    = inl (2, raw)
    /\ load_toas scan_decimal cmd (mkFILE bytes bytes false) = inl (2, raw)
    /\ length raw = 2%nat.
Proof.
  exact (trailing_bytes_are_ignored scan_decimal
           (mkCmdline false false true true 0 1 4 "toas.bin" "series.dat") 2
           (map ascii_of_nat [0; 0; 0; 0; 0; 0; 248; 63; 0; 0; 0; 0; 0; 0; 224; 63]%nat)
           (map ascii_of_nat [1; 2; 3]%nat) eq_refl eq_refl ltac:(vm_compute; lia)).
Defined.



(** ** The origin taken from the first TOA *)

Lemma float_of_SF (x : float) (X : spec_float) : Prim2SF x = X -> x = SF2Prim X.
Proof. intros <-. now rewrite SF2Prim_Prim2SF. Qed.

(** A finite double minus itself is [+0]. *)
Lemma sub_self (x : double) :
  PrimFloat.is_finite x = true -> PrimFloat.sub x x = 0%float.
Proof.
  intros F. apply fin_of_is_finite in F.
  apply (float_of_SF _ (S754_zero false)). rewrite sub_spec.
  destruct (Prim2SF x) as [s|s| |s m e]; try discriminate; unfold SF64sub, SFsub.
  - destruct s; reflexivity.
  - rewrite Z.min_id, Z.sub_diag. reflexivity.
Qed.

Lemma offset_of_origin (cmd : Cmdline) (x : double) :
  PrimFloat.is_finite x = true -> to_offset cmd x x = 0%float.
Proof.
  intros F. unfold to_offset. rewrite (sub_self x F).
  destruct (secP cmd); reflexivity.
Qed.

(** X12. Without an epoch ([-t0] not given) the origin is the earliest
    TOA: for finite TOAs, not all absent, the first normalised TOA is
    [+0] and no normalised TOA is below zero. *)
Theorem first_toa_is_the_origin
  (cmd : Cmdline) (stray : nat -> double) (raw : list double) :
  t0P cmd = false -> raw <> [] ->
  Forall (fun x => PrimFloat.is_finite x = true) raw ->
  exists rest,
    normalise cmd stray raw = 0%float :: rest
    /\ Forall (fun x => PrimFloat.leb 0 x = true) rest.
Proof.
  intros Ht Hne Hraw. unfold normalise, origin, load. rewrite Ht.
  assert (Hs : Forall (fun x => PrimFloat.is_finite x = true) (qsort compare_doubles raw)).
  { now rewrite <- (qsort_perm compare_doubles raw). }
  assert (Hn : no_nan raw).
  { eapply Forall_impl; [|exact Hraw]. intros x. apply finite_not_nan. }
  pose proof (qsort_sorted raw Hn) as S.
  pose proof (Permutation_length (qsort_perm compare_doubles raw)) as L.
  destruct (qsort compare_doubles raw) as [|x l].
  { destruct raw; [congruence|discriminate L]. }
  cbn [nth_error map]. inversion Hs as [|? ? Fx Fl]; subst.
  exists (map (to_offset cmd x) l). split.
  - now rewrite offset_of_origin.
  - pose proof (sorted_above x l S) as A.
    rewrite Forall_map. rewrite Forall_forall in *. intros y Hy.
    rewrite <- (offset_of_origin cmd x Fx).
    apply to_offset_monotone; auto.
Qed.

(** The TOAs of Scenario B without an epoch: 0.5 is the origin. *)
Lemma first_toa_is_the_origin_witness :
  exists rest,
    normalise (mkCmdline true false true false 0 1 5 "toas.txt" "series.dat")
              (fun _ => nan) [1.5; 0.5; 1.5]%float = 0%float :: rest
    /\ Forall (fun x => PrimFloat.leb 0 x = true) rest.
Proof.
  exact (first_toa_is_the_origin
           (mkCmdline true false true false 0 1 5 "toas.txt" "series.dat")
           (fun _ => nan) [1.5; 0.5; 1.5]%float eq_refl ltac:(discriminate)
           ltac:(repeat constructor)).
Defined.




(** ** The first TOA in the first bin *)

Lemma bump_counted_first (C : Z) (i : option Z) (buf : list Z) :
  counted_first buf -> counted_first (bump C i buf).
Proof.
  intros (v & tl & -> & Hv). unfold bump.
  destruct i as [k|]; [|now exists v, tl].
  destruct ((0 <=? k) && (k <? C)); [|now exists v, tl].
  destruct (Z.to_nat k) as [|n]; cbn [update].
  - exists (float_incr v), tl. split; [reflexivity|].
    unfold float_incr. destruct (v <? 2 ^ 24); lia.
  - now exists v, (update tl n float_incr).
Qed.

Lemma place_toas_counted_first (C : Z) ddata stray dt fuel lo hi s :
  counted_first (fdata s) ->
  counted_first (fdata (place_toas C ddata stray dt fuel lo hi s)).
Proof.
  revert s; induction fuel as [|fuel IH]; intros s H; simpl; [exact H|].
  destruct (cursor s <? ntoas ddata)%nat; [|exact H].
  destruct (dge (toa s) hi); [exact H|].
  apply IH. destruct (dge (toa s) lo); cbn [advance place fdata]; [|exact H].
  now apply bump_counted_first.
Qed.

Lemma one_xval : xval (Prim2SF 1) = Some (2 ^ bias).
Proof.
  change (Prim2SF 1) with (S754_finite false 4503599627370496 (-52)).
  cbn [xval signed]. f_equal.
Qed.

(** The value of [1 * k] is the value of [k]. *)
Lemma scale_by_one (mk : positive) (ek : Z) :
  bounded prec emax mk ek = true ->
  scale_by mk ek (2 ^ bias) = Z.pos mk * 2 ^ (ek + bias).
Proof.
  intros B. pose proof (bounded_range _ _ B) as [R _].
  pose proof (finite_value_range _ _ B) as V.
  pose proof top_pos as T.
  pose proof (pow2_pos bias ltac:(unfold bias; lia)) as Pb.
  assert (Lt : 2 ^ bias < top).
  { unfold top. apply Z.pow_lt_mono_r; unfold bias; lia. }
  unfold scale_by.
  destruct (Z.leb_spec (2 ^ bias) (- top)); [lia|].
  destruct (Z.leb_spec top (2 ^ bias)); [lia|].
  assert (E : 2 ^ bias * (Z.pos mk * 2 ^ (ek + 1074)) =
              Z.pos mk * 2 ^ (ek + bias) * 2 ^ 1074).
  { assert (E1 : 2 ^ bias * 2 ^ (ek + 1074) = 2 ^ (ek + bias + 1074))
      by (rewrite <- Z.pow_add_r by (unfold bias; lia); f_equal; lia).
    assert (E2 : 2 ^ (ek + bias) * 2 ^ 1074 = 2 ^ (ek + bias + 1074))
      by (rewrite <- Z.pow_add_r by (unfold bias; lia); reflexivity).
    replace (2 ^ bias * (Z.pos mk * 2 ^ (ek + 1074)))
      with (Z.pos mk * (2 ^ bias * 2 ^ (ek + 1074))) by ring.
    replace (Z.pos mk * 2 ^ (ek + bias) * 2 ^ 1074)
      with (Z.pos mk * (2 ^ (ek + bias) * 2 ^ 1074)) by ring.
    now rewrite E1, E2. }
  rewrite E, Z.div_mul by lia.
  exact (round_exact false mk ek B).
Qed.

(** The start of the first block is [+0] when the block time is a
    positive finite double, and its end is above zero. *)
Lemma first_window (C : Z) (dt : double) :
  PrimFloat.is_finite (blockt C dt) = true -> PrimFloat.ltb 0 (blockt C dt) = true ->
  lotime C dt 0 = 0%float /\ dge 0 (hitime C dt 0) = false.
Proof.
  intros F P. unfold lotime, hitime. set (b := blockt C dt) in *.
  apply fin_of_is_finite in F.
  rewrite ltb_spec in P. change (Prim2SF 0) with (S754_zero false) in P.
  pose proof (Prim2SF_valid b) as V.
  destruct (Prim2SF b) as [sb|sb| |sb mb eb] eqn:Eb; try discriminate.
  destruct sb; [discriminate P|]. cbn [valid_binary] in V.
  split.
  - apply (float_of_SF _ (S754_zero false)). rewrite mul_spec, Eb. reflexivity.
  - change (double_of_long (0 + 1)) with 1%float.
    unfold dge. destruct (PrimFloat.leb (1 * b) 0) eqn:L; [exfalso|reflexivity].
    pose proof (mul_xval_pos (Prim2SF 1) mb eb _ (Prim2SF_valid 1) one_xval V) as X.
    rewrite <- Eb, <- mul_spec, scale_by_one in X by assumption.
    apply (leb_xval (1 * b) 0 _ 0 X eq_refl) in L.
    pose proof (bounded_range _ _ V) as [Rb _].
    pose proof (pow2_pos (eb + bias) ltac:(unfold bias; lia)). lia.
Qed.

Lemma zero_times_finite (d : double) :
  PrimFloat.is_finite d = true -> int_of_double (0 * d) = Some 0.
Proof.
  intros F. apply fin_of_is_finite in F.
  unfold int_of_double, exact_parts. rewrite mul_spec.
  change (Prim2SF 0) with (S754_zero false).
  destruct (Prim2SF d) as [s|s| |s m e]; try discriminate; reflexivity.
Qed.

Lemma numwrites_pos (C numout : Z) :
  1 <= C -> 1 <= numout -> 1 <= numwrites C numout /\ 1 <= numtowrite C numout 0.
Proof.
  intros HC Hn. unfold numtowrite. rewrite numwrites_cases, rem_is_mod by lia.
  pose proof (Z.div_mod numout C ltac:(lia)).
  pose proof (Z.mod_pos_bound numout C ltac:(lia)).
  pose proof (Z.div_pos numout C ltac:(lia) ltac:(lia)).
  destruct (Z.eqb_spec (numout mod C) 0); cbn [negb andb].
  - split; [nia|lia].
  - split; [lia|]. destruct (0 =? numout / C + 1 - 1); lia.
Qed.

(** With the origin at the first TOA, the first block counts it in its
    first bin. *)
Lemma first_block_counts (C : Z) (rest : list double) (stray : nat -> double)
      (dt : double) :
  1 <= C ->
  PrimFloat.is_finite (blockt C dt) = true -> PrimFloat.ltb 0 (blockt C dt) = true ->
  PrimFloat.is_finite (dtfract dt) = true ->
  counted_first
    (fdata (place_block C (0%float :: rest) stray dt 0
                        (sweep_init (0%float :: rest) stray))).
Proof.
  intros HC F P Fd. destruct (first_window C dt F P) as [Lo Hi].
  unfold place_block.
  change (ntoas (0%float :: rest) - cursor (sweep_init (0%float :: rest) stray))%nat
    with (S (length rest)).
  set (s0 := clear C (sweep_init (0%float :: rest) stray)).
  assert (Ec : cursor s0 = O) by reflexivity.
  assert (Et : toa s0 = 0%float) by reflexivity.
  assert (Ef : fdata s0 = repeat 0 (Z.to_nat C)) by reflexivity.
  cbn [place_toas]. rewrite Ec, Et, Hi, Lo.
  change (0 <? ntoas (0%float :: rest))%nat with true.
  change (dge 0 0) with true. cbv iota.
  apply place_toas_counted_first. cbn [advance place fdata]. rewrite Et, Ef.
  unfold bin_index. change (0 - 0)%float with 0%float.
  rewrite (zero_times_finite _ Fd). unfold bump.
  destruct (Z.ltb_spec 0 C); [|lia]. cbn [Z.leb andb Z.to_nat].
  destruct (Z.to_nat C) as [|k] eqn:E; [lia|].
  cbn [repeat update]. exists (float_incr 0), (repeat 0 k). split; reflexivity.
Qed.

Lemma normalise_head (cmd : Cmdline) (stray : nat -> double) (raw : list double) :
  t0P cmd = false -> raw <> [] ->
  Forall (fun x => PrimFloat.is_finite x = true) raw ->
  exists rest, normalise cmd stray raw = 0%float :: rest.
Proof.
  intros Ht Hne Hraw. unfold normalise, origin, load. rewrite Ht.
  assert (Hs : Forall (fun x => PrimFloat.is_finite x = true) (qsort compare_doubles raw)).
  { now rewrite <- (qsort_perm compare_doubles raw). }
  pose proof (Permutation_length (qsort_perm compare_doubles raw)) as L.
  destruct (qsort compare_doubles raw) as [|x l].
  { destruct raw; [congruence|discriminate L]. }
  cbn [nth_error map]. inversion Hs as [|? ? Fx Fl]; subst.
  rewrite offset_of_origin by assumption. eauto.
Qed.

(** X13. Without an epoch the earliest TOA is counted in the first bin
    of the series: for finite TOAs, a block time that is finite and
    above zero, a finite [1.0 / dt], at least one bin, and stores that
    fall inside the buffer, the run ends with [exit(0)] and the first
    value written is at least 1. *)
Theorem first_toa_is_counted_in_bin_0
  (sscanf_lf : list ascii -> option double) (stray : nat -> double)
  (cmd : Cmdline) (w : world) (infile : FILE) (n : Z) (raw : list double) :
  fopen w (argv0 cmd) = Some infile ->
  load_toas sscanf_lf cmd infile = inl (n, raw) ->
  can_create w (outfile cmd) = true ->
  t0P cmd = false -> raw <> [] ->
  Forall (fun x => PrimFloat.is_finite x = true) raw ->
  1 <= numout cmd ->
  PrimFloat.is_finite (blockt WORKLEN (dt cmd)) = true ->
  PrimFloat.ltb 0 (blockt WORKLEN (dt cmd)) = true ->
  PrimFloat.is_finite (dtfract (dt cmd)) = true ->
  stores_ok WORKLEN
    (fst (binning WORKLEN (normalise cmd stray raw) stray (dt cmd) (numout cmd))) = true ->
  exists r v rest,
    main sscanf_lf stray cmd w = Done r /\ series r = v :: rest /\ 1 <= v.
Proof.
  intros Hin Hload Hout Ht Hne Hraw Hn HF HP HD Hs.
  unfold main. rewrite Hin, Hload, Hout.
  destruct (normalise_head cmd stray raw Ht Hne Hraw) as [rest0 E].
  rewrite E in *.
  assert (HC : 1 <= WORKLEN) by (unfold WORKLEN; lia).
  destruct (numwrites_pos WORKLEN (numout cmd) HC Hn) as [NW NT].
  pose proof (first_block_counts WORKLEN rest0 stray (dt cmd) HC HF HP HD)
    as (v & tl & Ev & Hv).
  unfold binning in *.
  destruct (Z.to_nat (numwrites WORKLEN (numout cmd))) as [|m] eqn:M; [lia|].
  cbn [write_blocks] in *.
  destruct (write_blocks WORKLEN (0%float :: rest0) stray (dt cmd) (numout cmd) m (0 + 1)
              (place_block WORKLEN (0%float :: rest0) stray (dt cmd) 0
                 (sweep_init (0%float :: rest0) stray))) as [s2 blks].
  cbn [fst] in Hs. rewrite Hs.
  unfold fwrite. rewrite Ev.
  destruct (Z.to_nat (numtowrite WORKLEN (numout cmd) 0)) as [|k] eqn:K; [lia|].
  eexists. exists v. eexists. split; [reflexivity|].
  unfold series. cbn [blocks concat firstn app]. split; [reflexivity|exact Hv].
Qed.

(** Scenario B without an epoch: 0.5 is the origin and the series is
    [1,2,0,0,0]. *)
Lemma first_toa_is_counted_in_bin_0_witness :
  exists r v rest,
    main scan_decimal (fun _ => nan)
         (mkCmdline true false true false 0 1 5 "toas.txt" "series.dat")
         (text_world scenario_lines) = Done r
    /\ series r = v :: rest /\ 1 <= v.
Proof.
  exact (first_toa_is_counted_in_bin_0 scan_decimal (fun _ => nan)
           (mkCmdline true false true false 0 1 5 "toas.txt" "series.dat")
           (text_world scenario_lines) _ 4 scenario_toas eq_refl eq_refl eq_refl
           eq_refl ltac:(discriminate) ltac:(repeat constructor) ltac:(simpl; lia)
           eq_refl eq_refl eq_refl ltac:(vm_compute; reflexivity)).
Defined.

(** * The option [-inf] *)

(** ** The name of the [.inf] file *)

Lemma strstr_step (c : ascii) (h n : list ascii) :
  strstr (c :: h) n = None -> starts_with n (c :: h) = false /\ strstr h n = None.
Proof.
  cbn [strstr]. destruct (starts_with n (c :: h)); [discriminate|].
  destruct (strstr h n); [discriminate|]. auto.
Qed.

(** [.inf] cannot start inside a name and end inside the [.inf] that
    follows it. *)
Lemma no_early_inf (c : ascii) (b rest : list ascii) :
  starts_with (list_ascii_of_string ".inf") (c :: b) = false ->
  starts_with (list_ascii_of_string ".inf")
              (c :: b ++ list_ascii_of_string ".inf" ++ rest) = false.
Proof.
  intros H. destruct b as [|x1 [|x2 [|x3 b3]]]; cbn in *.
  - now rewrite andb_false_r.
  - now rewrite !andb_false_r.
  - now rewrite !andb_false_r.
  - exact H.
Qed.

Lemma strstr_inf (base rest : list ascii) :
  strstr base (list_ascii_of_string ".inf") = None ->
  strstr (base ++ list_ascii_of_string ".inf" ++ rest) (list_ascii_of_string ".inf")
  = Some base.
Proof.
  induction base as [|c b IH]; intros H.
  - reflexivity.
  - apply strstr_step in H as [H1 H2].
    change ((c :: b) ++ list_ascii_of_string ".inf" ++ rest)
      with (c :: b ++ list_ascii_of_string ".inf" ++ rest).
    cbn [strstr]. rewrite (no_early_inf c b rest H1), (IH H2). reflexivity.
Qed.

(** X14. The file that [-inf] reads is named by what stands in front of
    the first [.inf] of the name given, followed by [.inf]: a name
    without [.inf] gets the extension, a name that ends in its only
    [.inf] is kept, and whatever follows the first [.inf] is dropped. *)
Theorem inf_name_is_cut_at_first_inf (base rest : list ascii) :
  strstr base (list_ascii_of_string ".inf") = None ->
  infofilenm (root_of base) = base ++ list_ascii_of_string ".inf"
  /\ infofilenm (root_of (base ++ list_ascii_of_string ".inf"))
     = base ++ list_ascii_of_string ".inf"
  /\ infofilenm (root_of (base ++ list_ascii_of_string ".inf" ++ rest))
     = base ++ list_ascii_of_string ".inf".
Proof.
  intros H. unfold infofilenm, root_of. rewrite H.
  pose proof (strstr_inf base [] H) as E0. rewrite app_nil_r in E0.
  rewrite E0, (strstr_inf base rest H). auto.
Qed.

Lemma inf_name_is_cut_at_first_inf_witness :
  infofilenm (root_of (list_ascii_of_string "obs")) = list_ascii_of_string "obs.inf"
  /\ infofilenm (root_of (list_ascii_of_string "obs.inf")) = list_ascii_of_string "obs.inf"
  /\ infofilenm (root_of (list_ascii_of_string "obs.info.txt"))
     = list_ascii_of_string "obs.inf".
Proof.
  exact (inf_name_is_cut_at_first_inf (list_ascii_of_string "obs")
           (list_ascii_of_string "o.txt") eq_refl).
Defined.

(** ** Reading the [.inf] file *)

Lemma fits_infb_ok (ls : list string) :
  forallb fits_infb ls = true -> Forall fits_inf ls.
Proof.
  rewrite forallb_forall, Forall_forall. intros H l I.
  specialize (H l I). unfold fits_infb in H. apply andb_prop in H as [H1 H2].
  split; [now apply Nat.leb_le|now apply no_newline_ok].
Qed.

Section InfFacts.

Variable sscanf_ld : string -> list ascii -> option Z.
Variable sscanf_fmt_lf : string -> list ascii -> option double.
Variable mjd_fraction : list ascii -> double.
Variable floor : double -> double.

(** One line that fits the buffer is one turn of the loop. *)
Lemma inf_lines_step (fuel : nat) (idata : infodata) (c : list ascii) (l : string)
      (rest : list ascii) :
  fits_inf l ->
  inf_lines sscanf_ld sscanf_fmt_lf mjd_fraction floor (S fuel) idata
            (mkFILE c (list_ascii_of_string l ++ newline :: rest) false) =
  match inf_line sscanf_ld sscanf_fmt_lf mjd_fraction floor idata (line_read l) with
  | Ok idata' =>
      inf_lines sscanf_ld sscanf_fmt_lf mjd_fraction floor fuel idata' (mkFILE c rest false)
  | Exits status => Exits status
  | Crash => Crash
  end.
Proof.
  intros [Hlen Hnl]. rewrite string_length_chars in Hlen.
  cbn [inf_lines]. unfold fgets. cbn [unread contents at_eof].
  change (200 - 1)%nat with 199%nat.
  rewrite fgets_chars_line by (auto; lia).
  unfold line_read.
  destruct (list_ascii_of_string l ++ [newline]) as [|a tl] eqn:A.
  { destruct (list_ascii_of_string l); discriminate. }
  reflexivity.
Qed.

(** The loop never leaves with an [exit]. *)
Lemma inf_line_no_exit (idata : infodata) (line : list ascii) (status : Z) :
  inf_line sscanf_ld sscanf_fmt_lf mjd_fraction floor idata line <> Exits status.
Proof.
  unfold inf_line.
  destruct (first_is hash line || first_is newline line); [discriminate|].
  destruct (is_name_line (cstring line)).
  { destruct (second_token quote (cstring line)) as [t|]; [|discriminate].
    destruct (length t <? 100)%nat; discriminate. }
  destruct (is_bins_line (cstring line)).
  { destruct (sscanf_ld _ _); discriminate. }
  destruct (is_width_line (cstring line)).
  { destruct (sscanf_fmt_lf _ _); discriminate. }
  destruct (is_epoch_line (cstring line)); [|discriminate].
  destruct (after_char dot (cstring line)); discriminate.
Qed.

(** Only the line with the number of bins changes [N]. *)
Lemma inf_line_keeps_N (idata idata' : infodata) (line : list ascii) :
  is_bins_line (cstring line) = false ->
  inf_line sscanf_ld sscanf_fmt_lf mjd_fraction floor idata line = Ok idata' ->
  inf_N idata' = inf_N idata.
Proof.
  intros B. unfold inf_line. rewrite B.
  destruct (first_is hash line || first_is newline line); [now intros [= <-]|].
  destruct (is_name_line (cstring line)).
  { destruct (second_token quote (cstring line)) as [t|]; [|discriminate].
    destruct (length t <? 100)%nat; [|discriminate]. now intros [= <-]. }
  destruct (is_width_line (cstring line)).
  { destruct (sscanf_fmt_lf _ _); now intros [= <-]. }
  destruct (is_epoch_line (cstring line)); [|now intros [= <-]].
  destruct (after_char dot (cstring line)); now intros [= <-].
Qed.

Lemma inf_lines_keep_N (ls : list string) :
  Forall fits_inf ls ->
  Forall (fun l => is_bins_line (cstring (line_read l)) = false) ls ->
  forall fuel idata idata' c,
  inf_lines sscanf_ld sscanf_fmt_lf mjd_fraction floor fuel idata
            (mkFILE c (text_of_lines ls) false) = Ok idata' ->
  inf_N idata' = inf_N idata.
Proof.
  induction 1 as [|l ls Hl Hls IH]; intros HB fuel idata idata' c.
  - destruct fuel; cbn; now intros [= <-].
  - inversion HB as [|? ? Bl Bls]; subst.
    destruct fuel as [|fuel]; [cbn; now intros [= <-]|].
    rewrite text_of_lines_cons, inf_lines_step by assumption.
    destruct (inf_line sscanf_ld sscanf_fmt_lf mjd_fraction floor idata (line_read l))
      as [i1| |] eqn:E; try discriminate.
    intros R. rewrite (IH Bls _ _ _ _ R). exact (inf_line_keeps_N _ _ _ Bl E).
Qed.

(** A name line does not start with [#] or with a newline. *)
Lemma name_line_is_read (line : list ascii) :
  is_name_line (cstring line) = true ->
  first_is hash line || first_is newline line = false.
Proof.
  destruct line as [|a tl]; [discriminate|]. unfold is_name_line.
  cbn [cstring]. destruct (Ascii.eqb a nul); [discriminate|].
  cbn [list_ascii_of_string strncmp_eq first_is].
  destruct (Ascii.eqb_spec a " ") as [->|N]; [reflexivity|discriminate].
Qed.

Lemma skip_delims_none (d : ascii) (l : list ascii) :
  ~ In d l -> skip_delims d l = l.
Proof.
  destruct l as [|c l]; [reflexivity|]. intros H. cbn [skip_delims].
  destruct (Ascii.eqb_spec c d) as [->|N]; [|reflexivity].
  exfalso. apply H. now left.
Qed.

Lemma take_token_none (d : ascii) (l : list ascii) :
  ~ In d l -> take_token d l = (l, []).
Proof.
  induction l as [|c l IH]; intros H; [reflexivity|]. cbn [take_token].
  destruct (Ascii.eqb_spec c d) as [->|N].
  - exfalso. apply H. now left.
  - rewrite IH; [reflexivity|]. intros I. apply H. now right.
Qed.

Lemma cstring_incl (l : list ascii) (c : ascii) : In c (cstring l) -> In c l.
Proof.
  induction l as [|x l IH]; [auto|]. cbn [cstring].
  destruct (Ascii.eqb x nul); [intros []|]. intros [->|H]; [now left|right; auto].
Qed.

(** A name line without a double quote has no second token: [strcpy]
    gets NULL. *)
Lemma unquoted_name_line (idata : infodata) (line : list ascii) :
  is_name_line (cstring line) = true -> ~ In quote line ->
  inf_line sscanf_ld sscanf_fmt_lf mjd_fraction floor idata line = Crash.
Proof.
  intros P Q. unfold inf_line. rewrite (name_line_is_read line P), P.
  assert (Q' : ~ In quote (cstring line)) by (intros I; apply Q; now apply cstring_incl).
  unfold second_token, strtok. rewrite (skip_delims_none _ _ Q').
  destruct (cstring line) as [|a tl] eqn:E; [reflexivity|].
  rewrite (take_token_none _ _ Q'). reflexivity.
Qed.

Lemma inf_lines_crash (pre : list string) (l : string) (rest : list ascii) :
  Forall fits_inf pre -> fits_inf l ->
  is_name_line (cstring (line_read l)) = true -> ~ In quote (list_ascii_of_string l) ->
  forall fuel idata c, (length pre < fuel)%nat ->
  inf_lines sscanf_ld sscanf_fmt_lf mjd_fraction floor fuel idata
            (mkFILE c (text_of_lines pre ++ list_ascii_of_string l ++ newline :: rest) false)
  = Crash.
Proof.
  intros Hpre Hl P Q. induction Hpre as [|p pre Hp Hpre IH]; intros fuel idata c Hf.
  - destruct fuel as [|fuel]; [simpl in Hf; lia|]. cbn [text_of_lines map concat app].
    rewrite inf_lines_step by assumption.
    rewrite unquoted_name_line; [reflexivity|exact P|].
    unfold line_read. intros I. apply in_app_or in I as [I|[I|[]]]; [now apply Q|].
    discriminate I.
  - destruct fuel as [|fuel]; [simpl in Hf; lia|].
    rewrite text_of_lines_cons, <- app_assoc. cbn [app].
    rewrite inf_lines_step by assumption.
    destruct (inf_line sscanf_ld sscanf_fmt_lf mjd_fraction floor idata (line_read p))
      as [i1|st|] eqn:E.
    + apply IH. simpl in Hf. lia.
    + exfalso. exact (inf_line_no_exit _ _ _ E).
    + reflexivity.
Qed.

End InfFacts.

Lemma text_of_lines_app (a b : list string) :
  text_of_lines (a ++ b) = text_of_lines a ++ text_of_lines b.
Proof.
  unfold text_of_lines. now rewrite map_app, concat_app.
Qed.

(** X15. A missing [.inf] file is fatal: for a name without [.inf]
    inside, short enough for the buffer of [readinf], given with or
    without the extension, the run ends with [exit(-1)] when the file
    does not open, whatever the TOA file is. *)
Theorem missing_inf_file_exits
  (sscanf_ld : string -> list ascii -> option Z)
  (sscanf_fmt_lf : string -> list ascii -> option double)
  (mjd_fraction : list ascii -> double) (floor : double -> double)
  (sscanf_lf : list ascii -> option double) (stray : nat -> double)
  (base : list ascii) (cmd : Cmdline) (w : world) :
  strstr base (list_ascii_of_string ".inf") = None ->
  (length base < 196)%nat ->
  files w (string_of_list_ascii (base ++ list_ascii_of_string ".inf")) = None ->
  main_inf sscanf_ld sscanf_fmt_lf mjd_fraction floor sscanf_lf stray
           (Some (string_of_list_ascii base)) cmd w = Exits (-1)
  /\ main_inf sscanf_ld sscanf_fmt_lf mjd_fraction floor sscanf_lf stray
              (Some (string_of_list_ascii (base ++ list_ascii_of_string ".inf"))) cmd w
     = Exits (-1).
Proof.
  intros H Hlen Hf.
  assert (L : (length (base ++ list_ascii_of_string ".inf") <? 200)%nat = true).
  { apply Nat.ltb_lt. rewrite length_app. simpl. lia. }
  pose proof (strstr_inf base [] H) as E. rewrite app_nil_r in E.
  unfold main_inf, readinf, infofilenm, root_of, fopen.
  rewrite !list_ascii_of_string_of_list_ascii, H, E, L, Hf. auto.
Qed.

Lemma missing_inf_file_exits_witness :
  main_inf scan_ld scan_lf (fun _ => 0%float) (fun x => x) scan_decimal (fun _ => nan)
           (Some "obs"%string) (text_seconds 0 1 5) (text_world scenario_lines) = Exits (-1)
  /\ main_inf scan_ld scan_lf (fun _ => 0%float) (fun x => x) scan_decimal (fun _ => nan)
              (Some "obs.inf"%string) (text_seconds 0 1 5) (text_world scenario_lines)
     = Exits (-1).
Proof.
  exact (missing_inf_file_exits scan_ld scan_lf (fun _ => 0%float) (fun x => x) scan_decimal
           (fun _ => nan) (list_ascii_of_string "obs") (text_seconds 0 1 5)
           (text_world scenario_lines) eq_refl ltac:(simpl; lia) eq_refl).
Defined.

(** X16. A [Data file name] line without a double quote is not
    survived: when the lines in front of it fit the buffer, [strtok]
    finds no second token and [strcpy] is called on NULL, so that the
    run with [-inf] has no defined result. *)
Theorem unquoted_name_crashes
  (sscanf_ld : string -> list ascii -> option Z)
  (sscanf_fmt_lf : string -> list ascii -> option double)
  (mjd_fraction : list ascii -> double) (floor : double -> double)
  (sscanf_lf : list ascii -> option double) (stray : nat -> double)
  (name : string) (cmd : Cmdline) (w : world) (pre : list string) (l : string)
  (post : list string) :
  let nm := infofilenm (root_of (list_ascii_of_string name)) in
  (length nm < 200)%nat ->
  files w (string_of_list_ascii nm) = Some (text_of_lines (pre ++ l :: post)) ->
  Forall fits_inf pre -> fits_inf l ->
  is_name_line (cstring (line_read l)) = true ->
  ~ In quote (list_ascii_of_string l) ->
  main_inf sscanf_ld sscanf_fmt_lf mjd_fraction floor sscanf_lf stray (Some name) cmd w
  = Crash.
Proof.
  intros nm Hlen Hf Hpre Hl P Q.
  unfold main_inf, readinf, fopen. fold nm.
  apply Nat.ltb_lt in Hlen. rewrite Hlen, Hf. cbn [unread].
  rewrite text_of_lines_app, text_of_lines_cons.
  rewrite (inf_lines_crash sscanf_ld sscanf_fmt_lf mjd_fraction floor pre l
             (text_of_lines post) Hpre Hl P Q); [reflexivity|].
  rewrite length_app. pose proof (lines_le_chars pre). lia.
Qed.

Lemma unquoted_name_crashes_witness :
  main_inf scan_ld scan_lf (fun _ => 0%float) (fun x => x) scan_decimal (fun _ => nan)
           (Some "obs.inf"%string) (text_seconds 0 1 5)
           (inf_world inf_lines_unquoted scenario_lines) = Crash.
Proof.
  exact (unquoted_name_crashes scan_ld scan_lf (fun _ => 0%float) (fun x => x) scan_decimal
           (fun _ => nan) "obs.inf" (text_seconds 0 1 5)
           (inf_world inf_lines_unquoted scenario_lines)
           ["# made by hand"%string]
           " Data file name without suffix          =  obs"%string
           [" Number of bins in the time series      =  8"%string]
           ltac:(vm_compute; lia) eq_refl
           (fits_infb_ok ["# made by hand"%string] eq_refl)
           (Forall_inv (fits_infb_ok
                          [" Data file name without suffix          =  obs"%string] eq_refl))
           eq_refl
           ltac:(intros H; repeat (destruct H as [H|H]; [discriminate H|]); exact H)).
Defined.

(** X17. An [.inf] file without a [Number of bins] line leaves [N] at
    0: when its lines fit the buffer and [readinf] returns, the run
    with [-inf] loads the TOAs, places none of them, writes an empty
    series and ends with [exit(0)]. *)
Theorem inf_without_bins_writes_nothing
  (sscanf_ld : string -> list ascii -> option Z)
  (sscanf_fmt_lf : string -> list ascii -> option double)
  (mjd_fraction : list ascii -> double) (floor : double -> double)
  (sscanf_lf : list ascii -> option double) (stray : nat -> double)
  (name : string) (cmd : Cmdline) (w : world) (ls : list string) (idata : infodata)
  (infile : FILE) (n : Z) (raw : list double) :
  let root := root_of (list_ascii_of_string name) in
  files w (string_of_list_ascii (infofilenm root)) = Some (text_of_lines ls) ->
  Forall fits_inf ls ->
  Forall (fun l => is_bins_line (cstring (line_read l)) = false) ls ->
  readinf sscanf_ld sscanf_fmt_lf mjd_fraction floor w root = Ok idata ->
  fopen w (argv0 cmd) = Some infile ->
  load_toas sscanf_lf cmd infile = inl (n, raw) ->
  can_create w (outfile cmd) = true ->
  exists r,
    main_inf sscanf_ld sscanf_fmt_lf mjd_fraction floor sscanf_lf stray (Some name) cmd w
    = Ok (Done r)
    /\ found r = n /\ placed r = 0 /\ series r = [].
Proof.
  intros root Hf Hfit HB HR Hin Hload Hout.
  assert (N0 : inf_N idata = 0).
  { revert HR. unfold readinf, fopen. rewrite Hf.
    destruct (length (infofilenm root) <? 200)%nat; [|discriminate].
    cbn [unread]. intros R.
    exact (inf_lines_keep_N sscanf_ld sscanf_fmt_lf mjd_fraction floor ls Hfit HB
             _ _ _ _ R). }
  unfold main_inf. fold root. rewrite HR. unfold main.
  change (argv0 (with_inf cmd idata)) with (argv0 cmd).
  change (outfile (with_inf cmd idata)) with (outfile cmd).
  rewrite Hin.
  change (load_toas sscanf_lf (with_inf cmd idata) infile)
    with (load_toas sscanf_lf cmd infile).
  rewrite Hload, Hout.
  change (numout (with_inf cmd idata)) with (inf_N idata). rewrite N0.
  eexists. split; [reflexivity|]. repeat split.
Qed.

Lemma inf_without_bins_writes_nothing_witness :
  exists r,
    main_inf scan_ld scan_lf (fun _ => 0%float) (fun x => x) scan_decimal (fun _ => nan)
             (Some "obs"%string) (text_seconds 0 1 5)
             (inf_world inf_lines_example scenario_lines)
    = Ok (Done r)
    /\ found r = 4 /\ placed r = 0 /\ series r = [].
Proof.
  exact (inf_without_bins_writes_nothing scan_ld scan_lf (fun _ => 0%float) (fun x => x) scan_decimal
           (fun _ => nan) "obs" (text_seconds 0 1 5)
           (inf_world inf_lines_example scenario_lines) inf_lines_example
           (mkInfo 0 0.5 0 0 (Some (list_ascii_of_string "obs")))
           _ 4 scenario_toas eq_refl (fits_infb_ok inf_lines_example eq_refl)
           ltac:(repeat constructor) eq_refl eq_refl eq_refl eq_refl).
Defined.
